(** * child-learn: data loader, search engine and router

    A shallow embedding of [js/dataLoader.js], [js/searchEngine.js],
    [js/router.js] and of [parseQueryString] from [js/utils.js], with the
    properties the specification states about them.

    Conventions.
    - A JavaScript string is the list of its UTF-16 code units ([jsstring]).
    - A plain object used as a dictionary is a [gmap] from property names to
      values; insertion order of keys is not observed by the modelled code.
    - Code that reads the clock, calls [fetch], writes to the console or
      throws is written in a small state-and-exception monad over an explicit
      world; the transport and the clock are oracles stored in that world.
    - [Array.prototype.sort] is stable (ECMAScript 2019), so with a
      consistent comparator its result is determined; it is modelled by a
      stable insertion sort.
    - The document is an abstract type with the three operations of the DOM
      that the router uses ([Router.Dom]). *)

From Stdlib Require Import ZArith NArith Ascii String List Sorting.Sorted
  Sorting.Permutation.
From stdpp Require Import base option list gmap pretty.
Import ListNotations.

Local Open Scope Z_scope.

(** ** JavaScript values and built-ins used by the sources *)

Module JS.

(** UTF-16 code units. *)
Abbreviation jsstring := (list N).

(** Code units of an 8-bit literal (used for ASCII text only). *)
Definition js (s : string) : jsstring :=
  map N_of_ascii (list_ascii_of_string s).

Fixpoint str_eqb (a b : jsstring) : bool :=
  match a, b with
  | [], [] => true
  | x :: a', y :: b' => N.eqb x y && str_eqb a' b'
  | _, _ => false
  end.

(** [WhiteSpace] and [LineTerminator] code units: what [\s] matches and what
    [String.prototype.trim] strips. *)
Definition is_space (c : N) : bool :=
  ((9 <=? c) && (c <=? 13) || (c =? 32) || (c =? 160) || (c =? 5760)
   || ((8192 <=? c) && (c <=? 8202)) || (c =? 8232) || (c =? 8233)
   || (c =? 8239) || (c =? 8287) || (c =? 12288) || (c =? 65279))%N.

Fixpoint trimStart (s : jsstring) : jsstring :=
  match s with
  | c :: s' => if is_space c then trimStart s' else s
  | [] => []
  end.

(** [s.trim()] *)
Definition trim (s : jsstring) : jsstring :=
  rev (trimStart (rev (trimStart s))).

(** [s.split(/\s+/)]: the pieces between maximal runs of white space, with
    the empty pieces a leading or trailing run produces. [cur] is the piece
    being read (reversed), [insp] tells that the previous unit was a space. *)
Fixpoint split_ws_from (s : jsstring) (cur : jsstring) (insp : bool)
  : list jsstring :=
  match s with
  | [] => [rev cur]
  | c :: s' =>
      if is_space c then
        if insp then split_ws_from s' [] true
        else rev cur :: split_ws_from s' [] true
      else split_ws_from s' (c :: cur) false
  end.

Definition split_ws (s : jsstring) : list jsstring := split_ws_from s [] false.

(** [s.split(sep)] for a separator of one code unit. *)
Fixpoint split_on_from (sep : N) (s : jsstring) (cur : jsstring)
  : list jsstring :=
  match s with
  | [] => [rev cur]
  | c :: s' =>
      if N.eqb c sep then rev cur :: split_on_from sep s' []
      else split_on_from sep s' (c :: cur)
  end.

Definition split_on (sep : N) (s : jsstring) : list jsstring :=
  split_on_from sep s [].

Fixpoint starts_with (p s : jsstring) : bool :=
  match p, s with
  | [], _ => true
  | x :: p', y :: s' => N.eqb x y && starts_with p' s'
  | _ :: _, [] => false
  end.

(** [s.includes(sub)] *)
Fixpoint includes (s sub : jsstring) : bool :=
  starts_with sub s ||
  match s with
  | [] => false
  | _ :: s' => includes s' sub
  end.

(** The [SyntaxCharacter]s of regular expression patterns,
    [^ $ \ . * + ? ( ) [ ] { } |]: in a pattern they stand for themselves
    only after a backslash. *)
Definition is_syntax_char (c : N) : bool :=
  existsb (N.eqb c) (js "^$\.*+?()[]{}|").

(** [arr.sort(cmp)]: stable, [cmp x y <= 0] keeps [x] before [y]. *)
Fixpoint sort_insert {A} (cmp : A → A → Z) (x : A) (l : list A) : list A :=
  match l with
  | [] => [x]
  | y :: l' => if cmp x y <=? 0 then x :: l else y :: sort_insert cmp x l'
  end.

Fixpoint sort {A} (cmp : A → A → Z) (l : list A) : list A :=
  match l with
  | [] => []
  | x :: l' => sort_insert cmp x (sort cmp l')
  end.

(** [arr.find(p)] *)
Fixpoint find {A} (p : A → bool) (l : list A) : option A :=
  match l with
  | [] => None
  | x :: l' => if p x then Some x else find p l'
  end.

(** Objects used as dictionaries with string values. *)
Abbreviation Obj := (gmap (list N) (list N)).

(** [o[k] = v] on a plain object: assigning a string to [__proto__] goes to
    the prototype setter, which ignores it, and creates no property. *)
Definition obj_set (k v : jsstring) (o : Obj) : Obj :=
  if str_eqb k (js "__proto__") then o else <[k:=v]> o.

(** [{...a, ...b}]: the properties of [b] override those of [a]. *)
Definition spread2 (a b : Obj) : Obj := b ∪ a.

(** *** decodeURIComponent *)

Definition hex_val (c : N) : option N :=
  (if (48 <=? c) && (c <=? 57) then Some (c - 48)
   else if (65 <=? c) && (c <=? 70) then Some (c - 55)
   else if (97 <=? c) && (c <=? 102) then Some (c - 87)
   else None)%N.

(** One step of the scan: a plain code unit, or the octet of a [%XX]. *)
Inductive uri_token := UPlain (c : N) | UOctet (b : N).

(** [None] is a URIError: a [%] that is not followed by two hex digits. *)
Fixpoint uri_tokens (s : jsstring) : option (list uri_token) :=
  match s with
  | [] => Some []
  | c :: s' =>
      if N.eqb c 37 then
        match s' with
        | h1 :: h2 :: rest =>
            match hex_val h1, hex_val h2, uri_tokens rest with
            | Some a, Some b, Some ts => Some (UOctet (16 * a + b)%N :: ts)
            | _, _, _ => None
            end
        | _ => None
        end
      else
        match uri_tokens s' with
        | Some ts => Some (UPlain c :: ts)
        | None => None
        end
  end.

Definition is_cont (b : N) : bool := ((128 <=? b) && (b <=? 191))%N.

Definition utf16_encode (v : N) : jsstring :=
  (if v <? 65536 then [v]
   else [55296 + (v - 65536) / 1024; 56320 + (v - 65536) mod 1024])%N.

(** A code point is well formed when it is not an overlong form (at least
    [lo]), not a surrogate and at most U+10FFFF. *)
Definition scalar_ok (lo v : N) : bool :=
  ((lo <=? v) && (v <=? 1114111) && negb ((55296 <=? v) && (v <=? 57343)))%N.

Fixpoint utf8_decode (ts : list uri_token) : option jsstring :=
  match ts with
  | [] => Some []
  | UPlain c :: ts' => option_map (cons c) (utf8_decode ts')
  | UOctet b :: ts' =>
      if (b <? 128)%N then option_map (cons b) (utf8_decode ts')
      else if (b <? 192)%N then None
      else if (b <? 224)%N then
        match ts' with
        | UOctet b1 :: r =>
            let v := ((b - 192) * 64 + (b1 - 128))%N in
            if is_cont b1 && scalar_ok 128 v
            then option_map (app (utf16_encode v)) (utf8_decode r)
            else None
        | _ => None
        end
      else if (b <? 240)%N then
        match ts' with
        | UOctet b1 :: UOctet b2 :: r =>
            let v := ((b - 224) * 4096 + (b1 - 128) * 64 + (b2 - 128))%N in
            if is_cont b1 && is_cont b2 && scalar_ok 2048 v
            then option_map (app (utf16_encode v)) (utf8_decode r)
            else None
        | _ => None
        end
      else if (b <? 248)%N then
        match ts' with
        | UOctet b1 :: UOctet b2 :: UOctet b3 :: r =>
            let v := ((b - 240) * 262144 + (b1 - 128) * 4096
                      + (b2 - 128) * 64 + (b3 - 128))%N in
            if is_cont b1 && is_cont b2 && is_cont b3 && scalar_ok 65536 v
            then option_map (app (utf16_encode v)) (utf8_decode r)
            else None
        | _ => None
        end
      else None
  end.

(** [decodeURIComponent(s)]; [None] when it throws a URIError. *)
Definition decodeURIComponent (s : jsstring) : option jsstring :=
  match uri_tokens s with
  | Some ts => utf8_decode ts
  | None => None
  end.

End JS.

(** ** Exceptions and state

    [M S A] is a computation over a state [S] that returns an [A] or throws;
    the state survives a throw, as the heap does in JavaScript. *)

Module Eff.
Import JS.

(** An [Error] object, seen through its [message]. *)
Record Error := mkError { message : jsstring }.

Inductive Result (A : Type) : Type :=
| Ok (a : A)
| Throw (e : Error).
Arguments Ok {A} a.
Arguments Throw {A} e.

Definition M (S A : Type) : Type := S → Result A * S.

Definition ret {S A} (a : A) : M S A := fun st => (Ok a, st).

Definition throw {S A} (e : Error) : M S A := fun st => (Throw e, st).

Definition bind {S A B} (c : M S A) (k : A → M S B) : M S B :=
  fun st =>
    match c st with
    | (Ok a, st') => k a st'
    | (Throw e, st') => (Throw e, st')
    end.

(** [try { c } catch (error) { h error }] *)
Definition try_catch {S A} (c : M S A) (h : Error → M S A) : M S A :=
  fun st =>
    match c st with
    | (Ok a, st') => (Ok a, st')
    | (Throw e, st') => h e st'
    end.

Definition gets {S A} (f : S → A) : M S A := fun st => (Ok (f st), st).

Definition modify {S} (f : S → S) : M S unit := fun st => (Ok tt, f st).

(** A value that is already a result (a settled promise). *)
Definition settle {S A} (r : Result A) : M S A := fun st => (r, st).

End Eff.

Declare Scope eff_scope.
Delimit Scope eff_scope with eff.
Notation "x <- c ;; k" := (Eff.bind c (fun x => k))
  (at level 100, c at next level, right associativity) : eff_scope.
Notation "c ;; k" := (Eff.bind c (fun _ => k))
  (at level 100, right associativity) : eff_scope.

(** ** The data model *)

Module Data.
Import JS.

(** A content item; the passthrough fields are carried as they are. A
    missing [title] or [description] is [None]. *)
Record ContentItem := {
  item_id : jsstring;
  item_type : jsstring;
  item_title : option jsstring;
  item_description : option jsstring;
  item_rest : list (jsstring * jsstring)
}.

Record RecommendationEntry := {
  contentId : jsstring;
  priority : Z;
  reason : option jsstring
}.

(** [{...item, recommendationReason, recommendationPriority}] *)
Record RecommendedItem := {
  rec_item : ContentItem;
  recommendationReason : option jsstring;
  recommendationPriority : Z
}.

(** A property that the loader expects to be an array: falsy or missing,
    some other truthy value, or an array. *)
Inductive ArrayField (A : Type) : Type :=
| Falsy
| NotArray
| Arr (l : list A).
Arguments Falsy {A}.
Arguments NotArray {A}.
Arguments Arr {A} l.

(** A sub-object that the loader only tests for presence. *)
Inductive Opaque := opaque (tag : N).

Record Performance := { perf_cacheDuration : option Z }.

(** The value [response.json()] resolves to, seen through the properties the
    loader reads. *)
Record ParsedData := {
  content : ArrayField ContentItem;
  recommendations : ArrayField RecommendationEntry;
  site : option Opaque;
  contentTypes : option Opaque;
  ageRatings : option Opaque;
  performance : option Performance
}.

End Data.

(** ** js/dataLoader.js *)

Module DataLoader.
Import JS Eff Data.
Local Open Scope eff_scope.

(** [{ data, timestamp }]: both [null] until the slot is set. *)
Record Slot (A : Type) := mkSlot { data : option A; timestamp : option Z }.
Arguments mkSlot {A} data timestamp.
Arguments data {A} s.
Arguments timestamp {A} s.

(** The response of the transport: [response.ok], [response.status] and what
    [response.json()] settles to. *)
Record Response := { ok : bool; status : N; json : Result ParsedData }.

Inductive LogEntry :=
| WarnRetry (delay : Z) (retries : nat)
| ErrorLoadContent (error : Error)
| ErrorLoadRecommendations (error : Error)
| ErrorLoadConfig (error : Error)
| ErrorGetContent (id : jsstring) (error : Error)
| ErrorGetByType (type : jsstring) (error : Error)
| ErrorRecommended (error : Error)
| WarnStaleCache.

(** What the loader does to its environment, in order. *)
Inductive Event :=
| ERequest (url : jsstring)
| ETimeout (ms : Z)
| EConsole (entry : LogEntry).

(** The fields of the [DataLoader] instance and the world around it: the
    [n]-th call of [fetch] settles to [transport n url], the [n]-th call of
    [Date.now()] returns [clock n]. *)
Record State := mkState {
  cache_content : Slot (list ContentItem);
  cache_config : Slot ParsedData;
  cache_recommendations : Slot (list RecommendationEntry);
  cacheDuration : Z;
  maxRetries : nat;
  retryDelay : Z;
  transport : nat → jsstring → Result Response;
  clock : nat → Z;
  fetches : nat;
  reads : nat;
  trace : list Event
}.

(** [new DataLoader()] in a given environment. *)
Definition constructor (transport : nat → jsstring → Result Response)
  (clock : nat → Z) : State :=
  {| cache_content := mkSlot None None;
     cache_config := mkSlot None None;
     cache_recommendations := mkSlot None None;
     cacheDuration := 3600000;
     maxRetries := 3;
     retryDelay := 1000;
     transport := transport; clock := clock;
     fetches := 0; reads := 0; trace := [] |}.

Definition with_cache_content (s : Slot (list ContentItem)) (st : State) :=
  mkState s (cache_config st) (cache_recommendations st) (cacheDuration st)
    (maxRetries st) (retryDelay st) (transport st) (clock st) (fetches st)
    (reads st) (trace st).

Definition with_cache_config (s : Slot ParsedData) (st : State) :=
  mkState (cache_content st) s (cache_recommendations st) (cacheDuration st)
    (maxRetries st) (retryDelay st) (transport st) (clock st) (fetches st)
    (reads st) (trace st).

Definition with_cache_recommendations (s : Slot (list RecommendationEntry))
  (st : State) :=
  mkState (cache_content st) (cache_config st) s (cacheDuration st)
    (maxRetries st) (retryDelay st) (transport st) (clock st) (fetches st)
    (reads st) (trace st).

Definition with_cacheDuration (d : Z) (st : State) :=
  mkState (cache_content st) (cache_config st) (cache_recommendations st) d
    (maxRetries st) (retryDelay st) (transport st) (clock st) (fetches st)
    (reads st) (trace st).

Definition with_fetches (n : nat) (st : State) :=
  mkState (cache_content st) (cache_config st) (cache_recommendations st)
    (cacheDuration st) (maxRetries st) (retryDelay st) (transport st)
    (clock st) n (reads st) (trace st).

Definition with_reads (n : nat) (st : State) :=
  mkState (cache_content st) (cache_config st) (cache_recommendations st)
    (cacheDuration st) (maxRetries st) (retryDelay st) (transport st)
    (clock st) (fetches st) n (trace st).

Definition with_trace (t : list Event) (st : State) :=
  mkState (cache_content st) (cache_config st) (cache_recommendations st)
    (cacheDuration st) (maxRetries st) (retryDelay st) (transport st)
    (clock st) (fetches st) (reads st) t.

(** A cache key names one slot of [this.cache]. *)
Record Key (A : Type) := mkKey {
  get_slot : State → Slot A;
  set_slot : Slot A → State → State
}.
Arguments get_slot {A} k st.
Arguments set_slot {A} k s st.

Definition key_content := mkKey _ cache_content with_cache_content.
Definition key_config := mkKey _ cache_config with_cache_config.
Definition key_recommendations :=
  mkKey _ cache_recommendations with_cache_recommendations.

Definition emit (e : Event) : M State unit :=
  modify (fun st => with_trace (trace st ++ [e]) st).

Definition console_warn (entry : LogEntry) : M State unit :=
  emit (EConsole entry).

Definition console_error (entry : LogEntry) : M State unit :=
  emit (EConsole entry).

(** [Date.now()] *)
Definition Date_now : M State Z :=
  fun st => (Ok (clock st (reads st)), with_reads (S (reads st)) st).

(** [await fetch(url)] *)
Definition fetch (url : jsstring) : M State Response :=
  fun st =>
    (transport st (fetches st) url,
     with_trace (trace st ++ [ERequest url])
       (with_fetches (S (fetches st)) st)).

(** [await new Promise(resolve => setTimeout(resolve, ms))] *)
Definition sleep (ms : Z) : M State unit := emit (ETimeout ms).

(** A timestamp of [0] is falsy, like [null]; cached data are arrays or
    objects, which are truthy. *)
Definition isCacheValid {A} (key : Key A) : M State bool :=
  cached <- gets (get_slot key);;
  match data cached, timestamp cached with
  | Some _, Some ts =>
      if ts =? 0 then ret false
      else
        now <- Date_now;;
        duration <- gets cacheDuration;;
        ret (now - ts <? duration)
  | _, _ => ret false
  end.

Definition setCache {A} (key : Key A) (d : A) : M State unit :=
  now <- Date_now;;
  modify (set_slot key (mkSlot (Some d) (Some now))).

Definition getCache {A} (key : Key A) : M State (option A) :=
  gets (fun st => data (get_slot key st)).

Definition http_error (status : N) : Error :=
  mkError (js "HTTP error! status: " ++ js (pretty status)).

Fixpoint fetchWithRetry (url : jsstring) (retries : nat) : M State Response :=
  try_catch
    (response <- fetch url;;
     if negb (ok response) then throw (http_error (status response))
     else ret response)
    (fun error =>
       match retries with
       | S retries' =>
           delay <- gets retryDelay;;
           console_warn (WarnRetry delay retries);;
           sleep delay;;
           fetchWithRetry url retries'
       | O => throw error
       end).

Definition url_content := js "./data/content.json".
Definition url_recommendations := js "./data/recommendations.json".
Definition url_config := js "./data/config.json".

Definition msg_content_invalid : jsstring :=
  [20869; 23481; 25968; 25454; 26684; 24335; 26080; 25928]%N.
Definition msg_content_failed : jsstring :=
  [26080; 27861; 21152; 36733; 20869; 23481; 25968; 25454; 58; 32]%N.
Definition msg_recommendations_invalid : jsstring :=
  [25512; 33616; 25968; 25454; 26684; 24335; 26080; 25928]%N.
Definition msg_recommendations_failed : jsstring :=
  [26080; 27861; 21152; 36733; 25512; 33616; 25968; 25454; 58; 32]%N.
Definition msg_config_invalid : jsstring :=
  [37197; 32622; 25968; 25454; 26684; 24335; 26080; 25928]%N.
Definition msg_config_failed : jsstring :=
  [26080; 27861; 21152; 36733; 37197; 32622; 25968; 25454; 58; 32]%N.
Definition msg_id_empty : jsstring :=
  [20869; 23481; 32; 73; 68; 32; 19981; 33021; 20026; 31354]%N.
Definition msg_type_empty : jsstring :=
  [20869; 23481; 31867; 22411; 19981; 33021; 20026; 31354]%N.

(** The loads return what the slot holds, hence a nullable value. *)
Definition loadContent : M State (option (list ContentItem)) :=
  valid <- isCacheValid key_content;;
  if valid then getCache key_content
  else
    try_catch
      (retries <- gets maxRetries;;
       response <- fetchWithRetry url_content retries;;
       data <- settle (json response);;
       match content data with
       | Arr items =>
           setCache key_content items;;
           ret (Some items)
       | _ => throw (mkError msg_content_invalid)
       end)
      (fun error =>
         console_error (ErrorLoadContent error);;
         cached <- gets cache_content;;
         match data cached with
         | Some stale =>
             console_warn WarnStaleCache;;
             ret (Some stale)
         | None => throw (mkError (msg_content_failed ++ message error))
         end).

Definition loadRecommendations : M State (option (list RecommendationEntry)) :=
  valid <- isCacheValid key_recommendations;;
  if valid then getCache key_recommendations
  else
    try_catch
      (retries <- gets maxRetries;;
       response <- fetchWithRetry url_recommendations retries;;
       data <- settle (json response);;
       match recommendations data with
       | Arr entries =>
           setCache key_recommendations entries;;
           ret (Some entries)
       | _ => throw (mkError msg_recommendations_invalid)
       end)
      (fun error =>
         console_error (ErrorLoadRecommendations error);;
         cached <- gets cache_recommendations;;
         match data cached with
         | Some stale =>
             console_warn WarnStaleCache;;
             ret (Some stale)
         | None =>
             throw (mkError (msg_recommendations_failed ++ message error))
         end).

(** [data.performance && data.performance.cacheDuration]: the number when it
    is truthy. *)
Definition cacheDuration_override (d : ParsedData) : option Z :=
  match performance d with
  | Some p =>
      match perf_cacheDuration p with
      | Some n => if n =? 0 then None else Some n
      | None => None
      end
  | None => None
  end.

Definition loadConfig : M State (option ParsedData) :=
  valid <- isCacheValid key_config;;
  if valid then getCache key_config
  else
    try_catch
      (retries <- gets maxRetries;;
       response <- fetchWithRetry url_config retries;;
       data <- settle (json response);;
       match site data, contentTypes data, ageRatings data with
       | Some _, Some _, Some _ =>
           match cacheDuration_override data with
           | Some n => modify (with_cacheDuration n)
           | None => ret tt
           end;;
           setCache key_config data;;
           ret (Some data)
       | _, _, _ => throw (mkError msg_config_invalid)
       end)
      (fun error =>
         console_error (ErrorLoadConfig error);;
         cached <- gets cache_config;;
         match data cached with
         | Some stale =>
             console_warn WarnStaleCache;;
             ret (Some stale)
         | None => throw (mkError (msg_config_failed ++ message error))
         end).

(** Calling an array method on [null] throws a TypeError. *)
Definition type_error_null : Error :=
  mkError (js "Cannot read properties of null").

Definition non_null {A} (v : option A) : M State A :=
  match v with
  | Some a => ret a
  | None => throw type_error_null
  end.

Definition annotate (item : ContentItem) (rec : RecommendationEntry)
  : RecommendedItem :=
  {| rec_item := item;
     recommendationReason := reason rec;
     recommendationPriority := priority rec |}.

(** The [map], [filter] and [sort] of [getRecommendedContent]. *)
Definition join_recommendations (recommendations : list RecommendationEntry)
  (content : list ContentItem) : list RecommendedItem :=
  JS.sort (fun a b => recommendationPriority a - recommendationPriority b)
    (omap (fun o => o)
       (map (fun rec =>
               match JS.find (fun c => str_eqb (item_id c) (contentId rec))
                       content with
               | Some item => Some (annotate item rec)
               | None => None
               end)
            recommendations)).

Definition getRecommendedContent : M State (list RecommendedItem) :=
  try_catch
    (recommendations <- loadRecommendations;;
     content <- loadContent;;
     recommendations <- non_null recommendations;;
     match recommendations, content with
     | _ :: _, None => throw type_error_null
     | _, Some content => ret (join_recommendations recommendations content)
     | [], None => ret []
     end)
    (fun error =>
       console_error (ErrorRecommended error);;
       throw error).

Definition getContentById (id : jsstring) : M State (option ContentItem) :=
  match id with
  | [] => throw (mkError msg_id_empty)
  | _ =>
      try_catch
        (content <- loadContent;;
         content <- non_null content;;
         ret (JS.find (fun item => str_eqb (item_id item) id) content))
        (fun error =>
           console_error (ErrorGetContent id error);;
           throw error)
  end.

Definition getContentByType (type : jsstring) : M State (list ContentItem) :=
  match type with
  | [] => throw (mkError msg_type_empty)
  | _ =>
      try_catch
        (content <- loadContent;;
         content <- non_null content;;
         ret (List.filter (fun item => str_eqb (item_type item) type) content))
        (fun error =>
           console_error (ErrorGetByType type error);;
           throw error)
  end.

Definition clearCache : M State unit :=
  modify (fun st =>
    with_cache_content (mkSlot None None)
      (with_cache_config (mkSlot None None)
         (with_cache_recommendations (mkSlot None None) st))).

Definition clearCacheByKey {A} (key : Key A) : M State unit :=
  modify (set_slot key (mkSlot None None)).

End DataLoader.

(** ** js/searchEngine.js *)

Module SearchEngine.
Import JS Data.

Record SearchEngine := { data : list ContentItem }.

Definition constructor : SearchEngine := {| data := [] |}.

(** [this.data = contentArray || []]; [None] is [null] or [undefined]. *)
Definition setData (contentArray : option (list ContentItem))
  (self : SearchEngine) : SearchEngine :=
  {| data := match contentArray with Some a => a | None => [] end |}.

(** [{ item, score }] *)
Record Scored := { item : ContentItem; score : Z }.

Definition or_empty (s : option jsstring) : jsstring :=
  match s with Some s => s | None => [] end.

Section Search.

(** [String.prototype.toLowerCase], which depends on the Unicode tables. *)
Variable toLowerCase : jsstring → jsstring.

(** The score the inner [forEach] accumulates for one item. *)
Definition score_of (keywords : list jsstring) (it : ContentItem) : Z :=
  let title := toLowerCase (or_empty (item_title it)) in
  let description := toLowerCase (or_empty (item_description it)) in
  fold_left
    (fun score kw =>
       let score := if includes title kw then score + 2 else score in
       if includes description kw then score + 1 else score)
    keywords 0.

Definition keywords_of (keyword : jsstring) : list jsstring :=
  List.filter (fun kw => negb (str_eqb kw []))
    (split_ws (trim (toLowerCase keyword))).

Definition search (self : SearchEngine) (keyword : option jsstring)
  : list ContentItem :=
  match keyword with
  | None => []
  | Some keyword =>
      if str_eqb keyword [] || str_eqb (trim keyword) [] then []
      else
        let keywords := keywords_of keyword in
        if (length keywords =? 0)%nat then []
        else
          let results :=
            fold_left
              (fun results it =>
                 let score := score_of keywords it in
                 if 0 <? score
                 then results ++ [{| item := it; score := score |}]
                 else results)
              (data self) [] in
          map item (JS.sort (fun a b => score b - score a) results)
  end.

End Search.

(** [toLowerCase] on text whose only cased letters are ASCII. *)
Definition ascii_toLowerCase (s : jsstring) : jsstring :=
  map (fun c => if (65 <=? c) && (c <=? 90) then c + 32 else c)%N s.

End SearchEngine.

(** ** highlight and _escapeRegex of js/searchEngine.js *)

Module Highlight.
Import JS.

(** The characters of the class [[.*+?^${}()|[\]\\]]. *)
Definition is_regex_special (c : N) : bool :=
  existsb (N.eqb c) (js ".*+?^${}()|[]\").

(** [str.replace(/[.*+?^${}()|[\]\\]/g, match => '\\' + match)] *)
Definition _escapeRegex (str : jsstring) : jsstring :=
  flat_map (fun c => if is_regex_special c then [92%N; c] else [c]) str.

(** The body of a regex source up to its closing parenthesis, when it is
    made of pattern characters, which stand for themselves, and of syntax
    characters after a backslash (identity escapes): the text it matches.
    A syntax character that is not escaped, or a backslash before another
    character, leaves the fragment. *)
Fixpoint parse_literal (s : jsstring) : option jsstring :=
  match s with
  | [] => None
  | c :: s' =>
      if N.eqb c 41 then match s' with [] => Some [] | _ => None end
      else if N.eqb c 92 then
        match s' with
        | c2 :: s'' =>
            if is_syntax_char c2
            then option_map (cons c2) (parse_literal s'')
            else None
        | [] => None
        end
      else if is_syntax_char c then None
      else option_map (cons c) (parse_literal s')
  end.

(** [new RegExp(source, 'gi')] for a source that is one group around a
    literal text; [None] for any other source. *)
Definition RegExp_group (source : jsstring) : option jsstring :=
  match source with
  | 40%N :: s => parse_literal s
  | _ => None
  end.

Definition mark_open : jsstring := js "<mark>".
Definition mark_close : jsstring := js "</mark>".

Section Replace.

(** [Canonicalize] of the regex semantics under the flag [i], which depends
    on the Unicode tables. *)
Variable canonicalize : N → N.

(** The literal matches at the start of [s], case-insensitively. *)
Fixpoint matches_at (lit s : jsstring) : bool :=
  match lit, s with
  | [], _ => true
  | x :: lit', y :: s' =>
      N.eqb (canonicalize x) (canonicalize y) && matches_at lit' s'
  | _ :: _, [] => false
  end.

(** [s.replace(regex, '<mark>$1</mark>')] for the global regex of a
    non-empty literal: the matches are taken from left to right and do not
    overlap; [skip] counts the code units of the last match still to pass. *)
Fixpoint replace_from (lit s : jsstring) (skip : nat) : jsstring :=
  match s with
  | [] => []
  | c :: s' =>
      match skip with
      | S k => replace_from lit s' k
      | O =>
          if matches_at lit s
          then mark_open ++ firstn (length lit) s ++ mark_close
               ++ replace_from lit s' (length lit - 1)
          else c :: replace_from lit s' 0
      end
  end.

(** The empty literal matches before every code unit and at the end. *)
Definition replace_all (lit s : jsstring) : jsstring :=
  match lit with
  | [] =>
      mark_open ++ mark_close
      ++ flat_map (fun c => c :: mark_open ++ mark_close) s
  | _ => replace_from lit s 0
  end.

(** The terms of [highlight]: [keyword.split(/\s+/)] without the blank
    pieces. *)
Definition terms_of (keyword : jsstring) : list jsstring :=
  List.filter (fun kw => negb (str_eqb (trim kw) [])) (split_ws keyword).

(** [None] would be a regex source outside the fragment of
    [RegExp_group]. *)
Definition highlight (text keyword : jsstring) : option jsstring :=
  match keyword, text with
  | [], _ => Some text
  | _, [] => Some text
  | _, _ =>
      fold_left
        (fun result kw =>
           match result with
           | Some result =>
               match RegExp_group (js "(" ++ _escapeRegex kw ++ js ")") with
               | Some lit => Some (replace_all lit result)
               | None => None
               end
           | None => None
           end)
        (terms_of keyword) (Some text)
  end.

End Replace.

(** [Canonicalize] on text whose only cased letters are ASCII. *)
Definition ascii_canonicalize (c : N) : N :=
  (if (97 <=? c) && (c <=? 122) then c - 32 else c)%N.

End Highlight.

(** ** parseQueryString of js/utils.js *)

Module Utils.
Import JS.

Definition or_empty (s : option jsstring) : jsstring :=
  match s with Some s => s | None => [] end.

(** [location_href] is [window.location.href], used when [url] is empty. *)
Definition parseQueryString (location_href : jsstring) (url : jsstring)
  : Obj :=
  let url := match url with [] => location_href | _ => url end in
  let queryString :=
    if includes url (js "?") then or_empty (split_on 63 url !! 1%nat)
    else url in
  let cleanQueryString := or_empty (head (split_on 35 queryString)) in
  match cleanQueryString with
  | [] => ∅
  | _ =>
      fold_left
        (fun (params : Obj) param =>
           let parts := split_on 61 param in
           let key := or_empty (head parts) in
           let value := or_empty (parts !! 1%nat) in
           match key with
           | [] => params
           | _ =>
               match decodeURIComponent key, decodeURIComponent value with
               | Some k, Some v => obj_set k v params
               | _, _ => obj_set key value params
               end
           end)
        (split_on 38 cleanQueryString) ∅
  end.

End Utils.

(** ** js/router.js *)

Module Router.
Import JS Eff.
Local Open Scope eff_scope.

(** *** The regular expressions [register] builds

    [register] hands [new RegExp] a source made of literal characters,
    escaped slashes and capture groups [([^\/]+)] between [^] and [$]; the
    matcher covers exactly this fragment. *)

Inductive Atom :=
| AChar (c : N)
| AGroup.

Abbreviation Regex := (list Atom).

(** The source text [([^\/]+)] of a capture group. *)
Definition group_src : jsstring := js "([^\/]+)".

(** The atoms of a source after its [^], up to the final [$]; [skip] counts
    the code units of an atom that are still to be passed over. *)
Fixpoint parse_atoms (s : jsstring) (skip : nat) : option Regex :=
  match s with
  | [] => None
  | c :: s' =>
      match skip with
      | S k => parse_atoms s' k
      | O =>
          if N.eqb c 36 then match s' with [] => Some [] | _ => None end
          else if starts_with group_src s
          then option_map (cons AGroup) (parse_atoms s' 7)
          else if N.eqb c 92 then
            match s' with
            | 47%N :: _ => option_map (cons (AChar 47)) (parse_atoms s' 1)
            | _ => None
            end
          else if is_syntax_char c then None
          else option_map (cons (AChar c)) (parse_atoms s' 0)
      end
  end.

(** [new RegExp(source)]; [None] when the source leaves the fragment. *)
Definition RegExp (source : jsstring) : option Regex :=
  match source with
  | 94%N :: s => parse_atoms s 0
  | _ => None
  end.

(** [s.match(regex)] for an anchored regex: the captured groups, the
    leftmost group taking as much as the rest of the match allows. *)
Fixpoint regex_match (r : Regex) : jsstring → option (list jsstring) :=
  match r with
  | [] => fun s => match s with [] => Some [] | _ => None end
  | AChar c :: r' =>
      fun s =>
        match s with
        | c' :: s' => if N.eqb c c' then regex_match r' s' else None
        | [] => None
        end
  | AGroup :: r' =>
      fix capture (s : jsstring) : option (list jsstring) :=
        match s with
        | [] => None
        | c :: s' =>
            if N.eqb c 47 then None
            else
              match capture s' with
              | Some (g :: gs) => Some ((c :: g) :: gs)
              | _ =>
                  match regex_match r' s' with
                  | Some gs => Some ([c] :: gs)
                  | None => None
                  end
              end
        end
  end.

(** [\w] *)
Definition is_word (c : N) : bool :=
  ((48 <=? c) && (c <=? 57) || (65 <=? c) && (c <=? 90)
   || (97 <=? c) && (c <=? 122) || (c =? 95))%N.

(** [.replace(/\//g, '\\/')] *)
Definition escape_slashes (pattern : jsstring) : jsstring :=
  flat_map (fun c => if N.eqb c 47 then [92; 47]%N else [c]) pattern.

(** [.replace(/:(\w+)/g, ...)]: the rewritten text and the names pushed to
    [paramNames]. [name] is [Some n] after a colon, [n] being the word
    characters read since (reversed). *)
Definition flush_name (name : option jsstring) : jsstring * list jsstring :=
  match name with
  | None => ([], [])
  | Some [] => ([58%N], [])
  | Some n => (group_src, [rev n])
  end.

Fixpoint replace_params (s : jsstring) (name : option jsstring)
  : jsstring * list jsstring :=
  match s with
  | [] => flush_name name
  | c :: s' =>
      match name with
      | Some n =>
          if is_word c then replace_params s' (Some (c :: n))
          else
            let '(out1, names1) := flush_name name in
            let '(out2, names2) :=
              if N.eqb c 58 then replace_params s' (Some [])
              else let '(o, ns) := replace_params s' None in (c :: o, ns) in
            (out1 ++ out2, names1 ++ names2)
      | None =>
          if N.eqb c 58 then replace_params s' (Some [])
          else let '(o, ns) := replace_params s' None in (c :: o, ns)
      end
  end.

(** *** The document

    What [handle404] uses of the DOM: [document.querySelector('main')],
    [document.body] and the setter of [innerHTML]; [None] is [null]. *)
Class Dom (Page : Type) := {
  Element : Type;
  querySelector_main : Page → option Element;
  document_body : Page → option Element;
  set_innerHTML : Element → jsstring → Page → Page
}.

Definition quote : jsstring := [34%N].
Definition newline : jsstring := [10%N].

(** The template literal [handle404] assigns to [innerHTML]. *)
Definition not_found_html : jsstring :=
  newline
  ++ js "        <div style="
  ++ quote
  ++ js "text-align: center; padding: 60px 20px;"
  ++ quote
  ++ js ">"
  ++ newline
  ++ js "          <h1 style="
  ++ quote
  ++ js "font-size: 72px; margin: 0; color: #ccc;"
  ++ quote
  ++ js ">404</h1>"
  ++ newline
  ++ js "          <p style="
  ++ quote
  ++ js "font-size: 18px; color: #666; margin: 20px 0;"
  ++ quote
  ++ js ">"
  ++ [39029; 38754; 26410; 25214; 21040]%N
  ++ js "</p>"
  ++ newline
  ++ js "          <a href="
  ++ quote
  ++ js "/"
  ++ quote
  ++ js " style="
  ++ quote
  ++ js "color: #2196F3; text-decoration: none;"
  ++ quote
  ++ js ">"
  ++ [36820; 22238; 39318; 39029]%N
  ++ js "</a>"
  ++ newline
  ++ js "        </div>"
  ++ newline
  ++ js "      ".

Section WithPage.

(** What the handlers act on (the document). *)
Variable Page : Type.
Context {dom : Dom Page}.

(** What a handler can read of the global router while it runs. *)
Record View := {
  view_currentParams : Obj;
  view_pathname : jsstring;
  view_href : jsstring
}.

(** A handler is given the parameters, acts on the document and returns
    the error it throws, if any. It does not call back into the router. *)
Definition Handler : Type := Obj → View → Page → Page * option Error.

Record Route := {
  pattern : jsstring;
  regex : Regex;
  paramNames : list jsstring;
  handler : Handler
}.

(** What [handleRoute] writes to the console, and the call of
    [handle404], a method that is meant to be overridden. *)
Inductive Event :=
| WarnNoRoute (path : jsstring)
| ErrorHandler (error : Error)
| Render404.

(** The router instance with the browser around it: [window.location], the
    document and the console. *)
Record State := mkState {
  routes : list Route;
  currentParams : Obj;
  pathname : jsstring;
  href : jsstring;
  page : Page;
  trace : list Event
}.

Definition constructor (pathname href : jsstring) (page : Page) : State :=
  {| routes := []; currentParams := ∅; pathname := pathname; href := href;
     page := page; trace := [] |}.

Definition with_routes (rs : list Route) (st : State) :=
  mkState rs (currentParams st) (pathname st) (href st) (page st) (trace st).

Definition with_currentParams (p : Obj) (st : State) :=
  mkState (routes st) p (pathname st) (href st) (page st) (trace st).

Definition with_page (p : Page) (st : State) :=
  mkState (routes st) (currentParams st) (pathname st) (href st) p (trace st).

Definition with_trace (t : list Event) (st : State) :=
  mkState (routes st) (currentParams st) (pathname st) (href st) (page st) t.

Definition emit (e : Event) : M State unit :=
  modify (fun st => with_trace (trace st ++ [e]) st).

(** [None] when the pattern compiles to a regex outside the fragment. *)
Definition register (pattern : jsstring) (handler : Handler) (st : State)
  : option State :=
  let '(regexPattern, paramNames) :=
    replace_params (escape_slashes pattern) None in
  match RegExp (js "^" ++ regexPattern ++ js "$") with
  | Some regex =>
      Some (with_routes
              (routes st ++
               [{| pattern := pattern; regex := regex;
                   paramNames := paramNames; handler := handler |}])
              st)
  | None => None
  end.

Definition uri_error : Error := mkError (js "URI malformed").

(** The [forEach] over [paramNames]: [params[name] =
    decodeURIComponent(match[index + 1])]; a missing group is [undefined]
    and decodes to that word. *)
Fixpoint bind_params (names : list jsstring) (groups : list jsstring)
  (params : Obj) : M State Obj :=
  match names with
  | [] => ret params
  | name :: names' =>
      let raw := match groups with g :: _ => g | [] => js "undefined" end in
      match decodeURIComponent raw with
      | Some v => bind_params names' (tail groups) (obj_set name v params)
      | None => throw uri_error
      end
  end.

Definition view (st : State) : View :=
  {| view_currentParams := currentParams st;
     view_pathname := pathname st;
     view_href := href st |}.

Definition call_handler (h : Handler) (params : Obj) : M State unit :=
  fun st =>
    match h params (view st) (page st) with
    | (page', None) => (Ok tt, with_page page' st)
    | (page', Some error) => (Throw error, with_page page' st)
    end.

(** [container = document.querySelector('main') || document.body], then
    [container.innerHTML = ...] when there is a container. *)
Definition handle404 : M State unit :=
  emit Render404;;
  doc <- gets page;;
  let container :=
    match querySelector_main doc with
    | Some main => Some main
    | None => document_body doc
    end in
  match container with
  | Some element =>
      modify (fun st =>
        with_page (set_innerHTML element not_found_html (page st)) st)
  | None => ret tt
  end.

(** The [for ... of] over [this.routes], and what follows it. *)
Fixpoint dispatch (rs : list Route) (path : jsstring) : M State unit :=
  match rs with
  | [] =>
      emit (WarnNoRoute path);;
      handle404
  | route :: rest =>
      match regex_match (regex route) path with
      | Some groups =>
          params <- bind_params (paramNames route) groups ∅;;
          modify (with_currentParams params);;
          try_catch
            (call_handler (handler route) params)
            (fun error => emit (ErrorHandler error))
      | None => dispatch rest path
      end
  end.

Definition handleRoute : M State unit :=
  path <- gets pathname;;
  rs <- gets routes;;
  dispatch rs path.

Definition getParams : M State Obj :=
  url <- gets href;;
  ret (Utils.parseQueryString url url).

Definition getPathParams : M State Obj :=
  params <- gets currentParams;;
  ret (spread2 ∅ params).

Definition getAllParams : M State Obj :=
  params <- gets currentParams;;
  query <- getParams;;
  ret (spread2 params query).

Definition getCurrentPath : M State jsstring := gets pathname.

Definition getCurrentUrl : M State jsstring := gets href.

Definition clearRoutes : M State unit :=
  modify (fun st => with_currentParams ∅ (with_routes [] st)).

End WithPage.

Arguments pattern {Page} r.
Arguments regex {Page} r.
Arguments paramNames {Page} r.
Arguments handler {Page} r.
Arguments mkState {Page}.
Arguments routes {Page} s.
Arguments currentParams {Page} s.
Arguments pathname {Page} s.
Arguments href {Page} s.
Arguments page {Page} s.
Arguments trace {Page} s.
Arguments constructor {Page}.
Arguments with_routes {Page}.
Arguments with_currentParams {Page}.
Arguments with_page {Page}.
Arguments with_trace {Page}.
Arguments emit {Page}.
Arguments register {Page}.
Arguments bind_params {Page}.
Arguments view {Page}.
Arguments call_handler {Page}.
Arguments handle404 {Page dom}.
Arguments dispatch {Page dom}.
Arguments handleRoute {Page dom}.
Arguments getParams {Page}.
Arguments getPathParams {Page}.
Arguments getAllParams {Page}.
Arguments getCurrentPath {Page}.
Arguments getCurrentUrl {Page}.
Arguments clearRoutes {Page}.

End Router.

(** ** Vocabulary of the statements *)

Module SearchSpec.
Import JS Data SearchEngine.

(** The words of a string: its maximal runs of code units that are not
    white space, in order, repetitions kept. *)
Fixpoint words_from (s cur : jsstring) : list jsstring :=
  match s with
  | [] => match cur with [] => [] | _ => [rev cur] end
  | c :: s' =>
      if is_space c then
        match cur with
        | [] => words_from s' []
        | _ => rev cur :: words_from s' []
        end
      else words_from s' (c :: cur)
  end.

Definition words (s : jsstring) : list jsstring := words_from s [].

(** [t] occurs in [s] as a contiguous run. *)
Definition substring (t s : jsstring) : Prop := ∃ pre post, s = pre ++ t ++ post.

(** The text of a title or description: the empty string when the item
    has none. *)
Definition field_text (field : option jsstring) : jsstring :=
  match field with
  | Some text => text
  | None => []
  end.

(** What one term adds to the score of an item with the given lower-cased
    title and description. *)
Definition term_score (title description term : jsstring) : Z :=
  (if includes title term then 2 else 0)
  + (if includes description term then 1 else 0).

(** The score of an item: the sum of what the terms add. *)
Definition total_score (toLowerCase : jsstring → jsstring)
  (terms : list jsstring) (it : ContentItem) : Z :=
  foldr Z.add 0
    (map (term_score (toLowerCase (field_text (item_title it)))
            (toLowerCase (field_text (item_description it))))
       terms).

End SearchSpec.

Module LoaderSpec.
Import JS Eff Data DataLoader.

(** An attempt fails when [fetch] rejects or the response is not ok. *)
Definition failed (r : Result Response) : Prop :=
  match r with
  | Throw _ => True
  | Ok response => ok response = false
  end.

(** The error a failed attempt raises inside [fetchWithRetry]. *)
Definition attempt_error (r : Result Response) : Error :=
  match r with
  | Throw e => e
  | Ok response => http_error (status response)
  end.

(** What [retries + 1] failed attempts leave in the trace: the requests one
    after the other, each followed by the warning and the fixed delay when a
    retry remains. *)
Fixpoint retry_trace (url : jsstring) (delay : Z) (retries : nat)
  : list Event :=
  ERequest url ::
  match retries with
  | O => []
  | S retries' =>
      EConsole (WarnRetry delay retries) :: ETimeout delay
      :: retry_trace url delay retries'
  end.

(** The urls requested and the delays waited in a trace. *)
Definition requests (t : list Event) : list jsstring :=
  omap (fun e => match e with ERequest url => Some url | _ => None end) t.

Definition delays (t : list Event) : list Z :=
  omap (fun e => match e with ETimeout ms => Some ms | _ => None end) t.

(** A slot is fresh at [now] under the time-to-live [ttl]. *)
Definition fresh {A} (s : Slot A) (ttl now : Z) : bool :=
  match data s, timestamp s with
  | Some _, Some ts => negb (ts =? 0) && (now - ts <? ttl)
  | _, _ => false
  end.

(** The state after a request, and after the warning and the delay that
    precede a retry. *)
Definition after_request (url : jsstring) (st : State) : State :=
  with_trace (trace st ++ [ERequest url]) (with_fetches (S (fetches st)) st).

Definition after_wait (retries : nat) (st : State) : State :=
  with_trace
    (trace st ++ [EConsole (WarnRetry (retryDelay st) retries);
                  ETimeout (retryDelay st)]) st.

(** What the [catch] of a load does with the error [e], from the slot. *)
Definition recover {A} (key : Key A) (entry : Error → LogEntry)
  (msg : jsstring) (e : Error) (st : State) : Result (option A) * State :=
  match data (get_slot key st) with
  | Some stale =>
      (Ok (Some stale),
       with_trace (trace st ++ [EConsole (entry e); EConsole WarnStaleCache]) st)
  | None =>
      (Throw (mkError (msg ++ message e)),
       with_trace (trace st ++ [EConsole (entry e)]) st)
  end.

(** A key is framed when its slot does not depend on the counters and the
    trace. *)
Definition framed {A} (key : Key A) : Prop :=
  ∀ t n r st,
    get_slot key (with_trace t (with_fetches n (with_reads r st)))
    = get_slot key st.

(** C1 for one load: when the slot is not fresh and [fetchWithRetry] gives
    up with [e], the load returns what the slot holds, with a warning, and
    fails with the wrapped message only when the slot is empty. *)
Definition stale_fallback {A} (load : M State (option A)) (key : Key A)
  (url msg : jsstring) : Prop :=
  ∀ st st0 st1 e,
    isCacheValid key st = (Ok false, st0) →
    fetchWithRetry url (maxRetries st0) st0 = (Throw e, st1) →
    match data (get_slot key st) with
    | Some stale =>
        fst (load st) = Ok (Some stale)
        ∧ last (trace (snd (load st))) = Some (EConsole WarnStaleCache)
    | None => fst (load st) = Throw (mkError (msg ++ message e))
    end.

(** C2 for one load: against a transport that always fails, a load whose
    slot is not fresh makes [maxRetries + 1] requests, one after the other
    with the fixed delay in between, and fails with the wrapped error of the
    last attempt when the slot is empty. *)
Definition retry_bound {A} (load : M State (option A)) (key : Key A)
  (url msg : jsstring) (entry : Error → LogEntry) : Prop :=
  ∀ st,
    (∀ n, failed (transport st n url)) →
    fst (isCacheValid key st) = Ok false →
    let e := attempt_error (transport st (fetches st + maxRetries st)%nat url) in
    let st' := snd (load st) in
    fetches st' = (fetches st + S (maxRetries st))%nat
    ∧ trace st' =
        trace st ++ retry_trace url (retryDelay st) (maxRetries st)
        ++ EConsole (entry e)
           :: match data (get_slot key st) with
              | Some _ => [EConsole WarnStaleCache]
              | None => []
              end
    ∧ (data (get_slot key st) = None →
       fst (load st) = Throw (mkError (msg ++ message e))).

(** A load that finds its slot valid returns it without a request. *)
Definition served_from_cache {A} (load : M State (option A)) (key : Key A)
  : Prop :=
  ∀ st,
    fst (isCacheValid key st) = Ok true →
    fst (load st) = Ok (data (get_slot key st))
    ∧ is_Some (data (get_slot key st))
    ∧ fetches (snd (load st)) = fetches st
    ∧ trace (snd (load st)) = trace st.

End LoaderSpec.

Module RecommendSpec.
Import JS Data DataLoader.

(** [item] is the first item of [content] whose id is [i]. *)
Definition first_with_id (content : list ContentItem) (i : jsstring)
  (item : ContentItem) : Prop :=
  ∃ pre post, content = pre ++ item :: post ∧ item_id item = i
              ∧ ∀ c, c ∈ pre → item_id c ≠ i.

(** [r] is [item] with the reason and the priority of the entry [rec]. *)
Definition annotated (item : ContentItem) (rec : RecommendationEntry)
  (r : RecommendedItem) : Prop :=
  rec_item r = item
  ∧ recommendationReason r = reason rec
  ∧ recommendationPriority r = priority rec.

(** The join of the recommendations with the content, in the order of the
    recommendations: an entry yields the first item that has its
    [contentId], with the reason and the priority of the entry, and is
    dropped when no item has it. *)
Inductive Joined (content : list ContentItem)
  : list RecommendationEntry → list RecommendedItem → Prop :=
| Joined_nil : Joined content [] []
| Joined_match rec recs item r out :
    first_with_id content (contentId rec) item →
    annotated item rec r →
    Joined content recs out →
    Joined content (rec :: recs) (r :: out)
| Joined_drop rec recs out :
    (∀ c, c ∈ content → item_id c ≠ contentId rec) →
    Joined content recs out →
    Joined content (rec :: recs) out.

End RecommendSpec.

Module RouterSpec.
Import JS Eff Router.

Section WithPage.
Context {Page : Type} {dom : Dom Page}.

(** The state after the route has been given [params]: the parameters are
    current, the handler has run and an error it threw is in the console. *)
Definition dispatched (route : Route Page) (params : Obj) (st : State Page)
  : State Page :=
  let st1 := with_currentParams params st in
  match handler route params (view st1) (page st1) with
  | (page', None) => with_page page' st1
  | (page', Some error) =>
      with_trace (trace st1 ++ [ErrorHandler error])
        (with_page page' st1)
  end.

(** The document with the not-found notice written into its first [main]
    element, or into its body when it has no [main]; a document that has
    neither is left as it is. *)
Definition show_not_found (doc : Page) : Page :=
  match querySelector_main doc, document_body doc with
  | Some main, _ => set_innerHTML main not_found_html doc
  | None, Some body => set_innerHTML body not_found_html doc
  | None, None => doc
  end.

(** The state after no route has matched. *)
Definition not_found (st : State Page) : State Page :=
  with_page (show_not_found (page st))
    (with_trace (trace st ++ [WarnNoRoute (pathname st); Render404]) st).

End WithPage.

End RouterSpec.

Module LoaderSpec2.
Import JS Eff Data DataLoader LoaderSpec.

(** What [k] failed attempts followed by a successful one leave in the
    trace, [retries] being the retries left at the first attempt. *)
Fixpoint recovery_trace (url : jsstring) (delay : Z) (retries k : nat)
  : list Event :=
  match k with
  | O => [ERequest url]
  | S k' =>
      ERequest url :: EConsole (WarnRetry delay retries) :: ETimeout delay
      :: recovery_trace url delay (pred retries) k'
  end.

(** The state after [setCache] has stored [d] under [key]. *)
Definition cached {A} (key : Key A) (d : A) (st : State) : State :=
  set_slot key (mkSlot (Some d) (Some (clock st (reads st))))
    (with_reads (S (reads st)) st).

(** A slot holds data exactly when it holds a timestamp. *)
Definition slot_wf {A} (s : Slot A) : Prop :=
  is_Some (data s) ↔ is_Some (timestamp s).

Definition cache_wf (st : State) : Prop :=
  slot_wf (cache_content st) ∧ slot_wf (cache_config st)
  ∧ slot_wf (cache_recommendations st).

End LoaderSpec2.

Module LoaderSpec3.
Import JS Eff Data DataLoader LoaderSpec LoaderSpec2.

(** What the body of a response is to each load: the data to cache, or the
    error of the parse or of the shape check. *)
Definition content_of (body : Result ParsedData)
  : list ContentItem + Error :=
  match body with
  | Throw e => inr e
  | Ok d =>
      match content d with
      | Arr items => inl items
      | _ => inr (mkError msg_content_invalid)
      end
  end.

Definition recommendations_of (body : Result ParsedData)
  : list RecommendationEntry + Error :=
  match body with
  | Throw e => inr e
  | Ok d =>
      match recommendations d with
      | Arr entries => inl entries
      | _ => inr (mkError msg_recommendations_invalid)
      end
  end.

Definition config_of (body : Result ParsedData) : ParsedData + Error :=
  match body with
  | Throw e => inr e
  | Ok d =>
      match site d, contentTypes d, ageRatings d with
      | Some _, Some _, Some _ => inl d
      | _, _, _ => inr (mkError msg_config_invalid)
      end
  end.

(** The state in which [loadConfig] stores a validated configuration. *)
Definition with_override (d : ParsedData) (st : State) : State :=
  match cacheDuration_override d with
  | Some n => with_cacheDuration n st
  | None => st
  end.

End LoaderSpec3.

Module LoaderSpec4.
Import JS Eff Data DataLoader LoaderSpec LoaderSpec2 LoaderSpec3.

(** A load stores the data of a well-formed body and returns it; a later
    load that finds the slot as it was left, within the time-to-live of a
    stamp other than 0, returns the same data without a request. *)
Definition caches_body {A} (load : M State (option A)) (key : Key A)
  (url : jsstring) (body_of : Result ParsedData → A + Error) : Prop :=
  ∀ st st0 st1 response d,
    isCacheValid key st = (Ok false, st0) →
    fetchWithRetry url (maxRetries st0) st0 = (Ok response, st1) →
    body_of (json response) = inl d →
    let stamp := clock st (reads st0) in
    let st' := snd (load st) in
    fst (load st) = Ok (Some d)
    ∧ get_slot key st' = mkSlot (Some d) (Some stamp)
    ∧ fetches st' = fetches st1
    ∧ trace st' = trace st1
    ∧ cacheDuration st' = cacheDuration st
    ∧ ∀ st2,
        get_slot key st2 = get_slot key st' →
        stamp ≠ 0 →
        clock st2 (reads st2) - stamp < cacheDuration st2 →
        fst (load st2) = Ok (Some d)
        ∧ fetches (snd (load st2)) = fetches st2
        ∧ trace (snd (load st2)) = trace st2.

(** A response whose body does not parse or has the wrong shape is handled
    by the [catch] of the load like a failed fetch, and is not requested
    again. *)
Definition rejects_body {A} (load : M State (option A)) (key : Key A)
  (url : jsstring) (body_of : Result ParsedData → A + Error)
  (entry : Error → LogEntry) (msg : jsstring) : Prop :=
  ∀ st st0 st1 response e,
    isCacheValid key st = (Ok false, st0) →
    fetchWithRetry url (maxRetries st0) st0 = (Ok response, st1) →
    body_of (json response) = inr e →
    fetches (snd (load st)) = fetches st1
    ∧ match data (get_slot key st) with
      | Some stale => fst (load st) = Ok (Some stale)
      | None => fst (load st) = Throw (mkError (msg ++ message e))
      end.

(** A key reads back the slot it sets and leaves the rest of the state. *)
Definition lawful {A} (key : Key A) : Prop :=
  ∀ s st,
    get_slot key (set_slot key s st) = s
    ∧ fetches (set_slot key s st) = fetches st
    ∧ trace (set_slot key s st) = trace st
    ∧ cacheDuration (set_slot key s st) = cacheDuration st
    ∧ reads (set_slot key s st) = reads st
    ∧ clock (set_slot key s st) = clock st.

End LoaderSpec4.

Module RouterSpec2.
Import JS Eff Router.

(** The path a regex describes once its groups are given. *)
Fixpoint fill (r : Regex) (groups : list jsstring) : jsstring :=
  match r with
  | [] => []
  | AChar c :: r' => c :: fill r' groups
  | AGroup :: r' =>
      match groups with
      | g :: gs => g ++ fill r' gs
      | [] => fill r' []
      end
  end.

Fixpoint count_groups (r : Regex) : nat :=
  match r with
  | [] => O
  | AChar _ :: r' => count_groups r'
  | AGroup :: r' => S (count_groups r')
  end.

(** What [[^\/]+] accepts: at least one code unit, none of them a slash. *)
Definition segment (g : jsstring) : Prop := g ≠ [] ∧ Forall (fun c => c ≠ 47%N) g.

End RouterSpec2.

Module PatternSpec.
Import JS Eff Router.

(** A route pattern read as a sequence of literal code units and named
    parameters. *)
Inductive Token :=
| TLit (c : N)
| TParam (name : jsstring).

(** The text of the pattern. *)
Definition render (toks : list Token) : jsstring :=
  flat_map (fun t => match t with TLit c => [c] | TParam n => 58%N :: n end)
    toks.

Definition atom_of (t : Token) : Atom :=
  match t with TLit c => AChar c | TParam _ => AGroup end.

Definition names_of (toks : list Token) : list jsstring :=
  flat_map (fun t => match t with TLit _ => [] | TParam n => [n] end) toks.

(** The patterns the model of [RegExp] covers: a literal is neither a colon
    nor a character of the regex syntax, a name is a non-empty run of word
    characters, and the literal after a name is not a word character. *)
Fixpoint well_formed (toks : list Token) : Prop :=
  match toks with
  | [] => True
  | TLit c :: rest =>
      is_syntax_char c = false ∧ c ≠ 58%N ∧ well_formed rest
  | TParam n :: rest =>
      n ≠ [] ∧ Forall (fun c => is_word c = true) n
      ∧ match rest with
        | TLit c :: _ => is_word c = false
        | _ => True
        end
      ∧ well_formed rest
  end.

(** The pattern after [escape_slashes], and the source after
    [replace_params]. *)
Definition escaped (toks : list Token) : jsstring :=
  flat_map (fun t => match t with
                     | TLit c => if N.eqb c 47 then [92; 47]%N else [c]
                     | TParam n => 58%N :: n
                     end) toks.

Definition source (toks : list Token) : jsstring :=
  flat_map (fun t => match t with
                     | TLit c => if N.eqb c 47 then [92; 47]%N else [c]
                     | TParam n => group_src
                     end) toks.

End PatternSpec.

Module RouterSpec3.
Import JS Eff Router.

(** The parameters [handleRoute] binds, or [None] when a group cannot be
    decoded. *)
Fixpoint bound (names groups : list jsstring) (params : Obj) : option Obj :=
  match names with
  | [] => Some params
  | name :: names' =>
      match decodeURIComponent
              (match groups with g :: _ => g | [] => js "undefined" end) with
      | Some v => bound names' (tail groups) (obj_set name v params)
      | None => None
      end
  end.

(** A route matches the path. *)
Definition matches {Page} (path : jsstring) (r : Route Page) : Prop :=
  is_Some (regex_match (regex r) path).

End RouterSpec3.

Module QuerySpec.
Import JS Utils.

(** A parameter as it is written in a query string: [key=value], or the
    key alone. *)
Definition param_text (kv : jsstring * option jsstring) : jsstring :=
  match kv.2 with
  | Some v => kv.1 ++ 61%N :: v
  | None => kv.1
  end.

(** The parameters joined with [&]. *)
Fixpoint query_text (pairs : list (jsstring * option jsstring)) : jsstring :=
  match pairs with
  | [] => []
  | [kv] => param_text kv
  | kv :: rest => param_text kv ++ 38%N :: query_text rest
  end.

(** None of [# & = ?]. *)
Definition clean (s : jsstring) : Prop :=
  Forall (fun c => c ≠ 35%N ∧ c ≠ 38%N ∧ c ≠ 61%N ∧ c ≠ 63%N) s.

Definition well_formed_param (kv : jsstring * option jsstring) : Prop :=
  kv.1 ≠ [] ∧ clean kv.1 ∧ clean (or_empty kv.2).

(** What [parseQueryString] stores for one parameter: the decoded key and
    value, or both as written when one of them does not decode. *)
Definition store (params : Obj) (kv : jsstring * option jsstring) : Obj :=
  match decodeURIComponent kv.1, decodeURIComponent (or_empty kv.2) with
  | Some k, Some v => obj_set k v params
  | _, _ => obj_set kv.1 (or_empty kv.2) params
  end.

(** Nothing, or [#] and any text. *)
Definition fragment (f : jsstring) : Prop :=
  f = [] ∨ ∃ f', f = 35%N :: f'.

End QuerySpec.

Module HighlightSpec.
Import JS Highlight.

(** [r] is [text] with the occurrences of [lit] wrapped in marks, taken
    from left to right without overlap. *)
Inductive Marked (canonicalize : N → N) (lit : jsstring)
  : jsstring → jsstring → Prop :=
| Marked_nil : Marked canonicalize lit [] []
| Marked_skip c text r :
    matches_at canonicalize lit (c :: text) = false →
    Marked canonicalize lit text r →
    Marked canonicalize lit (c :: text) (c :: r)
| Marked_wrap m text r :
    m ≠ [] → length m = length lit →
    map canonicalize m = map canonicalize lit →
    Marked canonicalize lit text r →
    Marked canonicalize lit (m ++ text) (mark_open ++ m ++ mark_close ++ r).

(** No term occurs in the text. *)
Definition absent (canonicalize : N → N) (lit text : jsstring) : Prop :=
  ∀ i, matches_at canonicalize lit (drop i text) = false.

End HighlightSpec.

(** ** Concrete routers, loaders and engines *)

Module RouterExamples.
Import JS Eff Router.


(** A document seen through the markup inside its first [main] element
    and inside its body around that element, with the calls the handlers
    have received. *)
Record Screen := {
  main_html : option jsstring;
  body_html : option jsstring;
  calls : list (Obj * View)
}.

Inductive Container := in_main | in_body.

#[export] Instance screen_dom : Dom Screen := {|
  Element := Container;
  querySelector_main s :=
    match main_html s with Some _ => Some in_main | None => None end;
  document_body s :=
    match body_html s with Some _ => Some in_body | None => None end;
  set_innerHTML element html s :=
    match element with
    | in_main =>
        {| main_html := Some html; body_html := body_html s;
           calls := calls s |}
    | in_body =>
        {| main_html := None; body_html := Some html; calls := calls s |}
    end
|}.

(** A page whose body holds an empty [main]. *)
Definition blank : Screen :=
  {| main_html := Some []; body_html := Some []; calls := [] |}.

(** A page without [main]. *)
Definition plain : Screen :=
  {| main_html := None; body_html := Some (js "<p>hello</p>"); calls := [] |}.

Definition called (params : Obj) (v : View) (s : Screen) : Screen :=
  {| main_html := main_html s; body_html := body_html s;
     calls := calls s ++ [(params, v)] |}.

(** A handler that records what it is called with. *)
Definition recording : Handler Screen :=
  fun params v s => (called params v s, None).

(** A handler that throws. *)
Definition broken : Handler Screen :=
  fun params v s => (called params v s, Some (mkError (js "view is broken"))).

End RouterExamples.

Module Examples.
Import JS Eff Data DataLoader.

Definition little_prince : ContentItem :=
  {| item_id := js "a"; item_type := js "book";
     item_title := Some (js "Little Prince");
     item_description := Some (js "a story about a prince");
     item_rest := [] |}.

Definition blue_planet : ContentItem :=
  {| item_id := js "b"; item_type := js "documentary";
     item_title := Some (js "Blue Planet");
     item_description := Some (js "the story of the oceans");
     item_rest := [] |}.

Definition catalog : list ContentItem := [little_prince; blue_planet].

Definition picks : list RecommendationEntry :=
  [ {| contentId := js "a"; priority := 2; reason := Some (js "classic") |};
    {| contentId := js "missing"; priority := 1; reason := None |};
    {| contentId := js "b"; priority := 0; reason := None |} ].

(** A configuration whose [performance.cacheDuration] is [d]. *)
Definition config_with (d : Z) : ParsedData :=
  {| content := Falsy; recommendations := Falsy;
     site := Some (opaque 1); contentTypes := Some (opaque 2);
     ageRatings := Some (opaque 3);
     performance := Some {| perf_cacheDuration := Some d |} |}.

Definition body_of (url : jsstring) (d : Z) : ParsedData :=
  if str_eqb url url_content then
    {| content := Arr catalog; recommendations := Falsy; site := None;
       contentTypes := None; ageRatings := None; performance := None |}
  else if str_eqb url url_recommendations then
    {| content := Falsy; recommendations := Arr picks; site := None;
       contentTypes := None; ageRatings := None; performance := None |}
  else config_with d.

(** A server that answers every request; its configuration carries the
    cache duration [d]. *)
Definition server (d : Z) : nat → jsstring → Result Response :=
  fun _ url => Ok {| ok := true; status := 200; json := Ok (body_of url d) |}.

Definition network_down : nat → jsstring → Result Response :=
  fun _ _ => Throw (mkError (js "Failed to fetch")).

(** A server that answers the first request only. *)
Definition server_then_down : nat → jsstring → Result Response :=
  fun n url => match n with O => server 60000 n url | S _ => network_down n url end.

(** A clock that advances by one hour between two readings. *)
Definition hourly (start : Z) : nat → Z :=
  fun n => start + 3600000 * Z.of_nat n.

(** A loader whose content slot was stamped one hour ago, to the
    millisecond, with the network down. *)
Definition stale_loader : State :=
  with_cache_content (mkSlot (Some catalog) (Some 1000))
    (constructor network_down (fun _ => 3601000)).

(** The same slot one millisecond earlier. *)
Definition fresh_loader : State :=
  with_cache_content (mkSlot (Some catalog) (Some 1000))
    (constructor network_down (fun _ => 3600999)).

End Examples.

Module SearchExamples.
Import JS Data SearchEngine Examples.

Definition library : SearchEngine := setData (Some catalog) constructor.

(** An item without description. *)
Definition moon_atlas : ContentItem :=
  {| item_id := js "c"; item_type := js "book";
     item_title := Some (js "Moon Atlas");
     item_description := None;
     item_rest := [] |}.

Definition atlas_library : SearchEngine :=
  setData (Some [moon_atlas; blue_planet; little_prince]) constructor.

End SearchExamples.

Module RouterExamples2.
Import JS Eff Router RouterExamples.

(** The route [/category/:type] with a recording handler. *)
Definition category_route (h : Handler Screen)
  : Route Screen :=
  {| pattern := js "/category/:type";
     regex := map AChar (js "/category/") ++ [AGroup];
     paramNames := [js "type"];
     handler := h |}.

(** The route [/:section/:type], which also matches [/category/books]. *)
Definition generic_route : Route Screen :=
  {| pattern := js "/:section/:type";
     regex := [AChar 47; AGroup; AChar 47; AGroup];
     paramNames := [js "section"; js "type"];
     handler := recording |}.

(** A router at [/category/books?type=films] with the two routes, the
    specific one registered first. *)
Definition two_routes (h : Handler Screen)
  : State Screen :=
  with_routes [category_route h; generic_route]
    (constructor (js "/category/books")
       (js "http://example.org/category/books?type=films") blank).

End RouterExamples2.

Module Examples2.
Import JS Eff Data DataLoader Examples.

(** A server that fails twice, with a rejected fetch and with a 503, before
    it answers. *)
Definition flaky_server : nat → jsstring → Result Response :=
  fun n url =>
    match n with
    | 0%nat => Throw (mkError (js "Failed to fetch"))
    | 1%nat => Ok {| ok := false; status := 503; json := Throw (mkError (js "no body")) |}
    | _ => server 60000 n url
    end.

(** A server whose bodies lack what the loads expect. *)
Definition empty_body : ParsedData :=
  {| content := Falsy; recommendations := NotArray; site := Some (opaque 1);
     contentTypes := None; ageRatings := Some (opaque 3);
     performance := None |}.

Definition wrong_server : nat → jsstring → Result Response :=
  fun _ _ => Ok {| ok := true; status := 200; json := Ok empty_body |}.

(** A loader whose configuration slot is valid, with the network down. *)
Definition configured_loader : State :=
  with_cache_config (mkSlot (Some (config_with 60000)) (Some 1000))
    (constructor network_down (fun _ => 2000)).

(** A clock that reads 0 first. *)
Definition epoch_clock : nat → Z := fun n => 1000 * Z.of_nat n.

(** A clock that advances by one second between two readings. *)
Definition every_second : nat → Z := fun n => 1000 * (1 + Z.of_nat n).

End Examples2.

Module RouterExamples3.
Import JS Eff Router RouterExamples RouterExamples2 PatternSpec.

(** [/detail/:id] as tokens. *)
Definition detail_tokens : list Token :=
  map TLit (js "/detail/") ++ [TParam (js "id")].

(** The router of two routes at a path whose parameter is not a valid
    percent-encoding. *)
Definition at_bad_escape : State Screen :=
  with_routes [category_route recording; generic_route]
    (constructor (js "/category/100%")
       (js "http://example.org/category/100%") blank).

(** The same router at a path that no route matches. *)
Definition at_unknown : State Screen :=
  with_currentParams {[ js "type" := js "books" ]}
    (with_routes [category_route recording; generic_route]
       (constructor (js "/about") (js "http://example.org/about") blank)).

End RouterExamples3.

(** * Properties *)

(** ** Array.prototype.sort with a comparator that subtracts two keys *)

Section SortByKey.
Context {A : Type} (key : A → Z) (cmp : A → A → Z).
Hypothesis cmp_key : ∀ a b, cmp a b = key a - key b.

Lemma sort_insert_perm x l : Permutation (JS.sort_insert cmp x l) (x :: l).
Proof.
  induction l as [|y l IH]; simpl; [done|].
  destruct (cmp x y <=? 0); [done|].
  rewrite IH. apply perm_swap.
Qed.

Lemma sort_perm l : Permutation (JS.sort cmp l) l.
Proof.
  induction l as [|x l IH]; simpl; [done|].
  rewrite sort_insert_perm. by rewrite IH.
Qed.

Lemma sort_insert_sorted x l :
  StronglySorted (fun a b => key a <= key b) l →
  StronglySorted (fun a b => key a <= key b) (JS.sort_insert cmp x l).
Proof.
  induction 1 as [|y l Hs IH Hy]; simpl.
  - repeat constructor.
  - rewrite cmp_key. destruct (Z.leb_spec (key x - key y) 0) as [Hle|Hgt].
    + constructor; [by constructor|].
      constructor; [lia|].
      eapply Forall_impl; [exact Hy|]. simpl. intros; lia.
    + constructor; [exact IH|].
      rewrite (sort_insert_perm x l). constructor; [lia | exact Hy].
Qed.

Lemma sort_sorted l :
  StronglySorted (fun a b => key a <= key b) (JS.sort cmp l).
Proof.
  induction l as [|x l IH]; simpl; [constructor|].
  by apply sort_insert_sorted.
Qed.

(** Stability: elements of equal key keep their relative order. *)
Lemma sort_insert_stable k x l :
  List.filter (fun a => key a =? k) (JS.sort_insert cmp x l)
  = List.filter (fun a => key a =? k) (x :: l).
Proof.
  induction l as [|y l IH]; [done|].
  cbn [JS.sort_insert]. rewrite cmp_key.
  destruct (Z.leb_spec (key x - key y) 0) as [Hle|Hgt]; [done|].
  cbn [List.filter] in *. rewrite IH.
  destruct (Z.eqb_spec (key y) k), (Z.eqb_spec (key x) k); try done; lia.
Qed.

Lemma sort_stable k l :
  List.filter (fun a => key a =? k) (JS.sort cmp l)
  = List.filter (fun a => key a =? k) l.
Proof.
  induction l as [|x l IH]; [done|].
  cbn [JS.sort]. rewrite sort_insert_stable.
  cbn [List.filter]. by rewrite IH.
Qed.

End SortByKey.

(** ** The search engine *)

Section SearchProofs.
Import JS Data SearchEngine SearchSpec.
Variable toLowerCase : jsstring → jsstring.

Lemma str_eqb_eq a b : str_eqb a b = true ↔ a = b.
Proof.
  revert b; induction a as [|x a IH]; intros [|y b]; simpl; try done.
  rewrite andb_true_iff, N.eqb_eq, IH. split; [intros [-> ->] | intros [=]]; auto.
Qed.

Lemma str_eqb_nil a : str_eqb a [] = match a with [] => true | _ => false end.
Proof. by destruct a. Qed.

Lemma starts_with_spec p s : starts_with p s = true ↔ ∃ post, s = p ++ post.
Proof.
  revert s; induction p as [|x p IH]; intros s; simpl.
  - split; eauto.
  - destruct s as [|y s].
    + split; [done | intros [? [=]]].
    + rewrite andb_true_iff, N.eqb_eq, IH. split.
      * intros [-> [post ->]]. eauto.
      * intros [post [= -> ->]]. eauto.
Qed.

Lemma includes_substring s t : includes s t = true ↔ substring t s.
Proof.
  induction s as [|c s IH].
  - simpl. rewrite orb_false_r, starts_with_spec. split.
    + intros [post ->]. by exists [], post.
    + intros (pre & post & H). destruct pre; [by exists post|done].
  - cbn [includes]. rewrite orb_true_iff, starts_with_spec, IH. split.
    + intros [[post ->] | (pre & post & ->)].
      * by exists [], post.
      * by exists (c :: pre), post.
    + intros (pre & post & H). destruct pre as [|x pre].
      * left. by exists post.
      * right. injection H as -> ->. by exists pre, post.
Qed.

Lemma split_ws_words s cur insp :
  (insp = true → cur = []) →
  List.filter (fun kw => negb (str_eqb kw [])) (split_ws_from s cur insp)
  = words_from s cur.
Proof.
  revert cur insp; induction s as [|c s IH]; intros cur insp Hinv; simpl.
  - rewrite str_eqb_nil. destruct cur as [|x cur]; [done|].
    simpl. by destruct (rev cur ++ [x]) eqn:E; [destruct (rev cur)|].
  - destruct (is_space c).
    + destruct insp.
      * rewrite Hinv by done. by apply IH.
      * simpl. rewrite str_eqb_nil, IH by done.
        destruct cur as [|x cur]; [done|].
        simpl. by destruct (rev cur ++ [x]) eqn:E; [destruct (rev cur)|].
    + by apply IH.
Qed.

Lemma words_trimStart s : words_from (trimStart s) [] = words_from s [].
Proof.
  induction s as [|c s IH]; simpl; [done|].
  destruct (is_space c) eqn:E; [done|]. simpl. by rewrite E.
Qed.

Lemma trimStart_split s :
  ∃ sp, s = sp ++ trimStart s ∧ Forall (fun c => is_space c = true) sp.
Proof.
  induction s as [|c s (sp & Hs & Hsp)]; simpl.
  - by exists [].
  - destruct (is_space c) eqn:E.
    + exists (c :: sp). split; [simpl; congruence | by constructor].
    + by exists [].
Qed.

Lemma words_from_spaces sp cur :
  Forall (fun c => is_space c = true) sp →
  words_from sp cur = words_from [] cur.
Proof.
  intros H; revert cur; induction H as [|c sp Hc _ IH]; intros cur; [done|].
  simpl. rewrite Hc. destruct cur; by rewrite IH.
Qed.

Lemma words_from_app_spaces s sp cur :
  Forall (fun c => is_space c = true) sp →
  words_from (s ++ sp) cur = words_from s cur.
Proof.
  intros H; revert cur; induction s as [|c s IH]; intros cur.
  - by apply words_from_spaces.
  - simpl. destruct (is_space c); [destruct cur|]; by rewrite ?IH.
Qed.

Lemma words_trim s : words (trim s) = words s.
Proof.
  unfold words, trim. rewrite <- (words_trimStart s).
  generalize (trimStart s) as t. intros t.
  destruct (trimStart_split (rev t)) as (sp & Hs & Hsp).
  generalize dependent (trimStart (rev t)). intros u Hs.
  apply (f_equal (@rev N)) in Hs. rewrite rev_involutive, rev_app_distr in Hs.
  subst t. rewrite words_from_app_spaces; [done|].
  by apply List.Forall_rev.
Qed.

Lemma keywords_of_words keyword :
  keywords_of toLowerCase keyword = words (toLowerCase keyword).
Proof.
  unfold keywords_of, split_ws. rewrite split_ws_words by done.
  apply words_trim.
Qed.

Lemma fold_score title description keywords acc :
  fold_left
    (fun score kw =>
       let score := if includes title kw then score + 2 else score in
       if includes description kw then score + 1 else score)
    keywords acc
  = acc + foldr Z.add 0 (map (term_score title description) keywords).
Proof.
  revert acc; induction keywords as [|kw kws IH]; intros acc; simpl; [lia|].
  rewrite IH. unfold term_score.
  destruct (includes title kw), (includes description kw); lia.
Qed.

Lemma score_of_total keywords it :
  score_of toLowerCase keywords it = total_score toLowerCase keywords it.
Proof. unfold score_of, total_score. by rewrite fold_score. Qed.

Lemma total_score_nonneg terms it : 0 <= total_score toLowerCase terms it.
Proof.
  unfold total_score.
  induction terms as [|t ts IH]; simpl; [lia|].
  unfold term_score at 1.
  repeat match goal with |- context [if ?b then _ else _] => destruct b end; lia.
Qed.

Lemma fold_results (f : ContentItem → Z) items acc :
  fold_left
    (fun results it =>
       if 0 <? f it then results ++ [{| item := it; score := f it |}]
       else results)
    items acc
  = acc ++ map (fun it => {| item := it; score := f it |})
             (List.filter (fun it => 0 <? f it) items).
Proof.
  revert acc; induction items as [|it items IH]; intros acc; simpl.
  - by rewrite app_nil_r.
  - rewrite IH. destruct (0 <? f it); [|done].
    simpl. by rewrite <- app_assoc.
Qed.

End SearchProofs.

Section SearchClaims.
Import JS Data SearchEngine SearchSpec.

Lemma StronglySorted_map_Forall {A B} (R : A → A → Prop) (R' : B → B → Prop)
  (P : A → Prop) (f : A → B) l :
  (∀ x y, P x → P y → R x y → R' (f x) (f y)) →
  Forall P l → StronglySorted R l → StronglySorted R' (map f l).
Proof.
  intros HR HP Hs. induction Hs as [|x l Hs IH Hx]; simpl; [constructor|].
  inversion HP as [|? ? Px Pl]; subst.
  constructor; [by apply IH|].
  apply Forall_forall. intros b Hb. apply list_elem_of_In, in_map_iff in Hb.
  destruct Hb as (y & <- & Hy). apply list_elem_of_In in Hy.
  apply HR; [done| |].
  - by eapply Forall_forall in Pl.
  - by eapply Forall_forall in Hx.
Qed.

Lemma trim_nil_of_nil keyword : trim keyword ≠ [] → keyword ≠ [].
Proof. by intros H ->. Qed.

(** C3: for a keyword that is not empty and not only white space, [search]
    scores every item of the snapshot with the sum, over the words of the
    lower-cased keyword (repetitions kept), of 2 when the word occurs in the
    lower-cased title plus 1 when it occurs in the lower-cased description;
    it returns exactly the items whose score is not 0, in descending order
    of score. *)
Theorem search_scores_and_orders (toLowerCase : jsstring → jsstring)
  (self : SearchEngine) (keyword : jsstring) :
  trim keyword ≠ [] →
  let terms := words (toLowerCase keyword) in
  let sc := total_score toLowerCase terms in
  let result := search toLowerCase self (Some keyword) in
  keywords_of toLowerCase keyword = terms
  ∧ (∀ it, score_of toLowerCase terms it = sc it)
  ∧ (∀ s t, includes s t = true ↔ substring t s)
  ∧ Permutation result (List.filter (fun it => negb (sc it =? 0)) (data self))
  ∧ StronglySorted (fun a b => sc b <= sc a) result.
Proof.
  intros Htrim terms sc result.
  assert (Hfilter : ∀ l, List.filter (fun it => negb (sc it =? 0)) l
                         = List.filter (fun it => 0 <? sc it) l).
  { intros l. apply filter_ext. intros it.
    pose proof (total_score_nonneg toLowerCase terms it) as Hnn.
    fold (sc it) in Hnn.
    destruct (Z.eqb_spec (sc it) 0), (Z.ltb_spec 0 (sc it)); simpl; lia. }
  split; [apply keywords_of_words|].
  split; [apply score_of_total|].
  split; [apply includes_substring|].
  subst result. unfold search.
  pose proof (trim_nil_of_nil _ Htrim) as Hne.
  rewrite !str_eqb_nil.
  destruct keyword as [|c0 kw0]; [done|].
  destruct (trim (c0 :: kw0)) as [|c1 t1] eqn:Et; [done|]. simpl orb. cbv iota.
  rewrite keywords_of_words. fold terms.
  destruct (Nat.eqb_spec (length terms) 0) as [Hlen|Hlen].
  - apply length_zero_iff_nil in Hlen.
    assert (Hz : ∀ it, sc it = 0) by (intros it; unfold sc; by rewrite Hlen).
    split; [|constructor].
    rewrite (filter_ext _ (fun _ => false)).
    + by induction (data self).
    + intros it. by rewrite Hz.
  - rewrite (fold_results (score_of toLowerCase terms)). simpl app.
    set (scored := map _ (List.filter _ (data self))).
    set (cmp := fun a b : Scored => score b - score a).
    assert (Hcmp : ∀ a b, cmp a b = (- score a) - (- score b))
      by (intros; unfold cmp; lia).
    assert (Hitems : map item scored
                     = List.filter (fun it => 0 <? sc it) (data self)).
    { subst scored. rewrite map_map. simpl. rewrite map_id.
      apply filter_ext. intros it. by rewrite score_of_total. }
    assert (Hsc : Forall (fun r => score r = sc (item r)) (JS.sort cmp scored)).
    { rewrite (sort_perm cmp scored). subst scored.
      apply Forall_forall. intros r Hr.
      apply list_elem_of_In, in_map_iff in Hr. destruct Hr as (it & <- & _).
      simpl. apply score_of_total. }
    split.
    + rewrite Hfilter, <- Hitems. apply Permutation_map, sort_perm.
    + eapply StronglySorted_map_Forall;
        [| exact Hsc | exact (sort_sorted _ cmp Hcmp scored)].
      simpl. intros x y Hx Hy Hle. rewrite <- Hx, <- Hy. lia.
Qed.

(** C10: [setData] with [null] or [undefined] leaves the empty snapshot, and
    every later [search], whatever the keyword, returns the empty list. *)
Theorem search_total_without_data (toLowerCase : jsstring → jsstring)
  (self : SearchEngine) (keyword : option jsstring) :
  data (setData None self) = []
  ∧ search toLowerCase (setData None self) keyword = [].
Proof.
  split; [done|].
  unfold search. destruct keyword as [kw|]; [|done].
  destruct (str_eqb kw [] || str_eqb (trim kw) []); [done|].
  by destruct (length (keywords_of toLowerCase kw) =? 0)%nat.
Qed.

End SearchClaims.

(** ** The data loader *)

(** Unfolding of the monad and of the primitive effects of the loader. *)
Ltac run := unfold DataLoader.console_warn, DataLoader.console_error,
  DataLoader.sleep, DataLoader.emit, DataLoader.fetch, DataLoader.Date_now,
  Eff.bind, Eff.ret, Eff.throw, Eff.try_catch, Eff.gets, Eff.modify,
  Eff.settle in *.

Ltac unfold_state := unfold DataLoader.with_trace, DataLoader.with_fetches,
  DataLoader.with_reads, DataLoader.with_cacheDuration,
  DataLoader.with_cache_content, DataLoader.with_cache_config,
  DataLoader.with_cache_recommendations in *; simpl in *.

Section LoaderProofs.
Import JS Eff Data DataLoader LoaderSpec.

Lemma isCacheValid_run {A} (key : Key A) st :
  isCacheValid key st =
  match data (get_slot key st), timestamp (get_slot key st) with
  | Some _, Some ts =>
      if ts =? 0 then (Ok false, st)
      else (Ok (clock st (reads st) - ts <? cacheDuration st),
            with_reads (S (reads st)) st)
  | _, _ => (Ok false, st)
  end.
Proof.
  unfold isCacheValid. run.
  destruct (data (get_slot key st)), (timestamp (get_slot key st)) as [ts|];
    try done.
  by destruct (ts =? 0).
Qed.

(** The check changes nothing but the count of clock readings. *)
Lemma isCacheValid_frame {A} (key : Key A) st :
  ∃ b n, isCacheValid key st = (Ok b, with_reads n st).
Proof.
  rewrite isCacheValid_run.
  assert (Hid : with_reads (reads st) st = st) by by destruct st.
  destruct (data (get_slot key st)), (timestamp (get_slot key st)) as [ts|];
    try (exists false, (reads st); by rewrite Hid).
  destruct (ts =? 0); [exists false, (reads st); by rewrite Hid|].
  by eexists _, _.
Qed.

Lemma isCacheValid_fresh {A} (key : Key A) st :
  fst (isCacheValid key st)
  = Ok (fresh (get_slot key st) (cacheDuration st) (clock st (reads st))).
Proof.
  rewrite isCacheValid_run. unfold fresh.
  destruct (data (get_slot key st)), (timestamp (get_slot key st)) as [ts|];
    try done.
  by destruct (ts =? 0).
Qed.

(** One turn of [fetchWithRetry]. *)
Lemma fetchWithRetry_step url retries st :
  fetchWithRetry url retries st =
  let retry e :=
    match retries with
    | S r => fetchWithRetry url r (after_wait retries (after_request url st))
    | O => (Throw e, after_request url st)
    end in
  match transport st (fetches st) url with
  | Ok response =>
      if ok response then (Ok response, after_request url st)
      else retry (http_error (status response))
  | Throw e => retry e
  end.
Proof.
  assert (Happ : ∀ (t : list Event) a b, (t ++ [a]) ++ [b] = t ++ [a; b])
    by (intros; by rewrite <- app_assoc).
  destruct retries as [|r]; cbn [fetchWithRetry]; run;
    unfold after_wait, after_request;
    destruct (transport st (fetches st) url) as [resp|e]; simpl;
    try destruct (ok resp); simpl; try done;
    destruct st; simpl; by rewrite Happ.
Qed.

(** Failed attempts: every one is made, the last error escapes, and the
    trace is the expected interleaving of requests and delays. *)
Lemma fetchWithRetry_fails url retries st :
  (∀ k, (k ≤ retries)%nat → failed (transport st (fetches st + k)%nat url)) →
  fetchWithRetry url retries st
  = (Throw (attempt_error (transport st (fetches st + retries)%nat url)),
     with_trace (trace st ++ retry_trace url (retryDelay st) retries)
       (with_fetches (fetches st + S retries)%nat st)).
Proof.
  revert st; induction retries as [|r IH]; intros st Hfail;
    rewrite fetchWithRetry_step; cbv zeta;
    pose proof (Hfail 0%nat (Nat.le_0_l _)) as H0; rewrite Nat.add_0_r in *.
  - rewrite Nat.add_1_r. unfold after_request. simpl retry_trace.
    destruct (transport st (fetches st) url) as [resp|e]; simpl in *; [|done].
    by rewrite H0.
  - assert (Hrec : fetchWithRetry url r (after_wait (S r) (after_request url st))
      = (Throw (attempt_error (transport st (fetches st + S r)%nat url)),
         with_trace (trace st ++ retry_trace url (retryDelay st) (S r))
           (with_fetches (fetches st + S (S r))%nat st))).
    { rewrite IH.
      - unfold after_wait, after_request. destruct st; unfold_state.
        rewrite <- !app_assoc. simpl. repeat f_equal; lia.
      - intros k Hk. specialize (Hfail (S k) ltac:(lia)).
        unfold after_wait, after_request.
        destruct st; unfold_state. by rewrite Nat.add_succ_r in Hfail. }
    destruct (transport st (fetches st) url) as [resp|e]; simpl in *; [|done].
    by rewrite H0.
Qed.

(** [fetchWithRetry] touches only the request counter and the trace. *)
Lemma fetchWithRetry_frame url retries st :
  ∃ n t, snd (fetchWithRetry url retries st) = with_trace t (with_fetches n st).
Proof.
  revert st; induction retries as [|r IH]; intros st;
    rewrite fetchWithRetry_step; cbv zeta.
  - destruct (transport st (fetches st) url) as [resp|e];
      [destruct (ok resp)|]; by eexists _, _.
  - assert (∃ n t, snd (fetchWithRetry url r
              (after_wait (S r) (after_request url st)))
            = with_trace t (with_fetches n st)) as (n & t & Hr).
    { destruct (IH (after_wait (S r) (after_request url st))) as (n & t & ->).
      exists n, t. unfold after_wait, after_request. by destruct st. }
    destruct (transport st (fetches st) url) as [resp|e];
      [destruct (ok resp)|]; try (by eexists _, _); by exists n, t.
Qed.

End LoaderProofs.

Section LoaderRuns.
Import JS Eff Data DataLoader LoaderSpec.

Lemma fetchWithRetry_slot {A} (key : Key A) url retries st :
  (∀ t n st, get_slot key (with_trace t (with_fetches n st)) = get_slot key st) →
  get_slot key (snd (fetchWithRetry url retries st)) = get_slot key st.
Proof.
  intros Hk. destruct (fetchWithRetry_frame url retries st) as (n & t & ->).
  apply Hk.
Qed.

(** The three loads, run symbolically. *)
Lemma loadContent_valid st st0 :
  isCacheValid key_content st = (Ok true, st0) →
  loadContent st = (Ok (data (cache_content st0)), st0).
Proof. intros Hv. unfold loadContent, getCache. run. by rewrite Hv. Qed.

Lemma loadRecommendations_valid st st0 :
  isCacheValid key_recommendations st = (Ok true, st0) →
  loadRecommendations st = (Ok (data (cache_recommendations st0)), st0).
Proof. intros Hv. unfold loadRecommendations, getCache. run. by rewrite Hv. Qed.

Lemma loadConfig_valid st st0 :
  isCacheValid key_config st = (Ok true, st0) →
  loadConfig st = (Ok (data (cache_config st0)), st0).
Proof. intros Hv. unfold loadConfig, getCache. run. by rewrite Hv. Qed.

Lemma loadContent_fails st st0 st1 e :
  isCacheValid key_content st = (Ok false, st0) →
  fetchWithRetry url_content (maxRetries st0) st0 = (Throw e, st1) →
  loadContent st = recover key_content ErrorLoadContent msg_content_failed e st1.
Proof.
  intros Hv Hf. unfold loadContent, recover. run. rewrite Hv, Hf. simpl.
  destruct (data (cache_content st1)); [|done].
  unfold_state. by rewrite <- app_assoc.
Qed.

Lemma loadRecommendations_fails st st0 st1 e :
  isCacheValid key_recommendations st = (Ok false, st0) →
  fetchWithRetry url_recommendations (maxRetries st0) st0 = (Throw e, st1) →
  loadRecommendations st
  = recover key_recommendations ErrorLoadRecommendations
      msg_recommendations_failed e st1.
Proof.
  intros Hv Hf. unfold loadRecommendations, recover. run. rewrite Hv, Hf. simpl.
  destruct (data (cache_recommendations st1)); [|done].
  unfold_state. by rewrite <- app_assoc.
Qed.

Lemma loadConfig_fails st st0 st1 e :
  isCacheValid key_config st = (Ok false, st0) →
  fetchWithRetry url_config (maxRetries st0) st0 = (Throw e, st1) →
  loadConfig st = recover key_config ErrorLoadConfig msg_config_failed e st1.
Proof.
  intros Hv Hf. unfold loadConfig, recover. run. rewrite Hv, Hf. simpl.
  destruct (data (cache_config st1)); [|done].
  unfold_state. by rewrite <- app_assoc.
Qed.

Lemma framed_reads {A} (key : Key A) r st :
  framed key → get_slot key (with_reads r st) = get_slot key st.
Proof.
  intros Hk. by rewrite <- (Hk (trace st) (fetches st) r st).
Qed.

Lemma stale_fallback_of {A} (load : M State (option A)) key url entry msg :
  framed key →
  (∀ st st0 st1 e,
     isCacheValid key st = (Ok false, st0) →
     fetchWithRetry url (maxRetries st0) st0 = (Throw e, st1) →
     load st = recover key entry msg e st1) →
  stale_fallback load key url msg.
Proof.
  intros Hk Hrun st st0 st1 e Hv Hf.
  rewrite (Hrun _ _ _ _ Hv Hf). unfold recover.
  destruct (isCacheValid_frame key st) as (b & r & Hv').
  rewrite Hv in Hv'. injection Hv' as _ ->.
  destruct (fetchWithRetry_frame url (maxRetries (with_reads r st))
              (with_reads r st)) as (n & t & Hst1).
  rewrite Hf in Hst1. simpl in Hst1. subst st1. rewrite Hk.
  destruct (data (get_slot key st)); [|done].
  split; [done|]. simpl.
  change [EConsole (entry e); EConsole WarnStaleCache]
    with ([EConsole (entry e)] ++ [EConsole WarnStaleCache]).
  by rewrite app_assoc, last_snoc.
Qed.

Lemma retry_bound_of {A} (load : M State (option A)) key url entry msg :
  framed key →
  (∀ st st0 st1 e,
     isCacheValid key st = (Ok false, st0) →
     fetchWithRetry url (maxRetries st0) st0 = (Throw e, st1) →
     load st = recover key entry msg e st1) →
  retry_bound load key url msg entry.
Proof.
  intros Hk Hrun st Hfail Hv. cbv zeta.
  destruct (isCacheValid_frame key st) as (b & r & Hv').
  rewrite Hv' in Hv. injection Hv as ->.
  assert (Hf : fetchWithRetry url (maxRetries (with_reads r st)) (with_reads r st)
               = _) by (apply fetchWithRetry_fails; intros k _; apply Hfail).
  rewrite (Hrun _ _ _ _ Hv' Hf). unfold recover. rewrite Hk.
  destruct (data (get_slot key st)); simpl;
    (split; [done|]); (split; [by rewrite <- !app_assoc|]); done.
Qed.

Lemma served_from_cache_of {A} (load : M State (option A)) key :
  framed key →
  (∀ st st0,
     isCacheValid key st = (Ok true, st0) →
     load st = (Ok (data (get_slot key st0)), st0)) →
  served_from_cache load key.
Proof.
  intros Hk Hrun st Hv.
  pose proof (isCacheValid_fresh key st) as Hfresh.
  rewrite Hv in Hfresh. injection Hfresh as Hfresh.
  destruct (isCacheValid_frame key st) as (b & r & Hv').
  rewrite Hv' in Hv. injection Hv as ->.
  rewrite (Hrun _ _ Hv'), framed_reads by done. simpl.
  repeat split; try done.
  unfold fresh in Hfresh. by destruct (data (get_slot key st)).
Qed.

Lemma requests_retry_trace url delay retries :
  requests (retry_trace url delay retries) = replicate (S retries) url.
Proof. induction retries as [|r IH]; [done|]. simpl in *. by rewrite IH. Qed.

Lemma delays_retry_trace url delay retries :
  delays (retry_trace url delay retries) = replicate retries delay.
Proof. induction retries as [|r IH]; [done|]. simpl in *. by rewrite IH. Qed.

End LoaderRuns.

Section LoaderClaims.
Import JS Eff Data DataLoader LoaderSpec.

(** C1: for each of [loadContent], [loadRecommendations] and [loadConfig],
    when the slot is not fresh and [fetchWithRetry] fails after its retries,
    the load returns the data the slot holds, even stale, with a warning;
    only when the slot is empty does it fail, with an error whose message is
    the load's prefix followed by the message of the cause. *)
Theorem loads_fall_back_to_stale_cache :
  stale_fallback loadContent key_content url_content msg_content_failed
  ∧ stale_fallback loadRecommendations key_recommendations
      url_recommendations msg_recommendations_failed
  ∧ stale_fallback loadConfig key_config url_config msg_config_failed.
Proof.
  split; [|split].
  - eapply stale_fallback_of; [done | apply loadContent_fails].
  - eapply stale_fallback_of; [done | apply loadRecommendations_fails].
  - eapply stale_fallback_of; [done | apply loadConfig_fails].
Qed.

(** C2: against a transport that fails at every attempt, each load whose
    slot is not fresh calls the transport exactly [maxRetries + 1] times (4
    times with the default of 3), one call after the other with the fixed
    [retryDelay] between two calls, and then fails with the wrapped error
    when the slot is empty. *)
Theorem loads_retry_bound :
  retry_bound loadContent key_content url_content msg_content_failed
    ErrorLoadContent
  ∧ retry_bound loadRecommendations key_recommendations url_recommendations
      msg_recommendations_failed ErrorLoadRecommendations
  ∧ retry_bound loadConfig key_config url_config msg_config_failed
      ErrorLoadConfig
  ∧ (∀ url delay retries,
       requests (retry_trace url delay retries) = replicate (S retries) url
       ∧ delays (retry_trace url delay retries) = replicate retries delay)
  ∧ (∀ transport clock,
       maxRetries (constructor transport clock) = 3%nat
       ∧ retryDelay (constructor transport clock) = 1000).
Proof.
  split; [|split; [|split; [|split]]].
  - eapply retry_bound_of; [done | apply loadContent_fails].
  - eapply retry_bound_of; [done | apply loadRecommendations_fails].
  - eapply retry_bound_of; [done | apply loadConfig_fails].
  - intros. split; [apply requests_retry_trace | apply delays_retry_trace].
  - done.
Qed.

(** X22: for a slot stamped at a clock reading other than 0, a time-to-live
    [T] and an elapsed time [e], [isCacheValid] answers true exactly when
    data is present and [e < T]; a slot never set is not valid; and a load
    that finds its slot valid returns the cached data without any request. *)
Theorem cache_freshness :
  (∀ A (key : Key A) st d ts T e,
     get_slot key st = mkSlot d (Some ts) → ts ≠ 0 →
     cacheDuration st = T → clock st (reads st) - ts = e →
     fst (isCacheValid key st) = Ok true ↔ is_Some d ∧ e < T)
  ∧ (∀ A (key : Key A) st,
       get_slot key st = mkSlot None None →
       fst (isCacheValid key st) = Ok false)
  ∧ served_from_cache loadContent key_content
  ∧ served_from_cache loadRecommendations key_recommendations
  ∧ served_from_cache loadConfig key_config.
Proof.
  split; [|split; [|split; [|split]]].
  - intros A key st d ts T e Hslot Hts <- <-.
    rewrite isCacheValid_fresh, Hslot. unfold fresh. simpl.
    destruct d as [x|]; simpl.
    + destruct (Z.eqb_spec ts 0) as [|_]; [done|]. simpl.
      destruct (Z.ltb_spec (clock st (reads st) - ts) (cacheDuration st));
        split; try done; try (intros [_ ?]; lia); intros [=].
    + split; [done | by intros [[? [=]] _]].
  - intros A key st Hslot. by rewrite isCacheValid_fresh, Hslot.
  - eapply served_from_cache_of; [done | apply loadContent_valid].
  - eapply served_from_cache_of; [done | apply loadRecommendations_valid].
  - eapply served_from_cache_of; [done | apply loadConfig_valid].
Qed.

End LoaderClaims.

Section RecommendProofs.
Import JS Eff Data DataLoader LoaderSpec RecommendSpec.

Lemma find_Some {A} (p : A → bool) l x :
  JS.find p l = Some x →
  ∃ pre post, l = pre ++ x :: post ∧ p x = true ∧ ∀ c, c ∈ pre → p c = false.
Proof.
  induction l as [|y l IH]; simpl; [done|].
  destruct (p y) eqn:Hy.
  - intros [= ->]. exists [], l. repeat split; [done|]. by intros c ?%elem_of_nil.
  - intros (pre & post & -> & Hx & Hpre)%IH.
    exists (y :: pre), post. repeat split; [done|].
    intros c [->|?]%elem_of_cons; auto.
Qed.

Lemma find_None {A} (p : A → bool) l :
  JS.find p l = None → ∀ c, c ∈ l → p c = false.
Proof.
  induction l as [|y l IH]; simpl; [by intros _ c ?%elem_of_nil|].
  destruct (p y) eqn:Hy; [done|].
  intros Hn c [->|?]%elem_of_cons; auto.
Qed.

Lemma str_eqb_neq a b : str_eqb a b = false ↔ a ≠ b.
Proof.
  rewrite <- str_eqb_eq. by destruct (str_eqb a b).
Qed.

Lemma join_recommendations_Joined recs content :
  Joined content recs
    (omap (fun o => o)
       (map (fun rec =>
               match JS.find (fun c => str_eqb (item_id c) (contentId rec))
                       content with
               | Some item => Some (annotate item rec)
               | None => None
               end) recs)).
Proof.
  induction recs as [|rec recs IH]; simpl; [constructor|].
  destruct (JS.find _ content) as [item|] eqn:Hfind; simpl.
  - apply (Joined_match _ _ _ item); [|done|done].
    apply find_Some in Hfind as (pre & post & -> & Hx & Hpre).
    exists pre, post. repeat split; [by apply str_eqb_eq|].
    intros c Hc. by apply str_eqb_neq, Hpre.
  - apply Joined_drop; [|done].
    intros c Hc. by apply str_eqb_neq, (find_None _ _ Hfind).
Qed.

Lemma first_with_id_functional content i a b :
  first_with_id content i a → first_with_id content i b → a = b.
Proof.
  intros (pre & post & -> & Ha & Hpre) (pre' & post' & Heq & Hb & Hpre').
  revert pre' Heq Hpre'. induction pre as [|c pre IH]; intros [|c' pre'] Heq Hpre'.
  - by injection Heq.
  - injection Heq as -> _. destruct (Hpre' c'); [left | done].
  - injection Heq as -> _. destruct (Hpre b); [left | done].
  - injection Heq as -> Heq. apply (IH ltac:(intros x Hx; apply Hpre; by right)
                                      pre' Heq).
    intros x Hx. apply Hpre'. by right.
Qed.

(** The join is determined by the content and the recommendations. *)
Lemma Joined_functional content recs out out' :
  Joined content recs out → Joined content recs out' → out = out'.
Proof.
  intros H; revert out'.
  induction H as [|rec recs item r out Hfirst Hann _ IH
                  |rec recs out Hnone _ IH]; intros out' H'.
  - by inversion H'.
  - inversion H' as [|? ? item' r' out2 Hfirst' Hann' Hrest
                     |? ? ? Hnone' Hrest]; subst.
    + f_equal; [|by apply IH].
      pose proof (first_with_id_functional _ _ _ _ Hfirst Hfirst') as Hitem.
      destruct Hann as (Hi & Hr & Hp), Hann' as (Hi' & Hr' & Hp').
      destruct r, r'; simpl in *. congruence.
    + destruct Hfirst as (pre & post & Hcontent & Hid & _).
      destruct (Hnone' item); [|done].
      rewrite Hcontent. apply elem_of_app. right. left.
  - inversion H' as [|? ? item' r' out2 Hfirst' _ Hrest
                     |? ? ? Hnone' Hrest]; subst.
    + destruct Hfirst' as (pre & post & Hcontent & Hid & _).
      destruct (Hnone item'); [|done].
      rewrite Hcontent. apply elem_of_app. right. left.
    + by apply IH.
Qed.

(** C5: when both loads succeed, [getRecommendedContent] returns the join
    of the recommendations with the content (each entry with a matching item
    gives that item annotated with the entry's reason and priority, the
    others are dropped) sorted by ascending priority, entries of equal
    priority staying in the order of the recommendations. *)
Theorem recommended_content_join_sorted st st1 st2 recs content :
  loadRecommendations st = (Ok (Some recs), st1) →
  loadContent st1 = (Ok (Some content), st2) →
  ∃ result joined,
    getRecommendedContent st = (Ok result, st2)
    ∧ Joined content recs joined
    ∧ Permutation result joined
    ∧ StronglySorted
        (fun a b => recommendationPriority a <= recommendationPriority b)
        result
    ∧ ∀ p, List.filter (fun a => recommendationPriority a =? p) result
           = List.filter (fun a => recommendationPriority a =? p) joined.
Proof.
  intros Hr Hc. eexists _, _. split; [|split; [|split; [|split]]].
  - unfold getRecommendedContent, non_null. run. rewrite Hr, Hc. simpl.
    by destruct recs.
  - apply join_recommendations_Joined.
  - unfold join_recommendations. apply sort_perm.
  - unfold join_recommendations. by apply sort_sorted.
  - intros p. unfold join_recommendations.
    by apply (sort_stable recommendationPriority).
Qed.

End RecommendProofs.

Section ConfigProofs.
Import JS Eff Data DataLoader LoaderSpec.

(** The loads of content and recommendations leave the time-to-live as it
    is. *)
Lemma fetchWithRetry_cacheDuration url retries st :
  cacheDuration (snd (fetchWithRetry url retries st)) = cacheDuration st.
Proof. by destruct (fetchWithRetry_frame url retries st) as (n & t & ->). Qed.

Lemma loadContent_cacheDuration st :
  cacheDuration (snd (loadContent st)) = cacheDuration st.
Proof.
  destruct (isCacheValid_frame key_content st) as (b & r & Hv).
  unfold loadContent, getCache, setCache. run. rewrite Hv.
  destruct b; [done|]. simpl.
  pose proof (fetchWithRetry_cacheDuration url_content (maxRetries st)
                (with_reads r st)) as Hd.
  destruct (fetchWithRetry _ _ _) as [[resp|e] st1]; simpl in *.
  - destruct (json resp) as [d|e]; [destruct (content d)|];
      simpl; try destruct (data (cache_content st1)); simpl; done.
  - destruct (data (cache_content st1)); simpl; done.
Qed.

Lemma loadRecommendations_cacheDuration st :
  cacheDuration (snd (loadRecommendations st)) = cacheDuration st.
Proof.
  destruct (isCacheValid_frame key_recommendations st) as (b & r & Hv).
  unfold loadRecommendations, getCache, setCache. run. rewrite Hv.
  destruct b; [done|]. simpl.
  pose proof (fetchWithRetry_cacheDuration url_recommendations (maxRetries st)
                (with_reads r st)) as Hd.
  destruct (fetchWithRetry _ _ _) as [[resp|e] st1]; simpl in *.
  - destruct (json resp) as [d|e]; [destruct (recommendations d)|];
      simpl; try destruct (data (cache_recommendations st1)); simpl; done.
  - destruct (data (cache_recommendations st1)); simpl; done.
Qed.

(** A successful fetch of the configuration. *)
Lemma loadConfig_succeeds st st0 st1 response cfg :
  isCacheValid key_config st = (Ok false, st0) →
  fetchWithRetry url_config (maxRetries st0) st0 = (Ok response, st1) →
  json response = Ok cfg →
  is_Some (site cfg) → is_Some (contentTypes cfg) → is_Some (ageRatings cfg) →
  loadConfig st =
  let st2 := match cacheDuration_override cfg with
             | Some n => with_cacheDuration n st1
             | None => st1
             end in
  (Ok (Some cfg),
   with_cache_config (mkSlot (Some cfg) (Some (clock st2 (reads st2))))
     (with_reads (S (reads st2)) st2)).
Proof.
  intros Hv Hf Hj [s Hs] [c Hc] [a Ha].
  unfold loadConfig, setCache. run. rewrite Hv, Hf. simpl. rewrite Hj, Hs, Hc, Ha.
  by destruct (cacheDuration_override cfg).
Qed.

(** X23: an override of [performance.cacheDuration] other than 0 is applied
    when the configuration is fetched and validated (not when it is served
    from the cache); the slots of content and recommendations keep their
    data and timestamps, every freshness check from then on compares the
    time elapsed since those timestamps with the new time-to-live, and the
    loads of content and recommendations do not change it. *)
Theorem config_override_applies st st0 st1 response cfg d :
  isCacheValid key_config st = (Ok false, st0) →
  fetchWithRetry url_config (maxRetries st0) st0 = (Ok response, st1) →
  json response = Ok cfg →
  is_Some (site cfg) → is_Some (contentTypes cfg) → is_Some (ageRatings cfg) →
  performance cfg = Some {| perf_cacheDuration := Some d |} →
  d ≠ 0 →
  let st2 := snd (loadConfig st) in
  fst (loadConfig st) = Ok (Some cfg)
  ∧ cacheDuration st2 = d
  ∧ cache_content st2 = cache_content st
  ∧ cache_recommendations st2 = cache_recommendations st
  ∧ fst (isCacheValid key_content st2)
    = Ok (fresh (cache_content st) d (clock st2 (reads st2)))
  ∧ fst (isCacheValid key_recommendations st2)
    = Ok (fresh (cache_recommendations st) d (clock st2 (reads st2)))
  ∧ cacheDuration (snd (loadContent st2)) = d
  ∧ cacheDuration (snd (loadRecommendations st2)) = d.
Proof.
  intros Hv Hf Hj Hs Hc Ha Hp Hd st2.
  assert (Hov : cacheDuration_override cfg = Some d).
  { unfold cacheDuration_override. rewrite Hp. simpl.
    by destruct (Z.eqb_spec d 0). }
  pose proof (loadConfig_succeeds _ _ _ _ _ Hv Hf Hj Hs Hc Ha) as Hrun.
  rewrite Hov in Hrun. cbv zeta in Hrun.
  destruct (isCacheValid_frame key_config st) as (b & r & Hv').
  rewrite Hv in Hv'. injection Hv' as _ ->.
  destruct (fetchWithRetry_frame url_config (maxRetries (with_reads r st))
              (with_reads r st)) as (n & t & Hst1).
  rewrite Hf in Hst1. simpl in Hst1. subst st1.
  assert (Hd2 : cacheDuration st2 = d) by (subst st2; by rewrite Hrun).
  assert (Hc2 : cache_content st2 = cache_content st)
    by (subst st2; by rewrite Hrun).
  assert (Hr2 : cache_recommendations st2 = cache_recommendations st)
    by (subst st2; by rewrite Hrun).
  split; [by rewrite Hrun|]. split; [done|]. split; [done|]. split; [done|].
  rewrite !isCacheValid_fresh, loadContent_cacheDuration,
    loadRecommendations_cacheDuration, Hd2. simpl. by rewrite Hc2, Hr2.
Qed.

End ConfigProofs.

(** ** The router *)

Ltac run_router := unfold Router.handle404, Router.emit,
  Router.call_handler, Eff.bind, Eff.ret, Eff.throw, Eff.try_catch, Eff.gets,
  Eff.modify in *.

Ltac unfold_router_state := unfold Router.with_trace, Router.with_page,
  Router.with_currentParams, Router.with_routes in *; simpl in *.

Section RouterProofs.
Import JS Eff Router RouterSpec.
Context {Page : Type} {dom : Dom Page}.
Implicit Types (st : State Page) (route : Route Page).

(** Binding the parameters does not touch the state. *)
Lemma bind_params_state names groups acc st :
  snd (bind_params names groups acc st) = st.
Proof.
  revert groups acc; induction names as [|name names IH]; intros groups acc;
    simpl; [done|].
  by destruct (decodeURIComponent _).
Qed.

(** Routes that do not match are passed over. *)
Lemma dispatch_skip pre rest path st :
  Forall (fun r => regex_match (regex r) path = None) pre →
  dispatch (pre ++ rest) path st = dispatch rest path st.
Proof.
  induction 1 as [|r pre Hr _ IH]; [done|]. simpl. by rewrite Hr.
Qed.

(** A matching route is dispatched to, whatever follows it. *)
Lemma dispatch_match route rest path groups params st :
  regex_match (regex route) path = Some groups →
  fst (bind_params (paramNames route) groups ∅ st) = Ok params →
  dispatch (route :: rest) path st = (Ok tt, dispatched route params st).
Proof.
  intros Hm Hb. simpl. rewrite Hm. run_router.
  pose proof (bind_params_state (paramNames route) groups ∅ st) as Hst.
  destruct (bind_params _ _ _ st) as [r st']. simpl in *. subst st' r.
  unfold dispatched.
  by destruct (handler route params _ _) as [page' [error|]].
Qed.

Lemma dispatch_none rs path st :
  Forall (fun r => regex_match (regex r) path = None) rs →
  pathname st = path →
  dispatch rs path st = (Ok tt, not_found st).
Proof.
  intros Hrs <-. rewrite <- (app_nil_r rs), dispatch_skip by done.
  simpl. run_router. unfold not_found, show_not_found. unfold_router_state.
  rewrite <- app_assoc. simpl.
  destruct (querySelector_main (page st)) as [main|]; [done|].
  by destruct (document_body (page st)) as [body|].
Qed.

Lemma handleRoute_first_match st pre route post groups params :
  routes st = pre ++ route :: post →
  Forall (fun r => regex_match (regex r) (pathname st) = None) pre →
  regex_match (regex route) (pathname st) = Some groups →
  fst (bind_params (paramNames route) groups ∅ st) = Ok params →
  handleRoute st = (Ok tt, dispatched route params st).
Proof.
  intros Hrs Hpre Hm Hb. unfold handleRoute. run_router. rewrite Hrs.
  rewrite dispatch_skip by done. by apply (dispatch_match _ _ _ groups).
Qed.

End RouterProofs.

Section RouterClaims.
Import JS Eff Router RouterSpec RouterExamples.





(** C8: when the handler of the matched route throws, [handleRoute] still
    returns normally, with the error written to the console; the handler
    has run with [currentParams] already set to the new parameters, and
    they stay current afterwards. *)
Theorem handler_error_is_caught {Page} {dom : Dom Page} (st : State Page)
  pre route post
  groups params doc' error :
  routes st = pre ++ route :: post →
  Forall (fun r => regex_match (regex r) (pathname st) = None) pre →
  regex_match (regex route) (pathname st) = Some groups →
  fst (bind_params (paramNames route) groups ∅ st) = Ok params →
  handler route params
    {| view_currentParams := params;
       view_pathname := pathname st;
       view_href := href st |}
    (page st) = (doc', Some error) →
  ∃ st',
    handleRoute st = (Ok tt, st')
    ∧ currentParams st' = params
    ∧ page st' = doc'
    ∧ trace st' = trace st ++ [ErrorHandler error]
    ∧ routes st' = routes st.
Proof.
  intros Hrs Hpre Hm Hb Hh. eexists.
  split; [by eapply handleRoute_first_match|].
  unfold dispatched, view. simpl. by rewrite Hh.
Qed.

(** C4, as the code has it: [getAllParams] spreads the query-string
    parameters after the path parameters, so that on a key they share the
    value of the query string is returned, and the path parameter is
    returned for the keys the query string does not have; [getParams],
    [getPathParams] and [getAllParams] leave the router as it is. *)
Theorem getAllParams_query_precedence {Page} (st : State Page) :
  let query := Utils.parseQueryString (href st) (href st) in
  getParams st = (Ok query, st)
  ∧ getPathParams st = (Ok (currentParams st), st)
  ∧ ∃ all,
      getAllParams st = (Ok all, st)
      ∧ (∀ k vp vq,
           currentParams st !! k = Some vp → query !! k = Some vq →
           all !! k = Some vq)
      ∧ (∀ k, query !! k = None → all !! k = currentParams st !! k).
Proof.
  intros query. split; [done|]. split.
  - unfold getPathParams, spread2. run_router.
    by rewrite (right_id_L ∅ (∪)).
  - eexists. split; [reflexivity|]. unfold spread2. fold query.
    split.
    + intros k vp vq Hp Hq. by rewrite lookup_union, Hq, Hp.
    + intros k Hq. rewrite lookup_union, Hq. by destruct (currentParams st !! k).
Qed.

End RouterClaims.

(** ** The statements at concrete inputs *)

Section SearchWitnesses.
Import JS Data SearchEngine SearchSpec Examples SearchExamples.

(** [ Prince  STORY ] over the two items: the terms are [prince] and
    [story], the first item scores 2 + 1 + 1 and the second 1, and the
    third, which has neither term, is left out. *)
Lemma search_scores_and_orders_witness :
  let sc := total_score ascii_toLowerCase [js "prince"; js "story"] in
  trim (js " Prince  STORY ") ≠ []
  ∧ keywords_of ascii_toLowerCase (js " Prince  STORY ")
    = [js "prince"; js "story"]
  ∧ map sc [moon_atlas; blue_planet; little_prince] = [0; 1; 4]
  ∧ search ascii_toLowerCase atlas_library (Some (js " Prince  STORY "))
    = [little_prince; blue_planet]
  ∧ Permutation [little_prince; blue_planet]
      (List.filter (fun it => negb (sc it =? 0))
         [moon_atlas; blue_planet; little_prince])
  ∧ StronglySorted (fun a b => sc b <= sc a) [little_prince; blue_planet].
Proof.
  intros sc.
  assert (H : trim (js " Prince  STORY ") ≠ []) by (vm_compute; discriminate).
  assert (Hwords : words (ascii_toLowerCase (js " Prince  STORY "))
                   = [js "prince"; js "story"]) by (vm_compute; reflexivity).
  assert (Hrun : search ascii_toLowerCase atlas_library
                   (Some (js " Prince  STORY "))
                 = [little_prince; blue_planet]) by (vm_compute; reflexivity).
  pose proof (search_scores_and_orders ascii_toLowerCase atlas_library
                (js " Prince  STORY ") H) as Hthm.
  cbv zeta in Hthm. rewrite Hwords, Hrun in Hthm.
  destruct Hthm as (Hterms & _ & _ & Hperm & Hsorted).
  split; [exact H|]. split; [exact Hterms|].
  split; [vm_compute; reflexivity|]. split; [exact Hrun|].
  split; [exact Hperm | exact Hsorted].
Defined.

(** The examples of the specification: [prince] scores 3 on the first item,
    [prince story] scores 4 on it and 1 on the second, [dragon] finds
    nothing. *)
Example search_examples :
  score_of ascii_toLowerCase (keywords_of ascii_toLowerCase (js "prince"))
    little_prince = 3
  ∧ search ascii_toLowerCase library (Some (js "prince")) = [little_prince]
  ∧ search ascii_toLowerCase library (Some (js "dragon")) = []
  ∧ score_of ascii_toLowerCase
      (keywords_of ascii_toLowerCase (js "prince story")) little_prince = 4
  ∧ score_of ascii_toLowerCase
      (keywords_of ascii_toLowerCase (js "prince story")) blue_planet = 1
  ∧ search ascii_toLowerCase library (Some (js "prince story"))
    = [little_prince; blue_planet]
  ∧ search ascii_toLowerCase library (Some (js "   ")) = []
  ∧ search ascii_toLowerCase library (Some []) = []
  ∧ search ascii_toLowerCase library None = [].
Proof. vm_compute. repeat split. Qed.

End SearchWitnesses.

Section LoaderExamples.
Import JS Eff Data DataLoader LoaderSpec RecommendSpec Examples.

Lemma loads_fall_back_to_stale_cache_witness :
  fst (loadContent stale_loader) = Ok (Some catalog)
  ∧ last (trace (snd (loadContent stale_loader)))
    = Some (EConsole WarnStaleCache).
Proof.
  eapply (proj1 loads_fall_back_to_stale_cache stale_loader);
    vm_compute; reflexivity.
Defined.

Lemma loads_retry_bound_witness :
  fetches (snd (loadContent (constructor network_down (hourly 1000)))) = 4%nat
  ∧ fst (loadContent (constructor network_down (hourly 1000)))
    = Throw (mkError (msg_content_failed ++ js "Failed to fetch")).
Proof.
  assert (Hdown : ∀ n, failed (transport (constructor network_down (hourly 1000))
                                 n url_content)) by (intros n; exact I).
  assert (Hcold : fst (isCacheValid key_content
                         (constructor network_down (hourly 1000))) = Ok false)
    by (vm_compute; reflexivity).
  destruct (proj1 loads_retry_bound (constructor network_down (hourly 1000))
              Hdown Hcold) as (Hfetches & _ & Hthrow).
  split; [exact Hfetches | apply Hthrow; vm_compute; reflexivity].
Defined.

Lemma cache_freshness_witness :
  fst (isCacheValid key_content fresh_loader) = Ok true
  ↔ is_Some (Some catalog) ∧ 3599999 < 3600000.
Proof.
  apply (proj1 cache_freshness _ key_content fresh_loader (Some catalog) 1000
           3600000 3599999); [vm_compute; reflexivity | lia
                             | vm_compute; reflexivity | vm_compute; reflexivity].
Defined.
End LoaderExamples.

Section LoaderExamples2.
Import JS Eff Data DataLoader LoaderSpec RecommendSpec Examples Examples2.

(** The example of the specification: of the entries for [a] (priority 2,
    with a reason), [missing] (priority 1) and [b] (priority 0, without
    reason), the second is dropped, and the item [b] comes before the item
    [a], each with the reason and the priority of its entry. *)
Lemma recommended_content_join_sorted_witness :
  let classic :=
    {| rec_item := little_prince;
       recommendationReason := Some (js "classic");
       recommendationPriority := 2 |} in
  let oceans :=
    {| rec_item := blue_planet;
       recommendationReason := None;
       recommendationPriority := 0 |} in
  fst (getRecommendedContent (constructor (server 60000) (hourly 1000)))
  = Ok [oceans; classic]
  ∧ Joined catalog picks [classic; oceans]
  ∧ Permutation [oceans; classic] [classic; oceans]
  ∧ StronglySorted
      (fun a b => recommendationPriority a <= recommendationPriority b)
      [oceans; classic].
Proof.
  intros classic oceans.
  assert (Hrecs : loadRecommendations (constructor (server 60000) (hourly 1000))
                  = (Ok (Some picks),
                     snd (loadRecommendations
                            (constructor (server 60000) (hourly 1000)))))
    by (vm_compute; reflexivity).
  assert (Hcontent :
            loadContent
              (snd (loadRecommendations
                      (constructor (server 60000) (hourly 1000))))
            = (Ok (Some catalog),
               snd (loadContent
                      (snd (loadRecommendations
                              (constructor (server 60000) (hourly 1000)))))))
    by (vm_compute; reflexivity).
  destruct (recommended_content_join_sorted _ _ _ _ _ Hrecs Hcontent)
    as (result & joined & Hrun & Hjoined & Hperm & Hsorted & _).
  assert (Hresult : fst (getRecommendedContent
                           (constructor (server 60000) (hourly 1000)))
                    = Ok [oceans; classic]) by (vm_compute; reflexivity).
  rewrite Hrun in Hresult. injection Hresult as ->.
  assert (Hexpected : Joined catalog picks [classic; oceans]).
  { apply (Joined_match _ _ _ little_prince).
    - exists [], [blue_planet]. repeat split. by intros c ?%elem_of_nil.
    - done.
    - apply Joined_drop.
      + intros c Hc. repeat (apply elem_of_cons in Hc as [->|Hc]);
          [vm_compute; discriminate | vm_compute; discriminate
          | by apply elem_of_nil in Hc].
      + apply (Joined_match _ _ _ blue_planet); [|done|constructor].
        exists [little_prince], []. repeat split.
        intros c Hc. apply list_elem_of_singleton in Hc as ->.
        vm_compute; discriminate. }
  rewrite (Joined_functional _ _ _ _ Hjoined Hexpected) in Hperm.
  split; [by rewrite Hrun|]. split; [exact Hexpected|].
  split; [exact Hperm | exact Hsorted].
Defined.

Lemma config_override_applies_witness :
  fst (loadConfig (constructor (server 60000) (hourly 1000)))
  = Ok (Some (config_with 60000))
  ∧ cacheDuration (snd (loadConfig (constructor (server 60000) (hourly 1000))))
    = 60000.
Proof.
  assert (Hcold : isCacheValid key_config
                    (constructor (server 60000) (hourly 1000))
                  = (Ok false, constructor (server 60000) (hourly 1000)))
    by (vm_compute; reflexivity).
  assert (Hfetch : fetchWithRetry url_config
                     (maxRetries (constructor (server 60000) (hourly 1000)))
                     (constructor (server 60000) (hourly 1000))
                   = (Ok {| ok := true; status := 200;
                            json := Ok (config_with 60000) |},
                      after_request url_config
                        (constructor (server 60000) (hourly 1000))))
    by (vm_compute; reflexivity).
  destruct (config_override_applies _ _ _ _ (config_with 60000) 60000
              Hcold Hfetch eq_refl
              (mk_is_Some _ _ eq_refl) (mk_is_Some _ _ eq_refl)
              (mk_is_Some _ _ eq_refl) eq_refl ltac:(lia))
    as (Hres & Httl & _).
  split; [exact Hres | exact Httl].
Defined.

(** C9: a configuration whose [performance.cacheDuration] is 0 is fetched
    and validated, and the override is not applied: the time-to-live stays
    3600000, so that the content cached one second before is still found
    valid and is served without a request, where a time-to-live of 0 makes
    no slot valid. *)
Theorem config_override_zero_ignored :
  let st1 := snd (loadContent (constructor (server 0) every_second)) in
  let st2 := snd (loadConfig st1) in
  cache_content st1 = mkSlot (Some catalog) (Some 1000)
  ∧ fst (loadConfig st1) = Ok (Some (config_with 0))
  ∧ performance (config_with 0) = Some {| perf_cacheDuration := Some 0 |}
  ∧ fetches st2 = 2%nat
  ∧ cacheDuration st2 = 3600000
  ∧ cache_content st2 = mkSlot (Some catalog) (Some 1000)
  ∧ clock st2 (reads st2) = 3000
  ∧ fresh (cache_content st2) 0 3000 = false
  ∧ fst (isCacheValid key_content st2) = Ok true
  ∧ fst (loadContent st2) = Ok (Some catalog)
  ∧ fetches (snd (loadContent st2)) = 2%nat.
Proof. vm_compute. repeat split. Qed.

(** C7: a slot that [setCache] stamps while the clock reads 0 holds data,
    and one second later, well within the time-to-live of 3600000,
    [isCacheValid] answers false for it: the next load does not serve the
    cached data and calls the transport again. *)
Theorem stamp_zero_slot_is_refetched :
  let st1 := snd (loadContent (constructor (server 60000) epoch_clock)) in
  cache_content st1 = mkSlot (Some catalog) (Some 0)
  ∧ cacheDuration st1 = 3600000
  ∧ clock st1 (reads st1) - 0 = 1000
  ∧ fst (isCacheValid key_content st1) = Ok false
  ∧ fetches st1 = 1%nat
  ∧ fst (loadContent st1) = Ok (Some catalog)
  ∧ fetches (snd (loadContent st1)) = 2%nat.
Proof. vm_compute. repeat split. Qed.

(** The examples of the specification. *)
Example stale_fallback_run :
  let st1 := snd (loadContent (constructor server_then_down (hourly 1000))) in
  cache_content st1 = mkSlot (Some catalog) (Some 1000)
  ∧ fst (isCacheValid key_content st1) = Ok false
  ∧ fst (loadContent st1) = Ok (Some catalog)
  ∧ fetches (snd (loadContent st1)) = 5%nat.
Proof. vm_compute. repeat split. Qed.

Example recommended_content_run :
  fst (getRecommendedContent (constructor (server 60000) (hourly 1000)))
  = Ok [ {| rec_item := blue_planet;
            recommendationReason := None;
            recommendationPriority := 0 |};
         {| rec_item := little_prince;
            recommendationReason := Some (js "classic");
            recommendationPriority := 2 |} ].
Proof. vm_compute. reflexivity. Qed.

Example retry_trace_default :
  trace (snd (loadContent (constructor network_down (hourly 1000))))
  = [ ERequest url_content; EConsole (WarnRetry 1000 3); ETimeout 1000;
      ERequest url_content; EConsole (WarnRetry 1000 2); ETimeout 1000;
      ERequest url_content; EConsole (WarnRetry 1000 1); ETimeout 1000;
      ERequest url_content;
      EConsole (ErrorLoadContent (mkError (js "Failed to fetch"))) ].
Proof. vm_compute. reflexivity. Qed.

End LoaderExamples2.

Section RouterWitnesses.
Import JS Eff Router RouterSpec RouterExamples RouterExamples2.

Example two_routes_registered h :
  match register (js "/category/:type") h
          (constructor (js "/category/books")
             (js "http://example.org/category/books?type=films") blank) with
  | Some st => register (js "/:section/:type") recording st
  | None => None
  end = Some (two_routes h).
Proof. reflexivity. Qed.


Lemma handler_error_is_caught_witness :
  ∃ st',
    handleRoute (two_routes broken) = (Ok tt, st')
    ∧ currentParams st' = {[ js "type" := js "books" ]}
    ∧ page st'
      = called {[ js "type" := js "books" ]}
          {| view_currentParams := {[ js "type" := js "books" ]};
             view_pathname := js "/category/books";
             view_href := js "http://example.org/category/books?type=films" |}
          blank
    ∧ trace st'
      = trace (two_routes broken)
        ++ [ErrorHandler (mkError (js "view is broken"))]
    ∧ routes st' = routes (two_routes broken).
Proof.
  apply (handler_error_is_caught (two_routes broken) []
           (category_route broken) [generic_route] [js "books"]);
    [reflexivity | constructor | vm_compute; reflexivity
    | vm_compute; reflexivity | vm_compute; reflexivity].
Defined.

Lemma getAllParams_query_precedence_witness :
  ∃ all,
    getAllParams (snd (handleRoute (two_routes recording)))
    = (Ok all, snd (handleRoute (two_routes recording)))
    ∧ all !! js "type" = Some (js "films").
Proof.
  destruct (getAllParams_query_precedence
              (snd (handleRoute (two_routes recording))))
    as (_ & _ & all & Hrun & Hboth & _).
  exists all. split; [exact Hrun|].
  apply (Hboth (js "type") (js "books") (js "films"));
    vm_compute; reflexivity.
Defined.

(** At [/category/books?type=films] the path gives [type = books], the
    query string gives [type = films], and [getAllParams] returns the
    latter. *)
Lemma getAllParams_path_precedence_fails :
  ∃ all,
    fst (getAllParams (snd (handleRoute (two_routes recording)))) = Ok all
    ∧ currentParams (snd (handleRoute (two_routes recording))) !! js "type"
      = Some (js "books")
    ∧ Utils.parseQueryString
        (href (snd (handleRoute (two_routes recording))))
        (href (snd (handleRoute (two_routes recording)))) !! js "type"
      = Some (js "films")
    ∧ all !! js "type" = Some (js "films")
    ∧ all !! js "type" ≠ Some (js "books").
Proof.
  eexists. split; [reflexivity|].
  split; [vm_compute; reflexivity|]. split; [vm_compute; reflexivity|].
  split; [vm_compute; reflexivity|]. vm_compute. discriminate.
Qed.

End RouterWitnesses.

(** * Further properties of the modelled code *)

Section LoaderExtras.
Import JS Eff Data DataLoader LoaderSpec LoaderSpec2.

Lemma requests_recovery_trace url delay retries k :
  requests (recovery_trace url delay retries k) = replicate (S k) url.
Proof.
  revert retries; induction k as [|k IH]; intros retries; [done|].
  simpl in *. by rewrite IH.
Qed.

Lemma delays_recovery_trace url delay retries k :
  delays (recovery_trace url delay retries k) = replicate k delay.
Proof.
  revert retries; induction k as [|k IH]; intros retries; [done|].
  simpl in *. by rewrite IH.
Qed.

Lemma fetchWithRetry_recovers_run url retries st k response :
  (k ≤ retries)%nat →
  (∀ j, (j < k)%nat → failed (transport st (fetches st + j)%nat url)) →
  transport st (fetches st + k)%nat url = Ok response →
  ok response = true →
  fetchWithRetry url retries st
  = (Ok response,
     with_trace (trace st ++ recovery_trace url (retryDelay st) retries k)
       (with_fetches (fetches st + S k)%nat st)).
Proof.
  revert retries st; induction k as [|k IH]; intros retries st Hk Hfail Hok Hresp;
    rewrite fetchWithRetry_step; cbv zeta.
  - rewrite Nat.add_0_r in Hok. rewrite Hok, Hresp, Nat.add_1_r. done.
  - destruct retries as [|r]; [lia|].
    pose proof (Hfail 0%nat ltac:(lia)) as H0. rewrite Nat.add_0_r in H0.
    assert (Hrec : fetchWithRetry url r (after_wait (S r) (after_request url st))
      = (Ok response,
         with_trace (trace st ++ recovery_trace url (retryDelay st) (S r) (S k))
           (with_fetches (fetches st + S (S k))%nat st))).
    { rewrite (IH r _ ltac:(lia)); try done.
      - unfold after_wait, after_request. destruct st; unfold_state.
        rewrite <- !app_assoc. simpl. repeat f_equal; lia.
      - intros j Hj. specialize (Hfail (S j) ltac:(lia)).
        unfold after_wait, after_request.
        destruct st; unfold_state. by rewrite Nat.add_succ_r in Hfail.
      - unfold after_wait, after_request.
        destruct st; unfold_state. by rewrite Nat.add_succ_r in Hok. }
    destruct (transport st (fetches st) url) as [resp|e]; simpl in *; [|done].
    by rewrite H0.
Qed.

(** X1: when the first [k] attempts fail and attempt [k + 1] is answered
    with an ok response, [k] being at most the number of retries,
    [fetchWithRetry] returns that response after exactly [k + 1] requests
    and [k] delays of [retryDelay], and leaves the unused retries. *)
Theorem fetchWithRetry_recovers url retries st k response :
  (k ≤ retries)%nat →
  (∀ j, (j < k)%nat → failed (transport st (fetches st + j)%nat url)) →
  transport st (fetches st + k)%nat url = Ok response →
  ok response = true →
  ∃ t,
    fetchWithRetry url retries st
    = (Ok response,
       with_trace (trace st ++ t) (with_fetches (fetches st + S k)%nat st))
    ∧ requests t = replicate (S k) url
    ∧ delays t = replicate k (retryDelay st).
Proof.
  intros Hk Hfail Hok Hresp. eexists. split.
  - by apply fetchWithRetry_recovers_run.
  - split; [apply requests_recovery_trace | apply delays_recovery_trace].
Qed.

End LoaderExtras.

Section LoaderRuns2.
Import JS Eff Data DataLoader LoaderSpec LoaderSpec2 LoaderSpec3.

(** The loads, run to the end in every case. *)
Lemma loadContent_run st :
  loadContent st =
  match isCacheValid key_content st with
  | (Ok true, st0) => (Ok (data (cache_content st0)), st0)
  | (Ok false, st0) =>
      match fetchWithRetry url_content (maxRetries st0) st0 with
      | (Ok response, st1) =>
          match content_of (json response) with
          | inl items => (Ok (Some items), cached key_content items st1)
          | inr e =>
              recover key_content ErrorLoadContent msg_content_failed e st1
          end
      | (Throw e, st1) =>
          recover key_content ErrorLoadContent msg_content_failed e st1
      end
  | (Throw e, st0) => (Throw e, st0)
  end.
Proof.
  destruct (isCacheValid key_content st) as [[[|]|e0] st0] eqn:Hv;
    [by apply loadContent_valid | | unfold loadContent; run; by rewrite Hv].
  destruct (fetchWithRetry url_content (maxRetries st0) st0)
    as [[response|e] st1] eqn:Hf; [|by eapply loadContent_fails].
  unfold loadContent, setCache, recover, cached, content_of. run.
  rewrite Hv, Hf. simpl.
  destruct (json response) as [d|e]; simpl;
    [destruct (content d); simpl|];
    try (destruct (data (cache_content st1)); unfold_state;
         by rewrite <- ?app_assoc).
Qed.

Lemma loadRecommendations_run st :
  loadRecommendations st =
  match isCacheValid key_recommendations st with
  | (Ok true, st0) => (Ok (data (cache_recommendations st0)), st0)
  | (Ok false, st0) =>
      match fetchWithRetry url_recommendations (maxRetries st0) st0 with
      | (Ok response, st1) =>
          match recommendations_of (json response) with
          | inl entries =>
              (Ok (Some entries), cached key_recommendations entries st1)
          | inr e =>
              recover key_recommendations ErrorLoadRecommendations
                msg_recommendations_failed e st1
          end
      | (Throw e, st1) =>
          recover key_recommendations ErrorLoadRecommendations
            msg_recommendations_failed e st1
      end
  | (Throw e, st0) => (Throw e, st0)
  end.
Proof.
  destruct (isCacheValid key_recommendations st) as [[[|]|e0] st0] eqn:Hv;
    [by apply loadRecommendations_valid |
    | unfold loadRecommendations; run; by rewrite Hv].
  destruct (fetchWithRetry url_recommendations (maxRetries st0) st0)
    as [[response|e] st1] eqn:Hf; [|by eapply loadRecommendations_fails].
  unfold loadRecommendations, setCache, recover, cached, recommendations_of.
  run. rewrite Hv, Hf. simpl.
  destruct (json response) as [d|e]; simpl;
    [destruct (recommendations d); simpl|];
    try (destruct (data (cache_recommendations st1)); unfold_state;
         by rewrite <- ?app_assoc).
Qed.

Lemma loadConfig_run st :
  loadConfig st =
  match isCacheValid key_config st with
  | (Ok true, st0) => (Ok (data (cache_config st0)), st0)
  | (Ok false, st0) =>
      match fetchWithRetry url_config (maxRetries st0) st0 with
      | (Ok response, st1) =>
          match config_of (json response) with
          | inl d => (Ok (Some d), cached key_config d (with_override d st1))
          | inr e => recover key_config ErrorLoadConfig msg_config_failed e st1
          end
      | (Throw e, st1) =>
          recover key_config ErrorLoadConfig msg_config_failed e st1
      end
  | (Throw e, st0) => (Throw e, st0)
  end.
Proof.
  destruct (isCacheValid key_config st) as [[[|]|e0] st0] eqn:Hv;
    [by apply loadConfig_valid | | unfold loadConfig; run; by rewrite Hv].
  destruct (fetchWithRetry url_config (maxRetries st0) st0)
    as [[response|e] st1] eqn:Hf; [|by eapply loadConfig_fails].
  unfold loadConfig, setCache, recover, cached, config_of, with_override. run.
  rewrite Hv, Hf. simpl.
  destruct (json response) as [d|e]; simpl;
    [destruct (site d), (contentTypes d), (ageRatings d); simpl|];
    try (destruct (data (cache_config st1)); unfold_state;
         by rewrite <- ?app_assoc).
  by destruct (cacheDuration_override d).
Qed.

End LoaderRuns2.

Section LoaderExtras2.
Import JS Eff Data DataLoader LoaderSpec LoaderSpec2 LoaderSpec3 LoaderSpec4.

Lemma caches_body_of {A} (load : M State (option A)) key url body_of entry msg :
  framed key → lawful key →
  (∀ st,
     load st =
     match isCacheValid key st with
     | (Ok true, st0) => (Ok (data (get_slot key st0)), st0)
     | (Ok false, st0) =>
         match fetchWithRetry url (maxRetries st0) st0 with
         | (Ok response, st1) =>
             match body_of (json response) with
             | inl d => (Ok (Some d), cached key d st1)
             | inr e => recover key entry msg e st1
             end
         | (Throw e, st1) => recover key entry msg e st1
         end
     | (Throw e, st0) => (Throw e, st0)
     end) →
  caches_body load key url body_of.
Proof.
  intros Hk Hlaw Hrun st st0 st1 response d Hv Hf Hbody. cbv zeta.
  destruct (isCacheValid_frame key st) as (b & r & Hv').
  rewrite Hv in Hv'. injection Hv' as _ ->.
  destruct (fetchWithRetry_frame url (maxRetries (with_reads r st))
              (with_reads r st)) as (n & t & Hst1).
  rewrite Hf in Hst1. simpl in Hst1. subst st1.
  rewrite (Hrun st), Hv, Hf, Hbody. unfold cached. simpl.
  destruct (Hlaw (mkSlot (Some d) (Some (clock st r)))
              (with_reads (S r) (with_trace t (with_fetches n (with_reads r st)))))
    as (Hget & Hfe & Htr & Hcd & _).
  do 5 (split; [done|]).
  intros st2 Hslot Hstamp Hnow. rewrite Hget in Hslot.
  {
    pose proof (isCacheValid_fresh key st2) as Hfresh.
    rewrite Hslot in Hfresh. unfold fresh in Hfresh. simpl in Hfresh.
    destruct (Z.eqb_spec (clock st r) 0) as [|_]; [done|].
    destruct (Z.ltb_spec (clock st2 (reads st2) - clock st r) (cacheDuration st2));
      [|lia]. simpl in Hfresh.
    destruct (isCacheValid_frame key st2) as (b2 & r2 & Hv2).
    rewrite Hv2 in Hfresh. simpl in Hfresh. injection Hfresh as ->.
    rewrite (Hrun st2), Hv2, framed_reads, Hslot by done. done. }
Qed.

Lemma rejects_body_of {A} (load : M State (option A)) key url body_of entry msg
  (on_ok : A → State → Result (option A) * State) :
  framed key →
  (∀ st,
     load st =
     match isCacheValid key st with
     | (Ok true, st0) => (Ok (data (get_slot key st0)), st0)
     | (Ok false, st0) =>
         match fetchWithRetry url (maxRetries st0) st0 with
         | (Ok response, st1) =>
             match body_of (json response) with
             | inl d => on_ok d st1
             | inr e => recover key entry msg e st1
             end
         | (Throw e, st1) => recover key entry msg e st1
         end
     | (Throw e, st0) => (Throw e, st0)
     end) →
  rejects_body load key url body_of entry msg.
Proof.
  intros Hk Hrun st st0 st1 response e Hv Hf Hbody.
  destruct (isCacheValid_frame key st) as (b & r & Hv').
  rewrite Hv in Hv'. injection Hv' as _ ->.
  destruct (fetchWithRetry_frame url (maxRetries (with_reads r st))
              (with_reads r st)) as (n & t & Hst1).
  rewrite Hf in Hst1. simpl in Hst1. subst st1.
  rewrite (Hrun st), Hv, Hf, Hbody. unfold recover.
  rewrite (Hk t n r st). by destruct (data (get_slot key st)).
Qed.

Lemma lawful_content : lawful key_content.
Proof. by intros s st. Qed.
Lemma lawful_recommendations : lawful key_recommendations.
Proof. by intros s st. Qed.
Lemma lawful_config : lawful key_config.
Proof. by intros s st. Qed.

(** X2: [loadContent] and [loadRecommendations] that fetch a well-formed
    body return its array and store it with the clock reading as stamp,
    without logging and without changing the time-to-live; a later load
    that finds the slot so, less than the time-to-live after a stamp other
    than 0, returns the same array with no request. *)
Theorem loads_cache_fetched_data :
  caches_body loadContent key_content url_content content_of
  ∧ caches_body loadRecommendations key_recommendations url_recommendations
      recommendations_of.
Proof.
  split.
  - eapply caches_body_of;
      [done | apply lawful_content | apply loadContent_run].
  - eapply caches_body_of;
      [done | apply lawful_recommendations | apply loadRecommendations_run].
Qed.

(** X3: a response that is ok but whose body does not parse, or lacks the
    expected array (for the configuration: [site], [contentTypes] or
    [ageRatings]), is not requested again: the load falls back to the data
    of the slot, or fails with the wrapped message of the parse or shape
    error when the slot is empty. *)
Theorem loads_do_not_retry_bad_bodies :
  rejects_body loadContent key_content url_content content_of
    ErrorLoadContent msg_content_failed
  ∧ rejects_body loadRecommendations key_recommendations url_recommendations
      recommendations_of ErrorLoadRecommendations msg_recommendations_failed
  ∧ rejects_body loadConfig key_config url_config config_of
      ErrorLoadConfig msg_config_failed.
Proof.
  split; [|split].
  - eapply rejects_body_of; [done | apply loadContent_run].
  - eapply rejects_body_of; [done | apply loadRecommendations_run].
  - eapply rejects_body_of; [done | apply loadConfig_run].
Qed.

End LoaderExtras2.

Section LoaderExtras3.
Import JS Eff Data DataLoader LoaderSpec LoaderSpec2 LoaderSpec3 LoaderSpec4.

Lemma fresh_data {A} (s : Slot A) ttl now :
  fresh s ttl now = true → is_Some (data s).
Proof. unfold fresh. by destruct (data s). Qed.

Ltac load_cases key url st :=
  let b := fresh "b" in let r := fresh "r" in let Hv := fresh "Hv" in
  let Hfresh := fresh "Hfresh" in
  let n := fresh "n" in let t := fresh "t" in let Hst1 := fresh "Hst1" in
  destruct (isCacheValid_frame key st) as (b & r & Hv);
  pose proof (isCacheValid_fresh key st) as Hfresh;
  rewrite Hv in *; simpl in Hfresh;
  destruct b;
  [ injection Hfresh as Hfresh; symmetry in Hfresh; apply fresh_data in Hfresh
  | clear Hfresh;
    destruct (fetchWithRetry_frame url (maxRetries (with_reads r st))
                (with_reads r st)) as (n & t & Hst1);
    destruct (fetchWithRetry url (maxRetries (with_reads r st))
                (with_reads r st)) as [[?response|?e] ?st1];
    simpl in Hst1; subst ].

Lemma loadContent_wf st :
  cache_wf st →
  cache_wf (snd (loadContent st)) ∧ fst (loadContent st) ≠ Ok None.
Proof.
  intros (Hc & Hg & Hr). rewrite loadContent_run.
  load_cases key_content url_content st.
  - simpl in *. split; [done|]. destruct Hfresh as [x ->]. by intros [=].
  - destruct (content_of (json response)) as [items|e]; unfold recover, cached;
      simpl; [|destruct (data (cache_content st)) eqn:E]; simpl;
      (split; [|by intros [=]]); unfold cache_wf, slot_wf in *; simpl in *;
      intuition eauto.
  - unfold recover; simpl; destruct (data (cache_content st)) eqn:E; simpl;
      (split; [|by intros [=]]); unfold cache_wf, slot_wf in *; simpl in *;
      intuition eauto.
Qed.

Lemma loadRecommendations_wf st :
  cache_wf st →
  cache_wf (snd (loadRecommendations st))
  ∧ fst (loadRecommendations st) ≠ Ok None.
Proof.
  intros (Hc & Hg & Hr). rewrite loadRecommendations_run.
  load_cases key_recommendations url_recommendations st.
  - simpl in *. split; [done|]. destruct Hfresh as [x ->]. by intros [=].
  - destruct (recommendations_of (json response)) as [items|e];
      unfold recover, cached;
      simpl; [|destruct (data (cache_recommendations st)) eqn:E]; simpl;
      (split; [|by intros [=]]); unfold cache_wf, slot_wf in *; simpl in *;
      intuition eauto.
  - unfold recover; simpl; destruct (data (cache_recommendations st)) eqn:E;
      simpl; (split; [|by intros [=]]); unfold cache_wf, slot_wf in *; simpl in *;
      intuition eauto.
Qed.

Lemma loadConfig_wf st :
  cache_wf st →
  cache_wf (snd (loadConfig st)) ∧ fst (loadConfig st) ≠ Ok None.
Proof.
  intros (Hc & Hg & Hr). rewrite loadConfig_run.
  load_cases key_config url_config st.
  - simpl in *. split; [done|]. destruct Hfresh as [x ->]. by intros [=].
  - destruct (config_of (json response)) as [d|e];
      unfold recover, cached, with_override;
      simpl; [destruct (cacheDuration_override d)
             |destruct (data (cache_config st)) eqn:E]; simpl;
      (split; [|by intros [=]]); unfold cache_wf, slot_wf in *; simpl in *;
      intuition eauto.
  - unfold recover; simpl; destruct (data (cache_config st)) eqn:E; simpl;
      (split; [|by intros [=]]); unfold cache_wf, slot_wf in *; simpl in *;
      intuition eauto.
Qed.

(** X4: in a loader whose slots hold data exactly when they hold a
    timestamp, as in a new loader, every load and every clearing of the
    cache keeps the slots so, and no load returns [null]. *)
Theorem loads_keep_slots_well_formed :
  (∀ transport clock, cache_wf (constructor transport clock))
  ∧ ∀ st,
      cache_wf st →
      (cache_wf (snd (loadContent st)) ∧ fst (loadContent st) ≠ Ok None)
      ∧ (cache_wf (snd (loadRecommendations st))
         ∧ fst (loadRecommendations st) ≠ Ok None)
      ∧ (cache_wf (snd (loadConfig st)) ∧ fst (loadConfig st) ≠ Ok None)
      ∧ cache_wf (snd (clearCache st))
      ∧ cache_wf (snd (clearCacheByKey key_content st))
      ∧ cache_wf (snd (clearCacheByKey key_config st))
      ∧ cache_wf (snd (clearCacheByKey key_recommendations st)).
Proof.
  split.
  { intros. unfold cache_wf, slot_wf, constructor. simpl.
    repeat split; by intros [? [=]]. }
  intros st Hwf.
  split; [by apply loadContent_wf|].
  split; [by apply loadRecommendations_wf|].
  split; [by apply loadConfig_wf|].
  unfold cache_wf, slot_wf, clearCache, clearCacheByKey in *. run. simpl.
  repeat split; try (by intros [? [=]]); intuition eauto.
Qed.

End LoaderExtras3.

Section LoaderExtras4.
Import JS Eff Data DataLoader LoaderSpec LoaderSpec2 LoaderSpec3 LoaderSpec4.

Lemma fetchWithRetry_fetches url retries st :
  (fetches st < fetches (snd (fetchWithRetry url retries st))
   ≤ fetches st + S retries)%nat.
Proof.
  revert st; induction retries as [|r IH]; intros st;
    rewrite fetchWithRetry_step; cbv zeta.
  - destruct (transport st (fetches st) url) as [resp|e];
      [destruct (ok resp)|]; simpl; lia.
  - pose proof (IH (after_wait (S r) (after_request url st))) as Hr.
    replace (fetches (after_wait (S r) (after_request url st)))
      with (S (fetches st)) in Hr by done.
    destruct (transport st (fetches st) url) as [resp|e];
      [destruct (ok resp)|]; simpl; lia.
Qed.

Ltac load_cases key url st :=
  let b := fresh "b" in let r := fresh "r" in let Hv := fresh "Hv" in
  let Hfresh := fresh "Hfresh" in let Hn := fresh "Hn" in
  let n := fresh "n" in let t := fresh "t" in let Hst1 := fresh "Hst1" in
  destruct (isCacheValid_frame key st) as (b & r & Hv);
  pose proof (isCacheValid_fresh key st) as Hfresh;
  rewrite Hv in *; simpl in Hfresh;
  destruct b;
  [ injection Hfresh as Hfresh; symmetry in Hfresh
  | clear Hfresh;
    pose proof (fetchWithRetry_fetches url (maxRetries (with_reads r st))
                  (with_reads r st)) as Hn;
    destruct (fetchWithRetry_frame url (maxRetries (with_reads r st))
                (with_reads r st)) as (n & t & Hst1);
    destruct (fetchWithRetry url (maxRetries (with_reads r st))
                (with_reads r st)) as [[?response|?e] ?st1];
    simpl in Hst1; subst; simpl in Hn ].

(** What a load may change besides its own slot: the counters, the trace
    and, for the configuration, the time-to-live. *)
Lemma loadContent_frame st :
  let st' := snd (loadContent st) in
  cache_config st' = cache_config st
  ∧ cache_recommendations st' = cache_recommendations st
  ∧ cacheDuration st' = cacheDuration st
  ∧ maxRetries st' = maxRetries st ∧ retryDelay st' = retryDelay st
  ∧ (fst (isCacheValid key_content st) = Ok true → fetches st' = fetches st)
  ∧ (fst (isCacheValid key_content st) = Ok false →
     fetches st < fetches st' ≤ fetches st + S (maxRetries st))%nat.
Proof.
  cbv zeta. rewrite loadContent_run. load_cases key_content url_content st.
  - simpl. repeat split; simpl; try done; try (by intros [=]); lia.
  - destruct (content_of (json response)) as [items|e]; unfold recover, cached;
      simpl; [|destruct (data (cache_content st))]; simpl;
      repeat split; simpl; try done; try (by intros [=]); lia.
  - unfold recover; simpl; destruct (data (cache_content st)); simpl;
      repeat split; simpl; try done; try (by intros [=]); lia.
Qed.

Lemma loadRecommendations_frame st :
  let st' := snd (loadRecommendations st) in
  cache_content st' = cache_content st
  ∧ cache_config st' = cache_config st
  ∧ cacheDuration st' = cacheDuration st
  ∧ maxRetries st' = maxRetries st ∧ retryDelay st' = retryDelay st
  ∧ (fst (isCacheValid key_recommendations st) = Ok true →
     fetches st' = fetches st)
  ∧ (fst (isCacheValid key_recommendations st) = Ok false →
     fetches st < fetches st' ≤ fetches st + S (maxRetries st))%nat.
Proof.
  cbv zeta. rewrite loadRecommendations_run.
  load_cases key_recommendations url_recommendations st.
  - simpl. repeat split; simpl; try done; try (by intros [=]); lia.
  - destruct (recommendations_of (json response)) as [items|e];
      unfold recover, cached;
      simpl; [|destruct (data (cache_recommendations st))]; simpl;
      repeat split; simpl; try done; try (by intros [=]); lia.
  - unfold recover; simpl; destruct (data (cache_recommendations st)); simpl;
      repeat split; simpl; try done; try (by intros [=]); lia.
Qed.

Lemma loadConfig_frame st :
  let st' := snd (loadConfig st) in
  cache_content st' = cache_content st
  ∧ cache_recommendations st' = cache_recommendations st
  ∧ maxRetries st' = maxRetries st ∧ retryDelay st' = retryDelay st
  ∧ (fst (isCacheValid key_config st) = Ok true →
     fetches st' = fetches st ∧ cacheDuration st' = cacheDuration st)
  ∧ (fst (isCacheValid key_config st) = Ok false →
     fetches st < fetches st' ≤ fetches st + S (maxRetries st))%nat.
Proof.
  cbv zeta. rewrite loadConfig_run. load_cases key_config url_config st.
  - simpl. repeat split; simpl; try done; try (by intros [=]); lia.
  - destruct (config_of (json response)) as [d|e];
      unfold recover, cached, with_override;
      simpl; [destruct (cacheDuration_override d)
             |destruct (data (cache_config st))]; simpl;
      repeat split; simpl; try done; try (by intros [=]); lia.
  - unfold recover; simpl; destruct (data (cache_config st)); simpl;
      repeat split; simpl; try done; try (by intros [=]); lia.
Qed.

(** X5: whatever the transport answers, [fetchWithRetry] makes at least one
    request and at most [retries + 1]; a load makes none when its slot is
    valid, and between one and [maxRetries + 1] otherwise. *)
Theorem request_budget :
  (∀ url retries st,
     (fetches st < fetches (snd (fetchWithRetry url retries st))
      ≤ fetches st + S retries)%nat)
  ∧ ∀ st,
      (fst (isCacheValid key_content st) = Ok true →
       fetches (snd (loadContent st)) = fetches st)
      ∧ (fst (isCacheValid key_content st) = Ok false →
         fetches st < fetches (snd (loadContent st))
         ≤ fetches st + S (maxRetries st))%nat
      ∧ (fst (isCacheValid key_recommendations st) = Ok true →
         fetches (snd (loadRecommendations st)) = fetches st)
      ∧ (fst (isCacheValid key_recommendations st) = Ok false →
         fetches st < fetches (snd (loadRecommendations st))
         ≤ fetches st + S (maxRetries st))%nat
      ∧ (fst (isCacheValid key_config st) = Ok true →
         fetches (snd (loadConfig st)) = fetches st)
      ∧ (fst (isCacheValid key_config st) = Ok false →
         fetches st < fetches (snd (loadConfig st))
         ≤ fetches st + S (maxRetries st))%nat.
Proof.
  split; [apply fetchWithRetry_fetches|]. intros st.
  destruct (loadContent_frame st) as (_ & _ & _ & _ & _ & Hc1 & Hc2).
  destruct (loadRecommendations_frame st) as (_ & _ & _ & _ & _ & Hr1 & Hr2).
  destruct (loadConfig_frame st) as (_ & _ & _ & _ & Hg1 & Hg2).
  repeat split; try done; try (by apply Hc2); try (by apply Hr2);
    try (by apply Hg2). by apply Hg1.
Qed.

(** X6: a load leaves the slots of the other two datasets, [maxRetries] and
    [retryDelay] as they are; only [loadConfig] can change the
    time-to-live, and it does not when it is served from the cache. *)
Theorem loads_touch_their_own_slot st :
  (cache_config (snd (loadContent st)) = cache_config st
   ∧ cache_recommendations (snd (loadContent st)) = cache_recommendations st
   ∧ cacheDuration (snd (loadContent st)) = cacheDuration st
   ∧ maxRetries (snd (loadContent st)) = maxRetries st
   ∧ retryDelay (snd (loadContent st)) = retryDelay st)
  ∧ (cache_content (snd (loadRecommendations st)) = cache_content st
     ∧ cache_config (snd (loadRecommendations st)) = cache_config st
     ∧ cacheDuration (snd (loadRecommendations st)) = cacheDuration st
     ∧ maxRetries (snd (loadRecommendations st)) = maxRetries st
     ∧ retryDelay (snd (loadRecommendations st)) = retryDelay st)
  ∧ (cache_content (snd (loadConfig st)) = cache_content st
     ∧ cache_recommendations (snd (loadConfig st)) = cache_recommendations st
     ∧ maxRetries (snd (loadConfig st)) = maxRetries st
     ∧ retryDelay (snd (loadConfig st)) = retryDelay st
     ∧ (fst (isCacheValid key_config st) = Ok true →
        cacheDuration (snd (loadConfig st)) = cacheDuration st)).
Proof.
  destruct (loadContent_frame st) as (? & ? & ? & ? & ? & _).
  destruct (loadRecommendations_frame st) as (? & ? & ? & ? & ? & _).
  destruct (loadConfig_frame st) as (? & ? & ? & ? & Hg & _).
  repeat split; try done. intros Hv. by apply Hg.
Qed.

End LoaderExtras4.

Section LoaderExtras5.
Import JS Eff Data DataLoader LoaderSpec LoaderSpec2 LoaderSpec3 LoaderSpec4
  RecommendSpec.

(** X7: [getContentById] fails at once, without touching the loader, when
    the id is empty; otherwise, when [loadContent] returns the items, it
    returns the first item that has the id, or [null] when none has it; and
    when [loadContent] fails it logs the error and throws the same error. *)
Theorem getContentById_lookup id st :
  getContentById [] st = (Throw (mkError msg_id_empty), st)
  ∧ (id ≠ [] →
     ∀ items st',
       loadContent st = (Ok (Some items), st') →
       ∃ found,
         getContentById id st = (Ok found, st')
         ∧ match found with
           | Some item => first_with_id items id item
           | None => ∀ c, c ∈ items → item_id c ≠ id
           end)
  ∧ (id ≠ [] →
     ∀ e st',
       loadContent st = (Throw e, st') →
       getContentById id st
       = (Throw e, with_trace (trace st' ++ [EConsole (ErrorGetContent id e)]) st')).
Proof.
  split; [done|]. split.
  - intros Hid items st' Hload. eexists. split.
    + unfold getContentById, non_null. destruct id; [done|]. run.
      by rewrite Hload.
    + destruct (JS.find _ items) as [item|] eqn:Hfind.
      * apply find_Some in Hfind as (pre & post & -> & Hx & Hpre).
        exists pre, post. repeat split; [by apply str_eqb_eq|].
        intros c Hc. by apply str_eqb_neq, Hpre.
      * intros c Hc. by apply str_eqb_neq, (find_None _ _ Hfind).
  - intros Hid e st' Hload.
    unfold getContentById. destruct id; [done|]. run. by rewrite Hload.
Qed.

Lemma filter_sublist {A} (p : A → bool) l : List.filter p l `sublist_of` l.
Proof.
  induction l as [|x l IH]; simpl; [constructor|].
  destruct (p x); by constructor.
Qed.

Lemma filter_partition {A} (p : A → bool) l :
  Permutation l (List.filter p l ++ List.filter (fun x => negb (p x)) l).
Proof.
  induction l as [|x l IH]; simpl; [done|].
  destruct (p x); simpl; [by constructor|].
  rewrite <- Permutation_middle. by constructor.
Qed.

(** X8: [getContentByType] fails at once, without touching the loader, when
    the type is empty; otherwise, when [loadContent] returns the items, it
    returns all the items of that type and no other, in the order of the
    dataset (an empty list when there is none); and when [loadContent]
    fails it logs the error and throws the same error. *)
Theorem getContentByType_filters type st :
  getContentByType [] st = (Throw (mkError msg_type_empty), st)
  ∧ (type ≠ [] →
     ∀ items st',
       loadContent st = (Ok (Some items), st') →
       ∃ found others,
         getContentByType type st = (Ok found, st')
         ∧ found `sublist_of` items
         ∧ Permutation items (found ++ others)
         ∧ Forall (fun c => item_type c = type) found
         ∧ Forall (fun c => item_type c ≠ type) others)
  ∧ (type ≠ [] →
     ∀ e st',
       loadContent st = (Throw e, st') →
       getContentByType type st
       = (Throw e, with_trace (trace st' ++ [EConsole (ErrorGetByType type e)]) st')).
Proof.
  split; [done|]. split.
  - intros Hty items st' Hload. eexists _, _. split; [|split; [|split; [|split]]].
    + unfold getContentByType, non_null. destruct type; [done|]. run.
      by rewrite Hload.
    + apply filter_sublist.
    + apply filter_partition.
    + apply Forall_forall. intros c Hc%list_elem_of_In%filter_In.
      destruct Hc as [_ Hc]. by apply str_eqb_eq.
    + apply Forall_forall. intros c Hc%list_elem_of_In%filter_In.
      destruct Hc as [_ Hc]. apply negb_true_iff in Hc. by apply str_eqb_neq.
  - intros Hty e st' Hload.
    unfold getContentByType. destruct type; [done|]. run. by rewrite Hload.
Qed.

(** X9: after [clearCache] no slot holds data, so that against a transport
    that always fails every load throws the wrapped error, whatever the
    slots held before; [clearCacheByKey] empties one slot and leaves the
    other two as they are. *)
Theorem clearCache_drops_the_fallback st :
  (∀ n url, failed (transport st n url)) →
  let st' := snd (clearCache st) in
  cache_content st' = mkSlot None None
  ∧ cache_config st' = mkSlot None None
  ∧ cache_recommendations st' = mkSlot None None
  ∧ fst (loadContent st')
    = Throw (mkError (msg_content_failed ++ message
        (attempt_error (transport st (fetches st + maxRetries st)%nat
                          url_content))))
  ∧ fst (loadRecommendations st')
    = Throw (mkError (msg_recommendations_failed ++ message
        (attempt_error (transport st (fetches st + maxRetries st)%nat
                          url_recommendations))))
  ∧ fst (loadConfig st')
    = Throw (mkError (msg_config_failed ++ message
        (attempt_error (transport st (fetches st + maxRetries st)%nat
                          url_config))))
  ∧ (let st1 := snd (clearCacheByKey key_content st) in
     cache_content st1 = mkSlot None None
     ∧ cache_config st1 = cache_config st
     ∧ cache_recommendations st1 = cache_recommendations st).
Proof.
  intros Hfail st'.
  assert (Hrun : ∀ {A} (load : M State (option A)) key url entry msg,
    retry_bound load key url msg entry →
    get_slot key st' = mkSlot None None →
    transport st' = transport st → fetches st' = fetches st →
    maxRetries st' = maxRetries st →
    fst (load st')
    = Throw (mkError (msg ++ message
        (attempt_error (transport st (fetches st + maxRetries st)%nat url))))).
  { intros A load key url entry msg Hb Hslot Ht Hf Hm.
    destruct (Hb st') as (_ & _ & Hthrow).
    - intros n. rewrite Ht. apply Hfail.
    - by rewrite isCacheValid_fresh, Hslot.
    - rewrite Hslot in Hthrow. rewrite Hthrow by done. by rewrite Ht, Hf, Hm. }
  do 3 (split; [done|]).
  split; [|split; [|split]].
  - apply (Hrun _ loadContent key_content url_content ErrorLoadContent);
      try done.
    eapply retry_bound_of; [done | apply loadContent_fails].
  - apply (Hrun _ loadRecommendations key_recommendations url_recommendations
             ErrorLoadRecommendations); try done.
    eapply retry_bound_of; [done | apply loadRecommendations_fails].
  - apply (Hrun _ loadConfig key_config url_config ErrorLoadConfig); try done.
    eapply retry_bound_of; [done | apply loadConfig_fails].
  - done.
Qed.

(** X10: a slot whose timestamp is 0 is never valid, whatever its data, the
    time-to-live and the clock: [setCache] at a clock reading of 0 stores
    data that no later check accepts. *)
Theorem stamp_zero_is_never_valid {A} (key : Key A) (d : A) st :
  lawful key →
  clock st (reads st) = 0 →
  get_slot key (snd (setCache key d st)) = mkSlot (Some d) (Some 0)
  ∧ ∀ st',
      get_slot key st' = get_slot key (snd (setCache key d st)) →
      isCacheValid key st' = (Ok false, st').
Proof.
  intros Hlaw Hclock.
  assert (Hslot : get_slot key (snd (setCache key d st))
                  = mkSlot (Some d) (Some 0)).
  { unfold setCache. run. simpl. rewrite Hclock. apply Hlaw. }
  split; [done|]. intros st' Hst'.
  by rewrite isCacheValid_run, Hst', Hslot.
Qed.

End LoaderExtras5.

Section RegexProofs.
Import JS Eff Router RouterSpec RouterSpec2.

Lemma regex_match_group_eq r' c s :
  regex_match (AGroup :: r') (c :: s) =
  if N.eqb c 47 then None
  else
    match regex_match (AGroup :: r') s with
    | Some (g :: gs) => Some ((c :: g) :: gs)
    | _ =>
        match regex_match r' s with
        | Some gs => Some ([c] :: gs)
        | None => None
        end
    end.
Proof. reflexivity. Qed.

Lemma regex_match_group_step r' c s gs :
  regex_match (AGroup :: r') (c :: s) = Some gs →
  c ≠ 47%N ∧
  ((∃ g gs', regex_match (AGroup :: r') s = Some (g :: gs') ∧ gs = (c :: g) :: gs')
   ∨ (∃ gs', regex_match r' s = Some gs' ∧ gs = [c] :: gs')).
Proof.
  rewrite regex_match_group_eq. destruct (N.eqb_spec c 47) as [|Hc]; [done|].
  intros H. split; [done|].
  destruct (regex_match (AGroup :: r') s) as [[|g gs']|] eqn:E.
  - right. destruct (regex_match r' s) as [gs'|]; [|done].
    injection H as <-. eauto.
  - left. injection H as <-. by exists g, gs'.
  - right. destruct (regex_match r' s) as [gs'|]; [|done].
    injection H as <-. eauto.
Qed.

Lemma regex_match_sound r s gs :
  regex_match r s = Some gs →
  s = fill r gs ∧ length gs = count_groups r ∧ Forall segment gs.
Proof.
  revert s gs; induction r as [|[c|] r IH]; intros s gs.
  - destruct s; [|done]. intros [= <-]. repeat split; constructor.
  - destruct s as [|c' s]; [done|]. simpl.
    destruct (N.eqb_spec c c') as [<-|]; [|done].
    intros (-> & Hl & Hs)%IH. done.
  - revert gs; induction s as [|c s IHs]; intros gs; [done|].
    intros (Hc & [(g & gs' & Hm & ->) | (gs' & Hm & ->)])%regex_match_group_step.
    + apply IHs in Hm as (Hfill & Hlen & Hseg). simpl in *.
      inversion Hseg as [|? ? [Hg1 Hg2] Hseg']; subst.
      split; [done|]. split; [done|].
      constructor; [|done]. split; [done | by constructor].
    + apply IH in Hm as (-> & Hlen & Hseg). simpl.
      split; [done|]. split; [by rewrite Hlen|].
      constructor; [|done]. split; [done | by repeat constructor].
Qed.

Lemma regex_match_group_complete r' g rest :
  segment g →
  is_Some (regex_match r' rest) →
  is_Some (regex_match (AGroup :: r') (g ++ rest)).
Proof.
  intros [Hne Hg] Hrest. induction Hg as [|c g Hc Hg IH]; [done|].
  cbn [app]. rewrite regex_match_group_eq.
  destruct (N.eqb_spec c 47) as [|_]; [done|].
  destruct g as [|c' g].
  - simpl app. destruct Hrest as [gs ->].
    by destruct (regex_match (AGroup :: r') rest) as [[|? ?]|].
  - destruct (IH ltac:(done)) as [gs Hgs]. rewrite Hgs.
    apply regex_match_sound in Hgs as (_ & Hlen & _).
    by destruct gs.
Qed.

Lemma regex_match_complete r gs :
  length gs = count_groups r → Forall segment gs →
  is_Some (regex_match r (fill r gs)).
Proof.
  revert gs; induction r as [|[c|] r IH]; intros gs Hlen Hseg.
  - done.
  - simpl. rewrite N.eqb_refl. by apply IH.
  - destruct gs as [|g gs]; [done|]. simpl in Hlen.
    inversion Hseg; subst. cbn [fill].
    apply regex_match_group_complete; [done|]. apply IH; [lia|done].
Qed.

(** X11: a path matches the regex of a route exactly when it is the regex
    with each group replaced by one or more code units other than a slash:
    a match covers the whole path, gives one captured group per group of
    the regex, and no captured group is empty or contains a slash. *)
Theorem regex_match_whole_path r s :
  is_Some (regex_match r s)
  ↔ ∃ gs, s = fill r gs ∧ length gs = count_groups r ∧ Forall segment gs.
Proof.
  split.
  - intros [gs Hm]. exists gs. by apply regex_match_sound.
  - intros (gs & -> & Hlen & Hseg). by apply regex_match_complete.
Qed.

End RegexProofs.

Section RegisterProofs.
Import JS Eff Router RouterSpec RouterSpec2 PatternSpec.

Lemma render_lit c toks : render (TLit c :: toks) = c :: render toks.
Proof. reflexivity. Qed.
Lemma render_param n toks :
  render (TParam n :: toks) = 58%N :: n ++ render toks.
Proof. reflexivity. Qed.
Lemma escaped_lit c toks :
  escaped (TLit c :: toks)
  = (if N.eqb c 47 then [92; 47]%N else [c]) ++ escaped toks.
Proof. reflexivity. Qed.
Lemma escaped_param n toks :
  escaped (TParam n :: toks) = 58%N :: n ++ escaped toks.
Proof. reflexivity. Qed.
Lemma source_lit c toks :
  source (TLit c :: toks)
  = (if N.eqb c 47 then [92; 47]%N else [c]) ++ source toks.
Proof. reflexivity. Qed.
Lemma source_param n toks :
  source (TParam n :: toks) = group_src ++ source toks.
Proof. reflexivity. Qed.

Lemma escape_slashes_cons c s :
  escape_slashes (c :: s)
  = (if N.eqb c 47 then [92; 47]%N else [c]) ++ escape_slashes s.
Proof. reflexivity. Qed.

Lemma escape_slashes_app a b :
  escape_slashes (a ++ b) = escape_slashes a ++ escape_slashes b.
Proof. unfold escape_slashes. by rewrite flat_map_app. Qed.

Lemma is_word_not_slash c : is_word c = true → N.eqb c 47 = false.
Proof.
  intros H. destruct (N.eqb_spec c 47) as [->|]; [|done]. by vm_compute in H.
Qed.

Lemma escape_slashes_word n :
  Forall (fun c => is_word c = true) n → escape_slashes n = n.
Proof.
  induction 1 as [|c n Hc _ IH]; [done|].
  rewrite escape_slashes_cons, (is_word_not_slash c Hc), IH. done.
Qed.

Lemma escape_slashes_render toks :
  well_formed toks → escape_slashes (render toks) = escaped toks.
Proof.
  induction toks as [|[c|n] toks IH]; [done| |].
  - intros (_ & _ & Hwf).
    by rewrite render_lit, escaped_lit, escape_slashes_cons, IH.
  - intros (_ & Hn & _ & Hwf).
    rewrite render_param, escaped_param, escape_slashes_cons.
    change (N.eqb 58 47) with false. cbv iota.
    by rewrite escape_slashes_app, escape_slashes_word, IH.
Qed.

Lemma replace_params_name n rest acc :
  Forall (fun c => is_word c = true) n →
  replace_params (n ++ rest) (Some acc)
  = replace_params rest (Some (rev n ++ acc)).
Proof.
  intros Hn; revert acc; induction Hn as [|c n Hc _ IH]; intros acc; [done|].
  simpl. rewrite Hc, IH. by rewrite <- app_assoc.
Qed.

Lemma syntax_char_facts c :
  is_syntax_char c = false →
  c ≠ 36%N ∧ c ≠ 40%N ∧ c ≠ 92%N.
Proof.
  intros H. repeat split; intros ->; by vm_compute in H.
Qed.

Lemma replace_params_None_cons c s :
  c ≠ 58%N →
  replace_params (c :: s) None
  = (c :: fst (replace_params s None), snd (replace_params s None)).
Proof.
  intros Hc. simpl. destruct (N.eqb_spec c 58) as [|_]; [done|].
  by destruct (replace_params s None).
Qed.

Lemma replace_params_Some_cons c s a acc :
  is_word c = false → c ≠ 58%N →
  replace_params (c :: s) (Some (a :: acc))
  = (group_src ++ c :: fst (replace_params s None),
     rev (a :: acc) :: snd (replace_params s None)).
Proof.
  intros Hw Hc. cbn [replace_params]. rewrite Hw.
  destruct (N.eqb_spec c 58) as [|_]; [done|].
  cbn [flush_name]. by destruct (replace_params s None).
Qed.

Lemma replace_params_Some_colon s a acc :
  replace_params (58%N :: s) (Some (a :: acc))
  = (group_src ++ fst (replace_params s (Some [])),
     rev (a :: acc) :: snd (replace_params s (Some []))).
Proof.
  cbn [replace_params]. change (is_word 58) with false. cbv iota.
  change (N.eqb 58 58) with true. cbv iota.
  cbn [flush_name]. by destruct (replace_params s (Some [])).
Qed.

Lemma rev_nonempty {A} (l : list A) : l ≠ [] → ∃ a acc, rev l = a :: acc.
Proof.
  intros Hl. destruct (rev l) as [|a acc] eqn:E; [|eauto].
  apply (f_equal (@rev A)) in E. rewrite rev_involutive in E. done.
Qed.

Lemma replace_params_escaped toks :
  well_formed toks →
  replace_params (escaped toks) None = (source toks, names_of toks)
  ∧ ∀ a acc,
      match toks with TLit c :: _ => is_word c = false | _ => True end →
      replace_params (escaped toks) (Some (a :: acc))
      = (group_src ++ source toks, rev (a :: acc) :: names_of toks).
Proof.
  induction toks as [|[c|n] toks IH].
  - intros _. split; [done|]. intros a acc _.
    cbn [escaped source names_of flat_map replace_params flush_name].
    by rewrite app_nil_r.
  - intros (Hsyn & Hcolon & Hwf). destruct (IH Hwf) as [IH0 _].
    apply syntax_char_facts in Hsyn as (_ & _ & Hbs).
    rewrite escaped_lit, source_lit.
    destruct (N.eqb_spec c 47) as [->|Hslash]; cbn [app].
    + split.
      * rewrite !replace_params_None_cons, IH0 by done. done.
      * intros a acc _.
        rewrite replace_params_Some_cons, replace_params_None_cons, IH0 by done.
        done.
    + split.
      * rewrite replace_params_None_cons, IH0 by done. done.
      * intros a acc Hw.
        rewrite replace_params_Some_cons, IH0 by done. done.
  - intros (Hne & Hn & Hnext & Hwf). destruct (IH Hwf) as [IH0 IH1].
    rewrite escaped_param, source_param.
    destruct (rev_nonempty n Hne) as (a' & acc' & Hrev).
    assert (Hname : replace_params (n ++ escaped toks) (Some [])
                    = (group_src ++ source toks, n :: names_of toks)).
    { rewrite (replace_params_name n _ []), app_nil_r, Hrev by done.
      rewrite IH1 by (by destruct toks as [|[]]).
      by rewrite <- Hrev, rev_involutive. }
    split.
    + cbn [replace_params]. change (N.eqb 58 58) with true. cbv iota.
      by rewrite Hname.
    + intros a acc _. rewrite replace_params_Some_colon, Hname. done.
Qed.

Lemma parse_atoms_source toks :
  well_formed toks →
  parse_atoms (source toks ++ [36%N]) 0 = Some (map atom_of toks).
Proof.
  induction toks as [|[c|n] toks IH].
  - done.
  - intros (Hsyn & Hcolon & Hwf).
    pose proof (syntax_char_facts c Hsyn) as (Hd & Hp & Hb).
    rewrite source_lit.
    destruct (N.eqb_spec c 47) as [->|Hslash]; cbn [app].
    + change group_src with [40; 91; 94; 92; 47; 93; 43; 41]%N.
      cbn [parse_atoms starts_with N.eqb Pos.eqb andb option_map].
      change (is_syntax_char 92) with true. cbv iota.
      rewrite IH by done. done.
    + cbn [parse_atoms].
      destruct (N.eqb_spec c 36) as [|_]; [done|].
      assert (Hsw : ∀ s, starts_with group_src (c :: s) = false).
      { intros s.
        change group_src with [40; 91; 94; 92; 47; 93; 43; 41]%N.
        cbn [starts_with]. by destruct (N.eqb_spec 40 c) as [<-|]. }
      rewrite Hsw. destruct (N.eqb_spec c 92) as [|_]; [done|].
      rewrite Hsyn, IH by done. done.
  - intros (Hne & Hn & Hnext & Hwf). rewrite source_param.
    change group_src with [40; 91; 94; 92; 47; 93; 43; 41]%N.
    cbn [app parse_atoms starts_with N.eqb Pos.eqb andb option_map].
    rewrite IH by done. done.
Qed.

(** X12: for a pattern made of literal code units (neither a colon nor a
    character of the regex syntax) and of parameters [:name], [register]
    appends, after the routes already registered, a route whose regex has
    one literal per literal and one group per parameter, and whose
    parameter names are the names in the order of the pattern. *)
Theorem register_compiles_pattern {Page} toks (h : Handler Page)
  (st : State Page) :
  well_formed toks →
  register (render toks) h st
  = Some (with_routes
            (routes st ++
             [{| pattern := render toks;
                 regex := map atom_of toks;
                 paramNames := names_of toks;
                 handler := h |}])
            st).
Proof.
  intros Hwf. unfold register.
  rewrite escape_slashes_render by done.
  destruct (replace_params_escaped toks Hwf) as [-> _].
  change (js "^") with [94%N]. change (js "$") with [36%N].
  unfold RegExp. cbn [app]. by rewrite parse_atoms_source.
Qed.

End RegisterProofs.

Section RouterExtras.
Import JS Eff Router RouterSpec RouterSpec2 RouterSpec3.
Context {Page : Type} {dom : Dom Page}.
Implicit Types (st : State Page) (route : Route Page).

Lemma bind_params_bound names groups acc st :
  bind_params names groups acc st
  = (match bound names groups acc with
     | Some p => Ok p
     | None => Throw uri_error
     end, st).
Proof.
  revert groups acc; induction names as [|name names IH]; intros groups acc;
    simpl; [done|].
  by destruct (decodeURIComponent _).
Qed.

Lemma bound_fails names groups acc :
  length names = length groups →
  Exists (fun g => decodeURIComponent g = None) groups →
  bound names groups acc = None.
Proof.
  revert groups acc; induction names as [|name names IH];
    intros [|g groups] acc Hlen Hex; try done.
  - by apply Exists_nil in Hex.
  - simpl. destruct (decodeURIComponent g) as [v|] eqn:Hg; [|done].
    apply IH; [by injection Hlen|].
    apply Exists_cons in Hex as [Hex|Hex]; [congruence|done].
Qed.

Lemma dispatch_unmatched (rs : list (Route Page)) path :
  Forall (fun r => ¬ matches path r) rs →
  Forall (fun r => regex_match (regex r) path = None) rs.
Proof.
  intros H. eapply Forall_impl; [exact H|]. intros r Hr. unfold matches in Hr.
  simpl in *. destruct (regex_match (regex r) path); [|done]. by destruct Hr.
Qed.

(** X13: when no registered route matches the path, and so after
    [clearRoutes] for every path, [handleRoute] returns normally and no
    handler runs: the warning is logged, [handle404] writes its notice into
    the first [main] element of the document, into the body when there is
    no [main], and nowhere when there is neither; the routes are unchanged
    and the parameters of the last matched route stay current (after
    [clearRoutes] there are none). *)
Theorem handleRoute_not_found st :
  (Forall (fun r => ¬ matches (pathname st) r) (routes st) →
   ∃ st',
     handleRoute st = (Ok tt, st')
     ∧ currentParams st' = currentParams st
     ∧ page st' = show_not_found (page st)
     ∧ routes st' = routes st
     ∧ trace st' = trace st ++ [WarnNoRoute (pathname st); Render404])
  ∧ (∃ st',
       handleRoute (snd (clearRoutes st)) = (Ok tt, st')
       ∧ currentParams st' = ∅
       ∧ page st' = show_not_found (page st)
       ∧ routes st' = []
       ∧ trace st' = trace st ++ [WarnNoRoute (pathname st); Render404])
  ∧ (∀ main, querySelector_main (page st) = Some main →
       show_not_found (page st)
       = set_innerHTML main not_found_html (page st))
  ∧ (∀ body, querySelector_main (page st) = None →
       document_body (page st) = Some body →
       show_not_found (page st)
       = set_innerHTML body not_found_html (page st))
  ∧ (querySelector_main (page st) = None →
     document_body (page st) = None →
     show_not_found (page st) = page st).
Proof.
  split; [|split; [|split; [|split]]].
  - intros Hno. exists (not_found st). split; [|done].
    unfold handleRoute. run_router.
    apply dispatch_none; [|done]. by apply dispatch_unmatched.
  - exists (not_found (snd (clearRoutes st))). split; [|done].
    unfold handleRoute. run_router. by apply dispatch_none.
  - intros main Hm. unfold show_not_found. by rewrite Hm.
  - intros body Hm Hb. unfold show_not_found. by rewrite Hm, Hb.
  - intros Hm Hb. unfold show_not_found. by rewrite Hm, Hb.
Qed.

(** X14: when a group captured by the first matching route is not a valid
    percent-encoding, [handleRoute] throws the URIError of
    [decodeURIComponent]: the handler does not run, nothing is logged and
    the router is left as it was. *)
Theorem handleRoute_malformed_escape st pre route post groups :
  routes st = pre ++ route :: post →
  Forall (fun r => ¬ matches (pathname st) r) pre →
  regex_match (regex route) (pathname st) = Some groups →
  length (paramNames route) = length groups →
  Exists (fun g => decodeURIComponent g = None) groups →
  handleRoute st = (Throw uri_error, st).
Proof.
  intros Hrs Hpre Hm Hlen Hex. unfold handleRoute. run_router. rewrite Hrs.
  rewrite dispatch_skip by (by apply dispatch_unmatched).
  simpl. rewrite Hm. run_router.
  by rewrite bind_params_bound, bound_fails.
Qed.

Lemma dispatch_matched_app (rs extra : list (Route Page)) path st :
  Exists (matches path) rs →
  dispatch (rs ++ extra) path st = dispatch rs path st.
Proof.
  induction 1 as [r rs [gs Hr]|r rs _ IH]; simpl.
  - by rewrite Hr.
  - destruct (regex_match (regex r) path); [done | exact IH].
Qed.

Lemma dispatch_routes (rs : list (Route Page)) path R st :
  Exists (matches path) rs →
  dispatch rs path (with_routes R st)
  = (fst (dispatch rs path st), with_routes R (snd (dispatch rs path st))).
Proof.
  induction 1 as [r rs [gs Hr]|r rs _ IH]; simpl.
  - rewrite Hr. run_router. rewrite !bind_params_bound.
    destruct (bound _ _ _) as [params|]; [|done]. simpl.
    unfold view. simpl.
    by destruct (handler r params _ _) as [doc' [error|]].
  - destruct (regex_match (regex r) path) as [gs|] eqn:Hr; [|exact IH].
    run_router. rewrite !bind_params_bound.
    destruct (bound _ _ _) as [params|]; [|done]. simpl.
    unfold view. simpl.
    by destruct (handler r params _ _) as [doc' [error|]].
Qed.

(** X15: [register] adds the route after the routes already there, so a
    path that a route registered earlier matches is handled as before: the
    result, the parameters, the effect of the handler and the console are
    those of the router without the new route. *)
Theorem register_keeps_precedence st st' pattern_ (h : Handler Page) :
  register pattern_ h st = Some st' →
  (∃ r, routes st' = routes st ++ [r] ∧ pattern r = pattern_ ∧ handler r = h)
  ∧ (Exists (matches (pathname st)) (routes st) →
     handleRoute st'
     = (fst (handleRoute st),
        with_routes (routes st') (snd (handleRoute st)))).
Proof.
  unfold register.
  destruct (replace_params (escape_slashes pattern_) None) as [src names].
  destruct (RegExp _) as [rx|]; [|done]. intros [= <-]. split.
  - by eexists.
  - intros Hex. unfold handleRoute. run_router. simpl.
    rewrite dispatch_matched_app by done. by apply dispatch_routes.
Qed.

End RouterExtras.

Section QueryProofs.
Import JS Utils QuerySpec.

Lemma split_on_from_no_sep sep s cur :
  Forall (fun c => c ≠ sep) s →
  split_on_from sep s cur = [rev cur ++ s].
Proof.
  intros Hs; revert cur; induction Hs as [|c s Hc _ IH]; intros cur; simpl.
  - by rewrite app_nil_r.
  - destruct (N.eqb_spec c sep) as [|_]; [done|].
    rewrite IH. simpl. by rewrite <- app_assoc.
Qed.

Lemma split_on_from_app sep a b cur :
  Forall (fun c => c ≠ sep) a →
  split_on_from sep (a ++ sep :: b) cur
  = (rev cur ++ a) :: split_on_from sep b [].
Proof.
  intros Ha; revert cur; induction Ha as [|c a Hc _ IH]; intros cur; simpl.
  - rewrite N.eqb_refl. by rewrite app_nil_r.
  - destruct (N.eqb_spec c sep) as [|_]; [done|].
    rewrite IH. simpl. by rewrite <- app_assoc.
Qed.

Lemma split_on_no_sep sep s :
  Forall (fun c => c ≠ sep) s → split_on sep s = [s].
Proof. intros. unfold split_on. by rewrite split_on_from_no_sep. Qed.

Lemma split_on_app sep a b :
  Forall (fun c => c ≠ sep) a →
  split_on sep (a ++ sep :: b) = a :: split_on sep b.
Proof. intros. unfold split_on. by rewrite split_on_from_app. Qed.

Lemma first_sep (sep : N) (l : jsstring) :
  Forall (fun c => c ≠ sep) l
  ∨ ∃ a b, l = a ++ sep :: b ∧ Forall (fun c => c ≠ sep) a.
Proof.
  induction l as [|c l [IH|(a & b & -> & Ha)]].
  - by left.
  - destruct (N.eq_dec c sep) as [->|Hc].
    + right. by exists [], l.
    + left. by constructor.
  - right. destruct (N.eq_dec c sep) as [->|Hc].
    + by exists [], (a ++ sep :: b).
    + exists (c :: a), b. split; [done | by constructor].
Qed.

(** The first piece of a split is the text before the first separator. *)
Lemma head_split_on_app sep a rest :
  Forall (fun c => c ≠ sep) a →
  (rest = [] ∨ ∃ r, rest = sep :: r) →
  head (split_on sep (a ++ rest)) = Some a.
Proof.
  intros Ha [->|[r ->]].
  - by rewrite app_nil_r, split_on_no_sep.
  - by rewrite split_on_app.
Qed.

Lemma decodeURIComponent_plain s :
  Forall (fun c => c ≠ 37%N) s → decodeURIComponent s = Some s.
Proof.
  intros Hs. unfold decodeURIComponent.
  assert (Ht : uri_tokens s = Some (map UPlain s)).
  { induction Hs as [|c s Hc _ IH]; [done|]. simpl.
    destruct (N.eqb_spec c 37) as [|_]; [done|]. by rewrite IH. }
  rewrite Ht. clear. induction s as [|c s IH]; [done|]. simpl. by rewrite IH.
Qed.

Lemma clean_param_text kv :
  well_formed_param kv →
  Forall (fun c => c ≠ 38%N) (param_text kv)
  ∧ Forall (fun c => c ≠ 35%N) (param_text kv)
  ∧ Forall (fun c => c ≠ 63%N) (param_text kv).
Proof.
  intros (_ & Hk & Hv). unfold param_text, clean in *.
  destruct kv as [k [v|]]; simpl in *.
  - repeat split; apply Forall_app; split;
      try (constructor; [done|]);
      (eapply Forall_impl; [eassumption|]); simpl; intros c Hc; tauto.
  - repeat split; (eapply Forall_impl; [eassumption|]); simpl; intros c Hc;
      tauto.
Qed.

Lemma query_text_cons kv kv' pairs :
  query_text (kv :: kv' :: pairs)
  = param_text kv ++ 38%N :: query_text (kv' :: pairs).
Proof. reflexivity. Qed.

Lemma clean_query_text pairs :
  Forall well_formed_param pairs →
  Forall (fun c => c ≠ 35%N) (query_text pairs)
  ∧ Forall (fun c => c ≠ 63%N) (query_text pairs).
Proof.
  induction 1 as [|kv pairs Hkv Hpairs [IH1 IH2]]; [done|].
  destruct (clean_param_text kv Hkv) as (_ & H1 & H2).
  destruct pairs as [|kv' pairs]; [done|].
  rewrite query_text_cons. split; apply Forall_app; split; try done;
    by constructor.
Qed.

Lemma split_query_text pairs :
  Forall well_formed_param pairs → pairs ≠ [] →
  split_on 38 (query_text pairs) = map param_text pairs.
Proof.
  induction 1 as [|kv pairs Hkv Hpairs IH]; [done|]. intros _.
  destruct (clean_param_text kv Hkv) as (Hamp & _ & _).
  destruct pairs as [|kv' pairs].
  - simpl. by rewrite split_on_no_sep.
  - rewrite query_text_cons, split_on_app by done.
    rewrite IH by done. done.
Qed.

Lemma query_text_nonempty pairs :
  Forall well_formed_param pairs → pairs ≠ [] → query_text pairs ≠ [].
Proof.
  intros Hwf Hne. destruct Hwf as [|kv pairs (Hk & _ & _) _]; [done|].
  destruct kv as [[|c k] v]; [done|].
  destruct pairs, v; done.
Qed.

Lemma parse_param (params : Obj) kv :
  well_formed_param kv →
  (let parts := split_on 61 (param_text kv) in
   let key := or_empty (head parts) in
   let value := or_empty (parts !! 1%nat) in
   match key with
   | [] => params
   | _ =>
       match decodeURIComponent key, decodeURIComponent value with
       | Some k, Some v => obj_set k v params
       | _, _ => obj_set key value params
       end
   end) = store params kv.
Proof.
  intros (Hne & Hk & Hv). unfold param_text, store, clean in *.
  assert (Hk' : Forall (fun c => c ≠ 61%N) kv.1)
    by (eapply Forall_impl; [exact Hk|]; simpl; tauto).
  destruct kv as [k [v|]]; simpl in *.
  - assert (Hv' : Forall (fun c => c ≠ 61%N) v)
      by (eapply Forall_impl; [exact Hv|]; simpl; tauto).
    rewrite split_on_app, split_on_no_sep by done. simpl.
    by destruct k.
  - rewrite split_on_no_sep by done. simpl. by destruct k.
Qed.

Lemma fold_params (pairs : list (jsstring * option jsstring)) (params : Obj) :
  Forall well_formed_param pairs →
  fold_left
    (fun (params : Obj) param =>
       let parts := split_on 61 param in
       let key := or_empty (head parts) in
       let value := or_empty (parts !! 1%nat) in
       match key with
       | [] => params
       | _ =>
           match decodeURIComponent key, decodeURIComponent value with
           | Some k, Some v => obj_set k v params
           | _, _ => obj_set key value params
           end
       end)
    (map param_text pairs) params
  = fold_left store pairs params.
Proof.
  intros Hwf; revert params; induction Hwf as [|kv pairs Hkv _ IH];
    intros params; [done|].
  cbn [map fold_left]. rewrite <- IH. f_equal. by apply parse_param.
Qed.

Lemma parseQueryString_run href base pairs frag :
  Forall (fun c => c ≠ 63%N) base →
  Forall well_formed_param pairs →
  fragment frag →
  parseQueryString href (base ++ 63%N :: query_text pairs ++ frag)
  = fold_left store pairs ∅.
Proof.
  intros Hbase Hwf Hfrag. unfold parseQueryString.
  destruct (clean_query_text pairs Hwf) as [Hhash Hq].
  set (url := base ++ 63%N :: query_text pairs ++ frag).
  assert (Hurl : match url with [] => href | _ => url end = url)
    by (subst url; by destruct base).
  rewrite Hurl. clear Hurl.
  assert (Hinc : includes url (js "?") = true).
  { apply includes_substring. by exists base, (query_text pairs ++ frag). }
  rewrite Hinc.
  assert (Hclean : or_empty (head (split_on 35
            (or_empty (split_on 63 url !! 1%nat)))) = query_text pairs).
  { subst url. rewrite (split_on_app 63) by done.
    change (or_empty ((base :: split_on 63 (query_text pairs ++ frag)) !! 1%nat))
      with (or_empty (split_on 63 (query_text pairs ++ frag) !! 0%nat)).
    destruct (first_sep 63 frag) as [Hf|(f1 & f2 & -> & Hf1)].
    - rewrite (split_on_no_sep 63) by (by apply Forall_app).
      change (or_empty ([query_text pairs ++ frag] !! 0%nat))
        with (query_text pairs ++ frag).
      by rewrite head_split_on_app.
    - rewrite app_assoc, (split_on_app 63) by (by apply Forall_app).
      change (or_empty (((query_text pairs ++ f1) :: split_on 63 f2) !! 0%nat))
        with (query_text pairs ++ f1).
      rewrite head_split_on_app; [done|done|].
      destruct Hfrag as [Hnil|[f' Hf']].
      + by destruct f1.
      + destruct f1 as [|c f1]; [done|]. injection Hf' as -> _. eauto. }
  rewrite Hclean.
  destruct pairs as [|kv pairs]; [done|].
  pose proof (query_text_nonempty (kv :: pairs) Hwf ltac:(done)) as Hne.
  destruct (query_text (kv :: pairs)) as [|c q] eqn:Eq; [done|].
  rewrite <- Eq, split_query_text by done.
  by apply fold_params.
Qed.

(** X16: for a url made of a base without [?], then [?], then parameters
    [key=value] or [key] joined with [&] (keys not empty, no [# & = ?]
    inside keys and values), then nothing or [#] and any text,
    [parseQueryString] stores the parameters from left to right, each under
    its decoded key with its decoded value (a missing value is the empty
    string), or as written when the key or the value does not decode; a
    key that comes again replaces what was stored. *)
Theorem parseQueryString_parameters href base pairs frag :
  Forall (fun c => c ≠ 63%N) base →
  Forall well_formed_param pairs →
  fragment frag →
  parseQueryString href (base ++ 63%N :: query_text pairs ++ frag)
  = fold_left store pairs ∅.
Proof. apply parseQueryString_run. Qed.

End QueryProofs.

Section QueryProofs2.
Import JS Eff Utils QuerySpec Router.

Lemma includes_no_char s c :
  Forall (fun x => x ≠ c) s → includes s [c] = false.
Proof.
  induction 1 as [|x s Hx _ IH]; [done|].
  cbn [includes starts_with]. rewrite IH.
  destruct (N.eqb_spec c x) as [->|_]; [done|]. done.
Qed.

Lemma parseQueryString_no_question_mark href url :
  url ≠ [] → Forall (fun c => c ≠ 63%N) url →
  parseQueryString href url = parseQueryString href (63%N :: url).
Proof.
  intros Hne Hq. unfold parseQueryString.
  destruct url as [|c url]; [done|].
  change (js "?") with [63%N].
  rewrite (includes_no_char (c :: url) 63 Hq).
  assert (Hinc : includes (63%N :: c :: url) [63%N] = true) by done.
  rewrite Hinc. change (63%N :: c :: url) with ([] ++ 63%N :: c :: url).
  rewrite (split_on_app 63) by done.
  rewrite (split_on_no_sep 63) by done. done.
Qed.

(** X17: a url without [?] is read as if all of it were the query string,
    and an empty url stands for the address of the page; so on a page
    whose address has none of [? # & =], [getParams] returns one parameter,
    named by the whole decoded address (the address as written if it does
    not decode) with the empty string as value. *)
Theorem parseQueryString_without_query {Page} (st : State Page) href url :
  (url ≠ [] → Forall (fun c => c ≠ 63%N) url →
   parseQueryString href url = parseQueryString href (63%N :: url))
  ∧ parseQueryString href [] = parseQueryString href href
  ∧ (Router.href st ≠ [] → clean (Router.href st) →
     getParams st = (Ok (store ∅ (Router.href st, None)), st)).
Proof.
  split; [apply parseQueryString_no_question_mark|]. split.
  - unfold parseQueryString. by destruct href.
  - intros Hne Hclean. unfold getParams. run_router. f_equal. f_equal.
    rewrite parseQueryString_no_question_mark; [|done|].
    + pose proof (parseQueryString_run (Router.href st) []
                    [(Router.href st, None)] []) as Hrun.
      cbn [query_text param_text snd fst app] in Hrun.
      rewrite app_nil_r in Hrun. rewrite Hrun; [done|done| |by left].
      by repeat constructor.
    + eapply Forall_impl; [exact Hclean|]. simpl. tauto.
Qed.

End QueryProofs2.


Section HighlightProofs.
Import JS Highlight HighlightSpec.
Variable canonicalize : N → N.

(** The class of [_escapeRegex] holds the syntax characters of patterns
    and nothing else. *)
Lemma regex_special_syntax_char c : is_regex_special c = is_syntax_char c.
Proof.
  unfold is_regex_special, is_syntax_char. cbn [js existsb map
    list_ascii_of_string N_of_ascii N_of_digits].
  repeat match goal with
         | |- context [N.eqb c ?k] =>
             destruct (N.eqb_spec c k) as [->|_]; [reflexivity|]
         end.
  reflexivity.
Qed.

Lemma parse_literal_escape kw :
  parse_literal (_escapeRegex kw ++ [41%N]) = Some kw.
Proof.
  induction kw as [|c kw IH]; [done|].
  unfold _escapeRegex in *. cbn [flat_map].
  pose proof (regex_special_syntax_char c) as Hclass.
  destruct (is_regex_special c) eqn:Hc.
  - cbn [app parse_literal]. change (N.eqb 92 41) with false.
    change (N.eqb 92 92) with true. cbv iota. by rewrite <- Hclass, IH.
  - cbn [app parse_literal].
    destruct (N.eqb_spec c 41) as [->|_]; [by vm_compute in Hc|].
    destruct (N.eqb_spec c 92) as [->|_]; [by vm_compute in Hc|].
    by rewrite <- Hclass, IH.
Qed.

(** X18: the characters [_escapeRegex] puts a backslash before are exactly
    the syntax characters of regular expression patterns, so that the
    source [highlight] gives to [RegExp] for a term is one group around a
    literal, and the literal is the term itself. *)
Theorem escapeRegex_makes_a_literal kw :
  (∀ c, is_regex_special c = true ↔ c ∈ js "^$\.*+?()[]{}|")
  ∧ RegExp_group (js "(" ++ _escapeRegex kw ++ js ")") = Some kw.
Proof.
  split.
  - intros c. rewrite regex_special_syntax_char. unfold is_syntax_char.
    rewrite existsb_exists. split.
    + intros (x & Hx & ->%N.eqb_eq). by apply list_elem_of_In.
    + intros Hc. exists c. split; [by apply list_elem_of_In | apply N.eqb_refl].
  - change (js "(") with [40%N]. change (js ")") with [41%N].
    cbn [app RegExp_group]. apply parse_literal_escape.
Qed.

End HighlightProofs.

Section HighlightProofs2.
Import JS Highlight HighlightSpec.
Variable canonicalize : N → N.
Abbreviation matches_at := (matches_at canonicalize).
Abbreviation replace_from := (replace_from canonicalize).
Abbreviation replace_all := (replace_all canonicalize).
Abbreviation Marked := (Marked canonicalize).
Abbreviation absent := (absent canonicalize).

Lemma RegExp_group_escape kw :
  RegExp_group (js "(" ++ _escapeRegex kw ++ js ")") = Some kw.
Proof.
  change (js "(") with [40%N]. change (js ")") with [41%N].
  cbn [app RegExp_group]. apply parse_literal_escape.
Qed.

Lemma matches_at_split lit s :
  matches_at lit s = true →
  ∃ m t, s = m ++ t ∧ length m = length lit
         ∧ map canonicalize m = map canonicalize lit.
Proof.
  revert s; induction lit as [|x lit IH]; intros s.
  - intros _. by exists [], s.
  - destruct s as [|y s]; [done|]. simpl.
    intros [Hxy (m & t & -> & Hlen & Hmap)%IH]%andb_true_iff.
    apply N.eqb_eq in Hxy. exists (y :: m), t. simpl.
    by rewrite Hlen, Hmap, Hxy.
Qed.

Lemma replace_from_skip lit m t :
  replace_from lit (m ++ t) (length m) = replace_from lit t 0.
Proof.
  induction m as [|c m IH]; [|exact IH].
  simpl. by destruct t.
Qed.

Lemma replace_from_match lit c s :
  lit ≠ [] →
  matches_at lit (c :: s) = true →
  ∃ m t, c :: s = m ++ t ∧ m ≠ [] ∧ length m = length lit
         ∧ map canonicalize m = map canonicalize lit
         ∧ replace_from lit (c :: s) 0
           = mark_open ++ m ++ mark_close ++ replace_from lit t 0.
Proof.
  intros Hlit Hm.
  destruct (matches_at_split _ _ Hm) as (m & t & Hs & Hlen & Hmap).
  destruct m as [|c' m]; [by destruct lit|].
  injection Hs as <- ->. exists (c :: m), t.
  repeat split; try done.
  cbn [Highlight.replace_from]. rewrite Hm.
  replace (length lit - 1)%nat with (length m) by (simpl in Hlen; lia).
  rewrite <- Hlen, replace_from_skip.
  change (c :: m ++ t) with ((c :: m) ++ t).
  by rewrite firstn_app, firstn_all, Nat.sub_diag, firstn_O, app_nil_r.
Qed.

Lemma replace_from_Marked lit s :
  lit ≠ [] → Marked lit s (replace_from lit s 0).
Proof.
  intros Hlit.
  induction s as [s IH] using (induction_ltof1 _ (@length N)).
  unfold ltof in IH. destruct s as [|c s]; [constructor|].
  destruct (matches_at lit (c :: s)) eqn:Hm.
  - destruct (replace_from_match lit c s Hlit Hm)
      as (m & t & Hs & Hne & Hlen & Hmap & ->).
    rewrite Hs. constructor; try done. apply IH.
    apply (f_equal (@length N)) in Hs. rewrite length_app in Hs.
    destruct m; [done|]. simpl in *. lia.
  - cbn [Highlight.replace_from]. rewrite Hm.
    constructor; [done|]. apply IH. simpl. lia.
Qed.

Lemma Marked_sublist lit s r : Marked lit s r → s `sublist_of` r.
Proof.
  induction 1 as [|c text r _ _ IH|m text r _ _ _ _ IH].
  - constructor.
  - by constructor.
  - apply sublist_inserts_l, sublist_app; [done|].
    by apply sublist_inserts_l.
Qed.

Lemma replace_all_sublist lit s : s `sublist_of` replace_all lit s.
Proof.
  destruct lit as [|x lit].
  - unfold Highlight.replace_all. do 2 apply sublist_inserts_l.
    induction s as [|c s IH]; [constructor|].
    cbn [flat_map]. rewrite <- app_comm_cons. constructor.
    by apply sublist_inserts_l.
  - by apply Marked_sublist with (x :: lit), replace_from_Marked.
Qed.

Lemma replace_from_absent lit s : absent lit s → replace_from lit s 0 = s.
Proof.
  induction s as [|c s IH]; [done|]. intros Habs.
  pose proof (Habs 0%nat) as H0. cbn [drop] in H0.
  cbn [Highlight.replace_from]. rewrite H0. f_equal. apply IH.
  intros i. apply (Habs (S i)).
Qed.

Lemma replace_all_absent lit s : absent lit s → replace_all lit s = s.
Proof.
  destruct lit as [|x lit]; [by intros H; specialize (H 0%nat)|].
  apply replace_from_absent.
Qed.

Lemma highlight_fold terms acc :
  ∃ r,
    fold_left
      (fun result kw =>
         match result with
         | Some result =>
             match RegExp_group (js "(" ++ _escapeRegex kw ++ js ")") with
             | Some lit => Some (replace_all lit result)
             | None => None
             end
         | None => None
         end)
      terms (Some acc) = Some r
    ∧ acc `sublist_of` r
    ∧ (Forall (fun kw => absent kw acc) terms → r = acc).
Proof.
  revert acc; induction terms as [|kw terms IH]; intros acc.
  - by exists acc.
  - cbn [fold_left]. rewrite RegExp_group_escape.
    destruct (IH (replace_all kw acc)) as (r & -> & Hsub & Habs).
    exists r. split; [done|]. split.
    + etrans; [apply replace_all_sublist | exact Hsub].
    + intros Hall. inversion Hall as [|? ? Hkw Hterms]; subst.
      rewrite (replace_all_absent kw acc Hkw) in Habs. by apply Habs.
Qed.

(** X19: [highlight] always returns, it only inserts text (the original
    text is what remains of the result when the inserted code units are
    taken out), and it returns the text unchanged when the keyword or the
    text is empty, when the keyword is blank and when no term of the
    keyword occurs in the text, case-insensitively. *)
Theorem highlight_only_inserts text keyword :
  ∃ r,
    highlight canonicalize text keyword = Some r
    ∧ text `sublist_of` r
    ∧ (keyword = [] ∨ text = [] ∨ terms_of keyword = []
       ∨ Forall (fun kw => absent kw text) (terms_of keyword) →
       r = text).
Proof.
  unfold highlight. destruct keyword as [|k keyword].
  { exists text. by repeat split. }
  destruct text as [|t text].
  { exists []. by repeat split. }
  destruct (highlight_fold (terms_of (k :: keyword)) (t :: text))
    as (r & Hr & Hsub & Habs).
  exists r. split; [exact Hr|]. split; [exact Hsub|].
  intros [|[|[Hnil|Hall]]]; try done.
  - apply Habs. rewrite Hnil. constructor.
  - by apply Habs.
Qed.


End HighlightProofs2.

Section HighlightExamples.
Import JS Highlight HighlightSpec.

Example highlight_examples :
  highlight ascii_canonicalize (js "the quick fox") (js "quick")
  = Some (js "the <mark>quick</mark> fox")
  ∧ highlight ascii_canonicalize (js "The Quick fox") (js "  QUICK  the ")
    = Some (js "<mark>The</mark> <mark>Quick</mark> fox")
  ∧ highlight ascii_canonicalize (js "what? a.b") (js "? .")
    = Some (js "what<mark>?</mark> a<mark>.</mark>b")
  ∧ highlight ascii_canonicalize (js "aaa") (js "aa")
    = Some (js "<mark>aa</mark>a")
  ∧ highlight ascii_canonicalize (js "a") (js "a mark")
    = Some (js "<<mark>mark</mark>>a</<mark>mark</mark>>").
Proof. vm_compute. repeat split. Qed.

End HighlightExamples.

Section SearchExtras.
Import JS Data SearchEngine SearchSpec.

Lemma filter_map_comm {A B} (f : A → B) (p : B → bool) l :
  List.filter p (map f l) = map f (List.filter (fun a => p (f a)) l).
Proof.
  induction l as [|a l IH]; [done|]. simpl.
  destruct (p (f a)); simpl; by rewrite IH.
Qed.

Lemma filter_filter {A} (p q : A → bool) l :
  List.filter p (List.filter q l) = List.filter (fun a => q a && p a) l.
Proof.
  induction l as [|a l IH]; [done|]. simpl.
  destruct (q a); simpl; [destruct (p a)|]; by rewrite IH.
Qed.

Lemma filter_ext_Forall {A} (p q : A → bool) l :
  Forall (fun a => p a = q a) l → List.filter p l = List.filter q l.
Proof.
  induction 1 as [|a l Ha _ IH]; [done|]. simpl. by rewrite Ha, IH.
Qed.

(** X21: for a keyword that is not blank, the items that [search] returns
    with a given score are the items of the snapshot with that score, in
    the order of the snapshot: ties keep their order (the sort is stable)
    and nothing is returned twice or lost. *)
Theorem search_keeps_order_of_ties (toLowerCase : jsstring → jsstring)
  (self : SearchEngine) (keyword : jsstring) (k : Z) :
  trim keyword ≠ [] →
  0 < k →
  let sc := total_score toLowerCase (words (toLowerCase keyword)) in
  List.filter (fun it => sc it =? k) (search toLowerCase self (Some keyword))
  = List.filter (fun it => sc it =? k) (data self).
Proof.
  intros Htrim Hk sc. unfold search.
  pose proof (trim_nil_of_nil _ Htrim) as Hne.
  rewrite !str_eqb_nil.
  destruct keyword as [|c0 kw0]; [done|].
  destruct (trim (c0 :: kw0)) as [|c1 t1] eqn:Et; [done|]. simpl orb. cbv iota.
  rewrite keywords_of_words. fold (words (toLowerCase (c0 :: kw0))).
  set (terms := words (toLowerCase (c0 :: kw0))) in *.
  destruct (Nat.eqb_spec (length terms) 0) as [Hlen|Hlen].
  - apply length_zero_iff_nil in Hlen.
    assert (Hz : ∀ it, sc it = 0) by (intros it; unfold sc; by rewrite Hlen).
    simpl. symmetry. rewrite (filter_ext _ (fun _ => false)).
    + by induction (data self).
    + intros it. rewrite Hz. by destruct (Z.eqb_spec 0 k); [lia|].
  - rewrite (fold_results (score_of toLowerCase terms)). simpl app.
    set (scored := map _ (List.filter _ (data self))).
    set (cmp := fun a b : Scored => score b - score a).
    assert (Hcmp : ∀ a b, cmp a b = (- score a) - (- score b))
      by (intros; unfold cmp; lia).
    assert (Hsc : Forall (fun r => score r = sc (item r)) scored).
    { subst scored. apply Forall_forall. intros r Hr.
      apply list_elem_of_In, in_map_iff in Hr. destruct Hr as (it & <- & _).
      simpl. apply score_of_total. }
    rewrite filter_map_comm.
    rewrite (filter_ext_Forall _ (fun r => - score r =? - k)).
    2:{ rewrite (sort_perm cmp scored).
        eapply Forall_impl; [exact Hsc|]. simpl. intros r ->.
        destruct (Z.eqb_spec (sc (item r)) k), (Z.eqb_spec (- sc (item r)) (- k));
          try done; lia. }
    rewrite (sort_stable (fun r => - score r) cmp Hcmp).
    subst scored. rewrite filter_map_comm, map_map, filter_filter. simpl.
    rewrite map_id. apply filter_ext. intros it.
    rewrite score_of_total. fold (sc it).
    destruct (Z.ltb_spec 0 (sc it)), (Z.eqb_spec (- sc it) (- k)),
      (Z.eqb_spec (sc it) k); simpl; try done; lia.
Qed.

End SearchExtras.

(** ** The further statements at concrete inputs *)

Section LoaderWitnesses2.
Import JS Eff Data DataLoader LoaderSpec LoaderSpec2 LoaderSpec3 LoaderSpec4
  RecommendSpec Examples Examples2.

Lemma fetchWithRetry_recovers_witness :
  ∃ t,
    fetchWithRetry url_content 3 (constructor flaky_server (hourly 1000))
    = (Ok {| ok := true; status := 200;
             json := Ok (body_of url_content 60000) |},
       with_trace (trace (constructor flaky_server (hourly 1000)) ++ t)
         (with_fetches 3 (constructor flaky_server (hourly 1000))))
    ∧ requests t = replicate 3 url_content
    ∧ delays t = replicate 2 1000.
Proof.
  apply (fetchWithRetry_recovers url_content 3
           (constructor flaky_server (hourly 1000)) 2).
  - lia.
  - intros [|[|j]] Hj; [exact I | reflexivity | lia].
  - vm_compute; reflexivity.
  - reflexivity.
Defined.

Lemma loads_cache_fetched_data_witness :
  fst (loadContent (constructor (server 60000) (hourly 1000)))
  = Ok (Some catalog)
  ∧ cache_content (snd (loadContent (constructor (server 60000) (hourly 1000))))
    = mkSlot (Some catalog) (Some 1000).
Proof.
  assert (Hcold : isCacheValid key_content
                    (constructor (server 60000) (hourly 1000))
                  = (Ok false, constructor (server 60000) (hourly 1000)))
    by (vm_compute; reflexivity).
  assert (Hfetch : fetchWithRetry url_content
                     (maxRetries (constructor (server 60000) (hourly 1000)))
                     (constructor (server 60000) (hourly 1000))
                   = (Ok {| ok := true; status := 200;
                            json := Ok (body_of url_content 60000) |},
                      after_request url_content
                        (constructor (server 60000) (hourly 1000))))
    by (vm_compute; reflexivity).
  assert (Hbody : content_of (json {| ok := true; status := 200;
                                      json := Ok (body_of url_content 60000) |})
                  = inl catalog) by (vm_compute; reflexivity).
  destruct (proj1 loads_cache_fetched_data _ _ _ _ _ Hcold Hfetch Hbody)
    as (Hres & Hslot & _).
  split; [exact Hres | exact Hslot].
Defined.

Lemma loads_do_not_retry_bad_bodies_witness :
  fetches (snd (loadContent (constructor wrong_server (hourly 1000)))) = 1%nat
  ∧ fst (loadContent (constructor wrong_server (hourly 1000)))
    = Throw (mkError (msg_content_failed ++ msg_content_invalid)).
Proof.
  assert (Hcold : isCacheValid key_content
                    (constructor wrong_server (hourly 1000))
                  = (Ok false, constructor wrong_server (hourly 1000)))
    by (vm_compute; reflexivity).
  assert (Hfetch : fetchWithRetry url_content
                     (maxRetries (constructor wrong_server (hourly 1000)))
                     (constructor wrong_server (hourly 1000))
                   = (Ok {| ok := true; status := 200; json := Ok empty_body |},
                      after_request url_content
                        (constructor wrong_server (hourly 1000))))
    by (vm_compute; reflexivity).
  assert (Hbody : content_of (json {| ok := true; status := 200;
                                      json := Ok empty_body |})
                  = inr (mkError msg_content_invalid))
    by (vm_compute; reflexivity).
  exact (proj1 loads_do_not_retry_bad_bodies _ _ _ _ _ Hcold Hfetch Hbody).
Defined.

Lemma loads_keep_slots_well_formed_witness :
  cache_wf (snd (loadContent (constructor (server 60000) (hourly 1000))))
  ∧ fst (loadContent (constructor (server 60000) (hourly 1000))) ≠ Ok None.
Proof.
  destruct loads_keep_slots_well_formed as [Hnew Hkeep].
  exact (proj1 (Hkeep (constructor (server 60000) (hourly 1000))
                  (Hnew (server 60000) (hourly 1000)))).
Defined.

Lemma request_budget_witness :
  (fetches stale_loader < fetches (snd (loadContent stale_loader))
   ≤ fetches stale_loader + S (maxRetries stale_loader))%nat.
Proof.
  assert (Hstale : fst (isCacheValid key_content stale_loader) = Ok false)
    by (vm_compute; reflexivity).
  destruct (proj2 request_budget stale_loader) as (_ & Hbudget & _).
  exact (Hbudget Hstale).
Defined.

Lemma loads_touch_their_own_slot_witness :
  cache_content (snd (loadConfig configured_loader))
  = cache_content configured_loader
  ∧ cacheDuration (snd (loadConfig configured_loader))
    = cacheDuration configured_loader.
Proof.
  assert (Hvalid : fst (isCacheValid key_config configured_loader) = Ok true)
    by (vm_compute; reflexivity).
  destruct (loads_touch_their_own_slot configured_loader)
    as (_ & _ & Hslot & _ & _ & _ & Httl).
  split; [exact Hslot | exact (Httl Hvalid)].
Defined.

Lemma getContentById_lookup_witness :
  ∃ found,
    getContentById (js "b") (constructor (server 60000) (hourly 1000))
    = (Ok found, snd (loadContent (constructor (server 60000) (hourly 1000))))
    ∧ match found with
      | Some item => first_with_id catalog (js "b") item
      | None => ∀ c, c ∈ catalog → item_id c ≠ js "b"
      end.
Proof.
  assert (Hid : js "b" ≠ []) by (vm_compute; discriminate).
  assert (Hload : loadContent (constructor (server 60000) (hourly 1000))
                  = (Ok (Some catalog),
                     snd (loadContent (constructor (server 60000) (hourly 1000)))))
    by (vm_compute; reflexivity).
  exact (proj1 (proj2 (getContentById_lookup (js "b")
           (constructor (server 60000) (hourly 1000)))) Hid _ _ Hload).
Defined.

Lemma getContentByType_filters_witness :
  ∃ found others,
    getContentByType (js "book") (constructor (server 60000) (hourly 1000))
    = (Ok found, snd (loadContent (constructor (server 60000) (hourly 1000))))
    ∧ found `sublist_of` catalog
    ∧ Permutation catalog (found ++ others)
    ∧ Forall (fun c => item_type c = js "book") found
    ∧ Forall (fun c => item_type c ≠ js "book") others.
Proof.
  assert (Hty : js "book" ≠ []) by (vm_compute; discriminate).
  assert (Hload : loadContent (constructor (server 60000) (hourly 1000))
                  = (Ok (Some catalog),
                     snd (loadContent (constructor (server 60000) (hourly 1000)))))
    by (vm_compute; reflexivity).
  exact (proj1 (proj2 (getContentByType_filters (js "book")
           (constructor (server 60000) (hourly 1000)))) Hty _ _ Hload).
Defined.

Lemma clearCache_drops_the_fallback_witness :
  fst (loadContent stale_loader) = Ok (Some catalog)
  ∧ fst (loadContent (snd (clearCache stale_loader)))
    = Throw (mkError (msg_content_failed ++ js "Failed to fetch")).
Proof.
  split; [vm_compute; reflexivity|].
  assert (Hdown : ∀ n url, failed (transport stale_loader n url))
    by (intros n url; exact I).
  destruct (clearCache_drops_the_fallback stale_loader Hdown)
    as (_ & _ & _ & Hthrow & _).
  exact Hthrow.
Defined.

Lemma stamp_zero_is_never_valid_witness :
  get_slot key_content
    (snd (setCache key_content catalog (constructor network_down epoch_clock)))
  = mkSlot (Some catalog) (Some 0)
  ∧ isCacheValid key_content
      (snd (setCache key_content catalog (constructor network_down epoch_clock)))
    = (Ok false,
       snd (setCache key_content catalog (constructor network_down epoch_clock))).
Proof.
  assert (Hclock : clock (constructor network_down epoch_clock)
                     (reads (constructor network_down epoch_clock)) = 0)
    by (vm_compute; reflexivity).
  destruct (stamp_zero_is_never_valid key_content catalog
              (constructor network_down epoch_clock) lawful_content Hclock)
    as [Hslot Hnever].
  split; [exact Hslot | exact (Hnever _ eq_refl)].
Defined.

End LoaderWitnesses2.

Section RouterWitnesses2.
Import JS Eff Router RouterSpec RouterSpec2 RouterSpec3 PatternSpec
  RouterExamples RouterExamples2 RouterExamples3 Utils QuerySpec.

Lemma register_compiles_pattern_witness :
  register (js "/detail/:id") recording (two_routes recording)
  = Some (with_routes
            (routes (two_routes recording) ++
             [{| pattern := js "/detail/:id";
                 regex := map AChar (js "/detail/") ++ [AGroup];
                 paramNames := [js "id"];
                 handler := recording |}])
            (two_routes recording)).
Proof.
  assert (Hwf : well_formed detail_tokens).
  { vm_compute. repeat split; try discriminate; repeat constructor. }
  exact (register_compiles_pattern detail_tokens recording
           (two_routes recording) Hwf).
Defined.

Lemma handleRoute_not_found_witness :
  ∃ st',
    handleRoute at_unknown = (Ok tt, st')
    ∧ currentParams st' = {[ js "type" := js "books" ]}
    ∧ page st'
      = {| main_html := Some not_found_html; body_html := Some [];
           calls := [] |}
    ∧ routes st' = routes at_unknown
    ∧ trace st' = [WarnNoRoute (js "/about"); Render404].
Proof.
  assert (Hno : Forall (fun r => ¬ matches (pathname at_unknown) r)
                  (routes at_unknown))
    by (repeat constructor; intros [gs Hgs]; vm_compute in Hgs; discriminate).
  destruct (proj1 (handleRoute_not_found at_unknown) Hno)
    as (st' & Hrun & Hparams & Hpage & Hroutes & Htrace).
  exists st'. split; [exact Hrun|]. split; [exact Hparams|].
  split; [exact Hpage|]. split; [exact Hroutes | exact Htrace].
Defined.

(** Without a [main] element the notice replaces the body. *)
Example handle404_without_main :
  page (snd (handleRoute
               (constructor (js "/about") (js "http://example.org/about")
                  plain)))
  = {| main_html := None; body_html := Some not_found_html; calls := [] |}.
Proof. reflexivity. Qed.

Lemma handleRoute_malformed_escape_witness :
  handleRoute at_bad_escape = (Throw uri_error, at_bad_escape).
Proof.
  apply (handleRoute_malformed_escape at_bad_escape []
           (category_route recording) [generic_route] [js "100%"]).
  - reflexivity.
  - constructor.
  - vm_compute; reflexivity.
  - reflexivity.
  - constructor. vm_compute; reflexivity.
Defined.

Lemma register_keeps_precedence_witness :
  ∃ st',
    register (js "/category/books") broken (two_routes recording) = Some st'
    ∧ handleRoute st'
      = (fst (handleRoute (two_routes recording)),
         with_routes (routes st') (snd (handleRoute (two_routes recording)))).
Proof.
  eexists. split; [vm_compute; reflexivity|].
  eapply (proj2 (register_keeps_precedence (two_routes recording) _
                   (js "/category/books") broken ltac:(vm_compute; reflexivity))).
  constructor. eexists. vm_compute; reflexivity.
Defined.

Lemma parseQueryString_parameters_witness :
  parseQueryString []
    (js "http://example.org/search?q=%E6%B5%8B&page=1&q=a%20b&flag&bad=%zz#top?x=1")
  = fold_left store
      [(js "q", Some (js "%E6%B5%8B")); (js "page", Some (js "1"));
       (js "q", Some (js "a%20b")); (js "flag", None);
       (js "bad", Some (js "%zz"))] ∅.
Proof.
  apply (parseQueryString_parameters [] (js "http://example.org/search")
           [(js "q", Some (js "%E6%B5%8B")); (js "page", Some (js "1"));
            (js "q", Some (js "a%20b")); (js "flag", None);
            (js "bad", Some (js "%zz"))]
           (js "#top?x=1")).
  - vm_compute. repeat constructor; discriminate.
  - vm_compute. repeat constructor; discriminate.
  - right. by eexists.
Defined.

Example parseQueryString_example :
  let params :=
    parseQueryString []
      (js "http://example.org/search?q=%E6%B5%8B&page=1&q=a%20b&flag&bad=%zz#top?x=1") in
  params !! js "q" = Some (js "a b")
  ∧ params !! js "page" = Some (js "1")
  ∧ params !! js "flag" = Some []
  ∧ params !! js "bad" = Some (js "%zz")
  ∧ params !! js "x" = None
  ∧ size params = 4%nat.
Proof. vm_compute. repeat split. Qed.

Lemma parseQueryString_without_query_witness :
  getParams at_unknown
  = (Ok (store ∅ (js "http://example.org/about", None)), at_unknown).
Proof.
  apply (proj2 (proj2 (parseQueryString_without_query at_unknown [] []))).
  - vm_compute; discriminate.
  - vm_compute. repeat constructor; discriminate.
Defined.

End RouterWitnesses2.

Section SearchWitnesses2.
Import JS Data SearchEngine SearchSpec Examples SearchExamples Highlight
  HighlightSpec.

Lemma highlight_only_inserts_witness :
  ∃ r,
    highlight ascii_canonicalize (js "the quick fox") (js "   ") = Some r
    ∧ r = js "the quick fox".
Proof.
  destruct (highlight_only_inserts ascii_canonicalize (js "the quick fox")
              (js "   ")) as (r & Hr & _ & Hsame).
  exists r. split; [exact Hr|]. apply Hsame.
  right. right. left. vm_compute; reflexivity.
Defined.


(** [story] occurs in the description of two items and in no title: both
    score 1 and come out in the order of the snapshot, after the item that
    scores 0 has been left out. *)
Lemma search_keeps_order_of_ties_witness :
  let sc := total_score ascii_toLowerCase [js "story"] in
  map sc [moon_atlas; blue_planet; little_prince] = [0; 1; 1]
  ∧ search ascii_toLowerCase atlas_library (Some (js "story"))
    = [blue_planet; little_prince]
  ∧ List.filter (fun it => sc it =? 1) [blue_planet; little_prince]
    = List.filter (fun it => sc it =? 1)
        [moon_atlas; blue_planet; little_prince].
Proof.
  intros sc.
  assert (Hwords : words (ascii_toLowerCase (js "story")) = [js "story"])
    by (vm_compute; reflexivity).
  assert (Hrun : search ascii_toLowerCase atlas_library (Some (js "story"))
                 = [blue_planet; little_prince]) by (vm_compute; reflexivity).
  assert (Hne : trim (js "story") ≠ []) by (vm_compute; discriminate).
  pose proof (search_keeps_order_of_ties ascii_toLowerCase atlas_library
                (js "story") 1 Hne ltac:(lia)) as Hthm.
  cbv zeta in Hthm. rewrite Hwords, Hrun in Hthm.
  split; [vm_compute; reflexivity|]. split; [exact Hrun | exact Hthm].
Defined.

End SearchWitnesses2.
